(** * SerialLink: session manager, scanner and streaming reader

    A shallow embedding of the Go sources of SerialLink
    ([internal/serial]: types, errors, manager, scanner, reader; [config];
    [api]: the gRPC facade; [cmd/read.go]) together with the properties
    that the specification states about them and further properties of
    the code.

    Conventions of the embedding.
    - Go [int], [uint32], [uint64] values are [Z]; where the source does
      arithmetic on an unsigned type the wrap-around is written out.
    - Go maps are [gmap]s; pointers to [Session] are locations in a heap, so
      that the two indexes of the manager can alias one object.
    - Channels are entries of a channel store: a FIFO buffer, a capacity and
      a closed flag.
    - Calls that leave the program (the serial driver, [uuid.New],
      [time.Now], the Go scheduler's choice in a [select]) take their outcome
      as an explicit argument. *)

From Stdlib Require Import ZArith Lia Bool List Ascii String.
From Stdlib.Strings Require Import Byte.
From stdpp Require Import base option list sorting gmap strings.

Local Open Scope string_scope.
Local Open Scope list_scope.
Local Open Scope Z_scope.

(** ** Errors ([internal/serial/errors.go]) *)

(** The sentinel errors of the package, errors that come out of the driver
    library, and [fmt.Errorf("...%w", e)] wrapping.  [Wrap] keeps the format
    string; the rendered arguments play no role below. *)
Inductive error : Type :=
  | ErrNotOpen
  | ErrPortNotFound
  | ErrPortAlreadyOpen
  | ErrPortNotOpen
  | ErrPortLocked
  | ErrInvalidSession
  | ErrInvalidConfig
  | ErrWriteTimeout
  | ErrReadTimeout
  | ErrPortClosed
  | DriverError (msg : string)
  | Wrap (format : string) (cause : error).

#[global] Instance error_eq_dec : EqDecision error.
Proof. solve_decision. Defined.

(** [errors.Is]: the chain of causes reaches the target. *)
Fixpoint errors_Is (e target : error) : bool :=
  if decide (e = target) then true
  else match e with
       | Wrap _ cause => errors_Is cause target
       | _ => false
       end.

(** Go's [(value, error)] results where the value is meaningful only when
    the error is nil. *)
Inductive result (A : Type) : Type :=
  | Ok (a : A)
  | Err (e : error).
Arguments Ok {A} a.
Arguments Err {A} e.

(** ** Port types and configuration ([internal/serial/types.go]) *)

Module Types.

(** [type Parity int], [type StopBits int], [type FlowControl int]: the
    constants are consecutive from 0 ([iota]); a value of the type is any
    [int]. *)
Definition ParityNone : Z := 0.
Definition ParityOdd : Z := 1.
Definition ParityEven : Z := 2.
Definition ParityMark : Z := 3.
Definition ParitySpace : Z := 4.

Definition StopBits1 : Z := 0.
Definition StopBits1Half : Z := 1.
Definition StopBits2 : Z := 2.

Definition FlowControlNone : Z := 0.
Definition FlowControlHardware : Z := 1.
Definition FlowControlSoftware : Z := 2.

Record PortConfig : Type := mkPortConfig {
  BaudRate : Z;
  DataBits : Z;
  StopBits : Z;
  Parity : Z;
  FlowControl : Z;
  ReadTimeoutMs : Z;
  WriteTimeoutMs : Z
}.

#[global] Instance PortConfig_eq_dec : EqDecision PortConfig.
Proof. solve_decision. Defined.

Definition DefaultConfig : PortConfig :=
  {| BaudRate := 9600;
     DataBits := 8;
     StopBits := StopBits1;
     Parity := ParityNone;
     FlowControl := FlowControlNone;
     ReadTimeoutMs := 1000;
     WriteTimeoutMs := 1000 |}.

(** The map literal of [Validate]. *)
Definition validBaudRates : gmap Z bool :=
  list_to_map
    [ (300, true); (600, true); (1200, true); (2400, true); (4800, true);
      (9600, true); (19200, true); (38400, true); (57600, true);
      (115200, true); (230400, true); (460800, true); (921600, true) ].

(** Indexing a Go map yields the zero value for an absent key. *)
Definition map_index (m : gmap Z bool) (k : Z) : bool :=
  default false (m !! k).

(** [PortConfig.Validate]: [None] is the nil error. *)
Definition Validate (c : PortConfig) : option error :=
  if BaudRate c <? 1 then
    Some (Wrap "%w: baud rate must be positive, got %d" ErrInvalidConfig)
  else if negb (map_index validBaudRates (BaudRate c)) && (BaudRate c <? 300) then
    Some (Wrap "%w: baud rate %d is too low" ErrInvalidConfig)
  else if (DataBits c <? 5) || (DataBits c >? 8) then
    Some (Wrap "%w: data bits must be 5-8, got %d" ErrInvalidConfig)
  else if (StopBits c <? StopBits1) || (StopBits c >? StopBits2) then
    Some (Wrap "%w: invalid stop bits value" ErrInvalidConfig)
  else if (Parity c <? ParityNone) || (Parity c >? ParitySpace) then
    Some (Wrap "%w: invalid parity value" ErrInvalidConfig)
  else if (FlowControl c <? FlowControlNone) || (FlowControl c >? FlowControlSoftware) then
    Some (Wrap "%w: invalid flow control value" ErrInvalidConfig)
  else None.

(** The InvalidConfig error kind: what [errors.Is(err, ErrInvalidConfig)]
    recognises. *)
Definition is_InvalidConfig (r : option error) : Prop :=
  exists e, r = Some e /\ errors_Is e ErrInvalidConfig = true.

(** The domain of the checked fields, as [Validate] enforces it. *)
Definition checked_fields_ok (c : PortConfig) : Prop :=
  300 <= BaudRate c /\
  5 <= DataBits c <= 8 /\
  StopBits1 <= StopBits c <= StopBits2 /\
  ParityNone <= Parity c <= ParitySpace /\
  FlowControlNone <= FlowControl c <= FlowControlSoftware.

(** The configuration domain of the specification: the checked fields
    and, in addition, non-negative timeouts. *)
Definition spec_domain (c : PortConfig) : Prop :=
  checked_fields_ok c /\ 0 <= ReadTimeoutMs c /\ 0 <= WriteTimeoutMs c.

End Types.
Export Types.

(** ** Channels *)

Module Channel.

(** A buffered Go channel: the queued values (oldest first), the capacity
    given to [make], and whether [close] was called. *)
Record Chan (A : Type) : Type := mkChan {
  ch_buf : list A;
  ch_cap : nat;
  ch_closed : bool
}.
Arguments mkChan {A} _ _ _.
Arguments ch_buf {A} _.
Arguments ch_cap {A} _.
Arguments ch_closed {A} _.

(** [make(chan A, cap)] *)
Definition make_chan {A : Type} (cap : nat) : Chan A :=
  mkChan [] cap false.

(** [close(ch)].  Closing a closed channel panics in Go; the operations
    below close a channel only while it is listed as a subscriber, and a
    listed subscriber is open, so that case does not arise and the model
    is idempotent there. *)
Definition close_chan {A : Type} (c : Chan A) : Chan A :=
  mkChan (ch_buf c) (ch_cap c) true.

(** [select { case ch <- v: default: }]: the value is queued when the
    buffer has room, and dropped otherwise.  (A send on a closed channel
    panics in Go; as for [close_chan] the callers never reach it, and the
    model leaves a closed channel as it is.) *)
Definition try_send {A : Type} (v : A) (c : Chan A) : Chan A :=
  if ch_closed c then c
  else if (length (ch_buf c) <? ch_cap c)%nat
       then mkChan (ch_buf c ++ [v]) (ch_cap c) (ch_closed c)
       else c.

(** What a receive [v, ok := <-ch] that does not block yields: the oldest
    queued value, or [ok = false] on a closed and drained channel.  [None]
    stands for a receive that would block. *)
Inductive received (A : Type) : Type :=
  | Value (v : A)
  | Closed.
Arguments Value {A} v.
Arguments Closed {A}.

Definition try_recv {A : Type} (c : Chan A) : option (received A * Chan A) :=
  match ch_buf c with
  | v :: rest => Some (Value v, mkChan rest (ch_cap c) (ch_closed c))
  | [] => if ch_closed c then Some (Closed, c) else None
  end.

End Channel.
Export Channel.

(** ** The session manager ([internal/serial/manager.go]) *)

Module Manager.

Definition loc : Type := nat.
Definition chan_id : Type := nat.
Definition handle : Type := nat.
Definition bytes : Type := list byte.

(** [uint64(n)] for an [int] and [atomic.AddUint64]. *)
Definition uint64 (n : Z) : Z := n mod 2 ^ 64.
Definition AddUint64 (x delta : Z) : Z := (x + delta) mod 2 ^ 64.

(** [PortStatistics] ([types.go]); the two times are readings of the
    clock. *)
Record PortStatistics : Type := mkStats {
  BytesSent : Z;
  BytesReceived : Z;
  Errors : Z;
  OpenedAt : Z;
  LastActivity : Z
}.

(** [Session].  [port] is the driver handle ([None] is a nil interface),
    [closed] the atomic flag, [readers] the subscriber channels (a nil
    slice and an empty one behave alike and are both []). *)
Record Session : Type := mkSession {
  ID : string;
  PortName : string;
  ClientID : string;
  Exclusive : bool;
  Config : PortConfig;
  Statistics : PortStatistics;
  port : option handle;
  closed : bool;
  readers : list chan_id
}.

(** [Manager], with the part of the Go heap it points into: [heap] holds
    the [Session] objects and [chans] the subscriber channels.  The two
    indexes hold pointers. *)
Record Manager : Type := mkManager {
  heap : gmap loc Session;
  chans : gmap chan_id (Chan bytes);
  sessions : gmap string loc;
  sessionsByID : gmap string loc;
  allowSharedAccess : bool;
  defaultConfig : PortConfig
}.

Definition set_heap (h : gmap loc Session) (m : Manager) : Manager :=
  mkManager h (chans m) (sessions m) (sessionsByID m)
    (allowSharedAccess m) (defaultConfig m).
Definition set_chans (c : gmap chan_id (Chan bytes)) (m : Manager) : Manager :=
  mkManager (heap m) c (sessions m) (sessionsByID m)
    (allowSharedAccess m) (defaultConfig m).
Definition set_sessions (s : gmap string loc) (m : Manager) : Manager :=
  mkManager (heap m) (chans m) s (sessionsByID m)
    (allowSharedAccess m) (defaultConfig m).
Definition set_sessionsByID (s : gmap string loc) (m : Manager) : Manager :=
  mkManager (heap m) (chans m) (sessions m) s
    (allowSharedAccess m) (defaultConfig m).

Definition set_closed (b : bool) (s : Session) : Session :=
  mkSession (ID s) (PortName s) (ClientID s) (Exclusive s) (Config s)
    (Statistics s) (port s) b (readers s).
Definition set_readers (r : list chan_id) (s : Session) : Session :=
  mkSession (ID s) (PortName s) (ClientID s) (Exclusive s) (Config s)
    (Statistics s) (port s) (closed s) r.
Definition set_Config (c : PortConfig) (s : Session) : Session :=
  mkSession (ID s) (PortName s) (ClientID s) (Exclusive s) c
    (Statistics s) (port s) (closed s) (readers s).
Definition set_Statistics (st : PortStatistics) (s : Session) : Session :=
  mkSession (ID s) (PortName s) (ClientID s) (Exclusive s) (Config s)
    st (port s) (closed s) (readers s).

(** The zero value [Session{}]. *)
Definition zeroSession : Session :=
  mkSession "" "" "" false (mkPortConfig 0 0 0 0 0 0 0) (mkStats 0 0 0 0 0)
    None false [].

(** Dereferencing a session pointer.  Every pointer the manager holds is
    allocated (part of [wf] below, which every operation keeps), so the
    default is never taken. *)
Definition load (m : Manager) (l : loc) : Session :=
  default zeroSession (heap m !! l).
Definition store (l : loc) (s : Session) (m : Manager) : Manager :=
  set_heap (<[l := s]> (heap m)) m.

(** [NewManager] *)
Definition NewManager (allowShared : bool) (cfg : PortConfig) : Manager :=
  mkManager ∅ ∅ ∅ ∅ allowShared cfg.

(** What the outside world answers during one [OpenPort]: [serial.Open],
    [port.SetReadTimeout] (consulted only when the configured timeout is
    positive), [uuid.New().String()] and [time.Now()]. *)
Record OpenEnv : Type := mkOpenEnv {
  drv_open : result handle;
  drv_set_read_timeout : option error;
  new_uuid : string;
  clock : Z
}.

(** The collision check at the head of [OpenPort]. *)
Definition port_locked (m : Manager) (portName : string) (exclusive : bool) : bool :=
  match sessions m !! portName with
  | Some l => Exclusive (load m l) || exclusive || negb (allowSharedAccess m)
  | None => false
  end.

(** [Manager.OpenPort].  A new [Session] object is allocated at a location
    not in use. *)
Definition OpenPort (m : Manager) (portName : string) (config : PortConfig)
    (clientID : string) (exclusive : bool) (env : OpenEnv)
    : Manager * result loc :=
  match Validate config with
  | Some err => (m, Err err)
  | None =>
    if port_locked m portName exclusive then (m, Err ErrPortLocked)
    else
      match drv_open env with
      | Err err => (m, Err (Wrap "failed to open port %s: %w" err))
      | Ok h =>
        match (if 0 <? ReadTimeoutMs config then drv_set_read_timeout env else None) with
        | Some err => (m, Err (Wrap "failed to set read timeout: %w" err))
        | None =>
          let session :=
            {| ID := new_uuid env;
               PortName := portName;
               ClientID := clientID;
               Exclusive := exclusive;
               Config := config;
               Statistics := mkStats 0 0 0 (clock env) (clock env);
               port := Some h;
               closed := false;
               readers := [] |} in
          let l := fresh (dom (heap m)) in
          let m1 := store l session m in
          let m2 := set_sessions (<[portName := l]> (sessions m1)) m1 in
          let m3 := set_sessionsByID (<[ID session := l]> (sessionsByID m2)) m2 in
          (m3, Ok l)
        end
      end
  end.

(** The loop [for _, ch := range session.readers { close(ch) }]. *)
Definition close_all_chans {A : Type} (ids : list chan_id)
    (cs : gmap chan_id (Chan A)) : gmap chan_id (Chan A) :=
  foldl (fun acc ch => alter close_chan ch acc) cs ids.

(** [Manager.closeSessionLocked]; [drv_close] is what [port.Close()]
    returns. *)
Definition closeSessionLocked (m : Manager) (l : loc) (drv_close : option error)
    : Manager * option error :=
  let session := load m l in
  let m1 := store l (set_closed true (load m l)) m in
  let m2 := set_chans (close_all_chans (readers session) (chans m1)) m1 in
  let m3 := store l (set_readers [] (load m2 l)) m2 in
  let err := match port session with
             | Some _ => drv_close
             | None => None
             end in
  let m4 := set_sessions (delete (PortName session) (sessions m3)) m3 in
  let m5 := set_sessionsByID (delete (ID session) (sessionsByID m4)) m4 in
  (m5, err).

(** [Manager.ClosePort] *)
Definition ClosePort (m : Manager) (portName sessionID : string)
    (drv_close : option error) : Manager * option error :=
  match sessions m !! portName with
  | None => (m, Some ErrPortNotOpen)
  | Some l =>
    if decide (ID (load m l) = sessionID)
    then closeSessionLocked m l drv_close
    else (m, Some ErrInvalidSession)
  end.

(** [Manager.GetSession], [Manager.GetSessionByID] ([None] is nil). *)
Definition GetSession (m : Manager) (portName : string) : option loc :=
  sessions m !! portName.
Definition GetSessionByID (m : Manager) (sessionID : string) : option loc :=
  sessionsByID m !! sessionID.

(** [Manager.ValidateSession] *)
Definition ValidateSession (m : Manager) (portName sessionID : string)
    : result loc :=
  match sessions m !! portName with
  | None => Err ErrPortNotOpen
  | Some l =>
    if decide (ID (load m l) = sessionID) then
      if closed (load m l) then Err ErrPortClosed else Ok l
    else Err ErrInvalidSession
  end.

(** [Manager.Write]; [drv_write] is what [session.port.Write(data)]
    returns and [now] the clock. *)
Definition Write (m : Manager) (portName sessionID : string) (data : bytes)
    (drv_write : Z * option error) (now : Z) : Manager * (Z * option error) :=
  match ValidateSession m portName sessionID with
  | Err err => (m, (0, Some err))
  | Ok l =>
    let session := load m l in
    let st := Statistics session in
    let n := drv_write.1 in
    match drv_write.2 with
    | Some err =>
      let st' := mkStats (BytesSent st) (BytesReceived st)
                   (AddUint64 (Errors st) 1) (OpenedAt st) (LastActivity st) in
      (store l (set_Statistics st' session) m, (n, Some (Wrap "write failed: %w" err)))
    | None =>
      let st' := mkStats (AddUint64 (BytesSent st) (uint64 n)) (BytesReceived st)
                   (Errors st) (OpenedAt st) now in
      (store l (set_Statistics st' session) m, (n, None))
    end
  end.

(** The broadcast loop of [Read]: a non-blocking send to every reader. *)
Definition send_all {A : Type} (v : A) (ids : list chan_id)
    (cs : gmap chan_id (Chan A)) : gmap chan_id (Chan A) :=
  foldl (fun acc ch => alter (try_send v) ch acc) cs ids.

(** [Manager.Read].  The driver fills a buffer of [maxBytes] bytes:
    [drv_read] is the bytes it delivered (kept to the buffer's length) and
    its error.  (For a negative [maxBytes] the [make] of the source
    panics; the callers in the repository pass a positive size.) *)
Definition Read (m : Manager) (portName sessionID : string) (maxBytes : Z)
    (drv_read : bytes * option error) (now : Z) : Manager * result bytes :=
  match ValidateSession m portName sessionID with
  | Err err => (m, Err err)
  | Ok l =>
    let session := load m l in
    let st := Statistics session in
    match drv_read.2 with
    | Some err =>
      let st' := mkStats (BytesSent st) (BytesReceived st)
                   (AddUint64 (Errors st) 1) (OpenedAt st) (LastActivity st) in
      (store l (set_Statistics st' session) m, Err (Wrap "read failed: %w" err))
    | None =>
      let data := take (Z.to_nat maxBytes) drv_read.1 in
      let n := Z.of_nat (length data) in
      let st' := mkStats (BytesSent st) (AddUint64 (BytesReceived st) (uint64 n))
                   (Errors st) (OpenedAt st) now in
      let m1 := store l (set_Statistics st' session) m in
      let m2 := if 0 <? n
                then set_chans (send_all data (readers session) (chans m1)) m1
                else m1 in
      (m2, Ok data)
    end
  end.

(** [Manager.Configure]; the driver answers [SetMode] and, for a positive
    timeout, [SetReadTimeout]. *)
Definition Configure (m : Manager) (portName sessionID : string)
    (config : PortConfig) (drv_set_mode drv_set_timeout : option error)
    : Manager * option error :=
  match ValidateSession m portName sessionID with
  | Err err => (m, Some err)
  | Ok l =>
    match Validate config with
    | Some err => (m, Some err)
    | None =>
      match drv_set_mode with
      | Some err => (m, Some (Wrap "failed to configure port: %w" err))
      | None =>
        match (if 0 <? ReadTimeoutMs config then drv_set_timeout else None) with
        | Some err => (m, Some (Wrap "failed to set read timeout: %w" err))
        | None => (store l (set_Config config (load m l)) m, None)
        end
      end
    end
  end.

(** [Manager.GetStatus] *)
Definition GetStatus (m : Manager) (portName : string) : result loc :=
  match sessions m !! portName with
  | None => Err ErrPortNotOpen
  | Some l => Ok l
  end.

(** [Manager.ListOpenPorts] (Go leaves the order of a map range open). *)
Definition ListOpenPorts (m : Manager) : list string :=
  (map_to_list (sessions m)).*1.

(** [Manager.CloseAll].  The range runs over the entries of [m.sessions];
    an entry deleted before the range reaches it is not produced, which
    the test on the current map renders.  The closing errors are
    discarded. *)
Definition CloseAll (m : Manager) : Manager :=
  foldl (fun acc (kv : string * loc) =>
           if decide (sessions acc !! kv.1 = Some kv.2)
           then (closeSessionLocked acc kv.2 None).1
           else acc)
        m (map_to_list (sessions m)).

(** [Manager.SubscribeToReads]: a channel of capacity 100 is made and
    appended to the session's readers. *)
Definition SubscribeToReads (m : Manager) (portName sessionID : string)
    : Manager * result chan_id :=
  match ValidateSession m portName sessionID with
  | Err err => (m, Err err)
  | Ok l =>
    let ch := fresh (dom (chans m)) in
    let m1 := set_chans (<[ch := make_chan 100]> (chans m)) m in
    (store l (set_readers (readers (load m1 l) ++ [ch]) (load m1 l)) m1, Ok ch)
  end.

(** The search loop of the two [Unsubscribe] functions: the position of
    the first subscriber that is the given channel. *)
Fixpoint index_of (ch : chan_id) (l : list chan_id) : option nat :=
  match l with
  | [] => None
  | x :: rest => if decide (x = ch) then Some 0%nat else S <$> index_of ch rest
  end.

(** [Manager.UnsubscribeFromReads] *)
Definition UnsubscribeFromReads (m : Manager) (portName sessionID : string)
    (ch : chan_id) : Manager * option error :=
  match ValidateSession m portName sessionID with
  | Err err => (m, Some err)
  | Ok l =>
    match index_of ch (readers (load m l)) with
    | Some i =>
      let m1 := set_chans (alter close_chan ch (chans m)) m in
      (store l (set_readers (delete i (readers (load m1 l))) (load m1 l)) m1, None)
    | None => (m, None)
    end
  end.

(** [Manager.Flush]: no manager state is touched; the first driver error
    aborts. *)
Definition Flush (m : Manager) (portName sessionID : string)
    (drv_reset_in drv_reset_out : option error) : option error :=
  match ValidateSession m portName sessionID with
  | Err err => Some err
  | Ok _ =>
    match drv_reset_in with
    | Some err => Some (Wrap "failed to reset input buffer: %w" err)
    | None =>
      match drv_reset_out with
      | Some err => Some (Wrap "failed to reset output buffer: %w" err)
      | None => None
      end
    end
  end.

(** [Manager.GetDefaultConfig] *)
Definition GetDefaultConfig (m : Manager) : PortConfig := defaultConfig m.

(** *** Sequences of calls *)

(** One call of a state-changing method, with the answers of the outside
    world. *)
Inductive call : Type :=
  | CallOpenPort (portName : string) (config : PortConfig) (clientID : string)
      (exclusive : bool) (env : OpenEnv)
  | CallClosePort (portName sessionID : string) (drv_close : option error)
  | CallCloseAll
  | CallWrite (portName sessionID : string) (data : bytes)
      (drv_write : Z * option error) (now : Z)
  | CallRead (portName sessionID : string) (maxBytes : Z)
      (drv_read : bytes * option error) (now : Z)
  | CallConfigure (portName sessionID : string) (config : PortConfig)
      (drv_set_mode drv_set_timeout : option error)
  | CallSubscribeToReads (portName sessionID : string)
  | CallUnsubscribeFromReads (portName sessionID : string) (ch : chan_id)
  | CallFlush (portName sessionID : string) (drv_reset_in drv_reset_out : option error).

Definition step (m : Manager) (c : call) : Manager :=
  match c with
  | CallOpenPort n cfg cl ex env => (OpenPort m n cfg cl ex env).1
  | CallClosePort n id d => (ClosePort m n id d).1
  | CallCloseAll => CloseAll m
  | CallWrite n id data d now => (Write m n id data d now).1
  | CallRead n id mx d now => (Read m n id mx d now).1
  | CallConfigure n id cfg d1 d2 => (Configure m n id cfg d1 d2).1
  | CallSubscribeToReads n id => (SubscribeToReads m n id).1
  | CallUnsubscribeFromReads n id ch => (UnsubscribeFromReads m n id ch).1
  | CallFlush _ _ _ _ => m
  end.

Definition run (m : Manager) (cs : list call) : Manager := foldl step m cs.

End Manager.
Export Manager.

(** ** Regular expressions ([regexp.MatchString]) *)

Module Regexp.

(** The fragment of Go's regular expressions that the scanner's patterns
    use.  Strings are byte strings: every pattern below starts and ends with
    ASCII literals and [.] only excludes the ASCII line feed, so matching
    by bytes agrees with Go's matching by UTF-8 runes. *)
Inductive re : Type :=
  | Void
  | Eps
  | Class (p : ascii -> bool)
  | Cat (r s : re)
  | Alt (r s : re)
  | Star (r : re).

Fixpoint nullable (r : re) : bool :=
  match r with
  | Void => false
  | Eps => true
  | Class _ => false
  | Cat r s => nullable r && nullable s
  | Alt r s => nullable r || nullable s
  | Star _ => true
  end.

(** Brzozowski derivative: what remains to be matched after [c]. *)
Fixpoint deriv (c : ascii) (r : re) : re :=
  match r with
  | Void => Void
  | Eps => Void
  | Class p => if p c then Eps else Void
  | Cat r s =>
      if nullable r then Alt (Cat (deriv c r) s) (deriv c s)
      else Cat (deriv c r) s
  | Alt r s => Alt (deriv c r) (deriv c s)
  | Star r => Cat (deriv c r) (Star r)
  end.

(** The whole input matches [r]. *)
Fixpoint accepts (r : re) (s : list ascii) : bool :=
  match s with
  | [] => nullable r
  | c :: s' => accepts (deriv c r) s'
  end.

(** A literal character, and the same under the flag [(?i)]. *)
Definition lower (c : ascii) : ascii :=
  let n := nat_of_ascii c in
  if ((65 <=? n) && (n <=? 90))%nat then ascii_of_nat (n + 32) else c.
Definition chr (c : ascii) : re := Class (Ascii.eqb c).
Definition chr_i (c : ascii) : re := Class (fun x => Ascii.eqb (lower x) (lower c)).

(** [.] (any character but a line feed) and the character that an
    unanchored search may skip (any one). *)
Definition dot : re := Class (fun x => negb (Ascii.eqb x "010"%char)).
Definition any : re := Class (fun _ => true).

(** A literal string, plain and under [(?i)]. *)
Fixpoint lit (w : list ascii) : re :=
  match w with
  | [] => Eps
  | c :: w' => Cat (chr c) (lit w')
  end.
Fixpoint lit_i (w : list ascii) : re :=
  match w with
  | [] => Eps
  | c :: w' => Cat (chr_i c) (lit_i w')
  end.
Definition str (w : string) : re := lit (list_ascii_of_string w).
Definition str_i (w : string) : re := lit_i (list_ascii_of_string w).

(** [regexp.MatchString(pattern, s)]: the pattern matches somewhere in
    [s]. *)
Definition MatchString (pattern : re) (s : string) : bool :=
  accepts (Cat (Star any) (Cat pattern (Star any))) (list_ascii_of_string s).

(** The language of a regular expression. *)
Inductive matches : re -> list ascii -> Prop :=
  | m_eps : matches Eps []
  | m_class p c : p c = true -> matches (Class p) [c]
  | m_cat r s u v : matches r u -> matches s v -> matches (Cat r s) (u ++ v)
  | m_alt_l r s u : matches r u -> matches (Alt r s) u
  | m_alt_r r s u : matches s u -> matches (Alt r s) u
  | m_star_nil r : matches (Star r) []
  | m_star_cons r u v : matches r u -> matches (Star r) v -> matches (Star r) (u ++ v).

(** [w] occurs in [s]. *)
Definition occurs (w s : list ascii) : Prop :=
  exists pre post : list ascii, s = pre ++ w ++ post.

(** [w] occurs in [s] up to the case of ASCII letters. *)
Definition occurs_i (w s : list ascii) : Prop :=
  exists pre mid post : list ascii,
    s = pre ++ mid ++ post /\ lower <$> mid = lower <$> w.

End Regexp.
Export Regexp.

(** ** The scanner ([internal/serial/scanner.go]) *)

Module Scanner.

Inductive PortType : Type :=
  | PortTypeUnknown
  | PortTypeUSB
  | PortTypeNative
  | PortTypeBluetooth
  | PortTypeVirtual.

#[global] Instance PortType_eq_dec : EqDecision PortType.
Proof. solve_decision. Defined.

(** [enumerator.PortDetails] of the driver library. *)
Record PortDetails : Type := mkPortDetails {
  Name : string;
  IsUSB : bool;
  VID : string;
  PID : string;
  SerialNumber : string;
  Product : string
}.

(** The four patterns of [detectPortType], in the order of the source:
    [(?i)bluetooth|bth], [/dev/rfcomm], [/dev/.*Bluetooth] and
    [/dev/pts/|/dev/pty]. *)
Definition pat_windows_bluetooth : re := Alt (str_i "bluetooth") (str_i "bth").
Definition pat_linux_bluetooth : re := str "/dev/rfcomm".
Definition pat_darwin_bluetooth : re :=
  Cat (str "/dev/") (Cat (Star dot) (str "Bluetooth")).
Definition pat_linux_virtual : re := Alt (str "/dev/pts/") (str "/dev/pty").

(** [Scanner.detectPortType]; [GOOS] is [runtime.GOOS]. *)
Definition detectPortType (GOOS : string) (port : PortDetails) : PortType :=
  if IsUSB port then PortTypeUSB
  else
    if (if String.eqb GOOS "windows" then MatchString pat_windows_bluetooth (Name port)
        else if String.eqb GOOS "linux" then MatchString pat_linux_bluetooth (Name port)
        else if String.eqb GOOS "darwin" then MatchString pat_darwin_bluetooth (Name port)
        else false)
    then PortTypeBluetooth
    else if String.eqb GOOS "linux" && MatchString pat_linux_virtual (Name port)
    then PortTypeVirtual
    else PortTypeNative.

(** [Scanner.buildDescription] *)
Definition buildDescription (port : PortDetails) : string :=
  if negb (String.eqb (Product port) "") then Product port
  else if IsUSB port then "USB Serial Device"
  else "Serial Port".

(** The names that the patterns describe, said without regular
    expressions.  A Bluetooth name: on Windows it contains "bluetooth" or
    "bth" in any case; on Linux it contains "/dev/rfcomm"; on macOS it
    contains "/dev/" and, later on the same line, "Bluetooth". *)
Definition chars (s : string) : list ascii := list_ascii_of_string s.

Definition bluetooth_name (GOOS name : string) : Prop :=
  (GOOS = "windows" /\
     (occurs_i (chars "bluetooth") (chars name) \/ occurs_i (chars "bth") (chars name))) \/
  (GOOS = "linux" /\ occurs (chars "/dev/rfcomm") (chars name)) \/
  (GOOS = "darwin" /\
     exists pre mid post : list ascii,
       chars name = pre ++ chars "/dev/" ++ mid ++ chars "Bluetooth" ++ post /\
       "010"%char ∉ mid).

(** A virtual name: on Linux, one that contains "/dev/pts/" or
    "/dev/pty". *)
Definition virtual_name (GOOS name : string) : Prop :=
  GOOS = "linux" /\
  (occurs (chars "/dev/pts/") (chars name) \/ occurs (chars "/dev/pty") (chars name)).

End Scanner.
Export Scanner.

(** ** The streaming reader ([internal/serial/reader.go]) *)

Module Reader.

(** [uint32] arithmetic of the sequence counter. *)
Definition AddUint32 (x delta : Z) : Z := (x + delta) mod 2 ^ 32.

Record DataEvent : Type := mkDataEvent {
  Data : bytes;
  Timestamp : Z;
  Sequence : Z;
  Error : option error
}.

(** [Reader].  [stopClosed] tells whether the channel that the field
    [stopChan] currently holds has been closed ([Start] stores a new
    channel there).  [subs] is the store of the subscriber channels and
    [spawned] counts the [go r.readLoop(ctx)] statements executed. *)
Record Reader : Type := mkReader {
  portName : string;
  sessionID : string;
  bufferSize : Z;
  running : bool;
  stopClosed : bool;
  subscribers : list chan_id;
  subs : gmap chan_id (Chan DataEvent);
  spawned : nat
}.

(** [NewReader] *)
Definition NewReader (portName sessionID : string) (bufferSize : Z) : Reader :=
  mkReader portName sessionID (if bufferSize <=? 0 then 1024 else bufferSize)
    false false [] ∅ 0.

(** [Reader.Start] *)
Definition Start (r : Reader) (m : Manager) : Reader * option error :=
  if running r then (r, None)
  else
    match ValidateSession m (portName r) (sessionID r) with
    | Err err => (r, Some err)
    | Ok _ =>
      (mkReader (portName r) (sessionID r) (bufferSize r) true false
         (subscribers r) (subs r) (S (spawned r)), None)
    end.

(** [Reader.Stop] *)
Definition Stop (r : Reader) : Reader :=
  if negb (running r) then r
  else
    mkReader (portName r) (sessionID r) (bufferSize r) false true
      [] (close_all_chans (subscribers r) (subs r)) (spawned r).

(** [Reader.Subscribe] *)
Definition Subscribe (r : Reader) : Reader * chan_id :=
  let ch := fresh (dom (subs r)) in
  (mkReader (portName r) (sessionID r) (bufferSize r) (running r) (stopClosed r)
     (subscribers r ++ [ch]) (<[ch := make_chan 100]> (subs r)) (spawned r),
   ch).

(** [Reader.Unsubscribe] *)
Definition Unsubscribe (r : Reader) (ch : chan_id) : Reader :=
  match index_of ch (subscribers r) with
  | Some i =>
    mkReader (portName r) (sessionID r) (bufferSize r) (running r) (stopClosed r)
      (delete i (subscribers r)) (alter close_chan ch (subs r)) (spawned r)
  | None => r
  end.

(** [Reader.SubscriberCount], [Reader.IsRunning] *)
Definition SubscriberCount (r : Reader) : nat := length (subscribers r).
Definition IsRunning (r : Reader) : bool := running r.

(** [Reader.broadcast] *)
Definition broadcast (r : Reader) (event : DataEvent) : Reader :=
  mkReader (portName r) (sessionID r) (bufferSize r) (running r) (stopClosed r)
    (subscribers r) (send_all event (subscribers r) (subs r)) (spawned r).

(** *** The read loop

    [readLoop] runs on a task of its own, so it is given as the steps it
    takes between two points where other tasks may run: from the loop
    condition to the return of [manager.Read] ([loop_read]), and from there
    back to the loop condition ([loop_publish]; [broadcast] holds the
    subscriber lock throughout). *)

(** Where the loop stands: at the loop condition, holding the outcome of
    [manager.Read], or returned. *)
Inductive loop_pc : Type :=
  | AtLoopHead
  | AfterRead (res : result bytes)
  | Returned.

(** The loop's frame: the local [sequence] and the position. *)
Record Loop : Type := mkLoop {
  sequence : Z;
  pc : loop_pc
}.

(** The frame of a loop that has just been spawned: [var sequence uint32]. *)
Definition loop_start : Loop := mkLoop 0 AtLoopHead.

(** The scheduler's answers to one [select]: whether [ctx.Done()] is ready
    and, when both it and the stop channel are, which case runs. *)
Record SelectEnv : Type := mkSelectEnv {
  ctx_done : bool;
  prefer_ctx : bool
}.

(** From the loop condition through [manager.Read]. *)
Definition loop_read (r : Reader) (m : Manager) (lp : Loop) (sel : SelectEnv)
    (drv_read : bytes * option error) (now : Z) : Reader * Manager * Loop :=
  if negb (running r) then (r, m, mkLoop (sequence lp) Returned)
  else if ctx_done sel && (negb (stopClosed r) || prefer_ctx sel)
  then (Stop r, m, mkLoop (sequence lp) Returned)
  else if stopClosed r then (r, m, mkLoop (sequence lp) Returned)
  else
    let '(m', res) := Read m (portName r) (sessionID r) (bufferSize r) drv_read now in
    (r, m', mkLoop (sequence lp) (AfterRead res)).

(** The event that the loop builds from the outcome of a read. *)
Definition make_event (res : result bytes) (now seq : Z) : DataEvent :=
  match res with
  | Ok data => mkDataEvent data now seq None
  | Err err => mkDataEvent [] now seq (Some err)
  end.

(** [err == nil && len(data) == 0] *)
Definition no_data (res : result bytes) : bool :=
  match res with
  | Ok [] => true
  | _ => false
  end.

(** [err == ErrPortClosed || err == ErrInvalidSession] *)
Definition fatal (res : result bytes) : bool :=
  match res with
  | Err err => bool_decide (err = ErrPortClosed) || bool_decide (err = ErrInvalidSession)
  | Ok _ => false
  end.

(** From the return of [manager.Read] back to the loop condition.  The
    second component is the event handed to [broadcast], if any. *)
Definition loop_publish (r : Reader) (lp : Loop) (res : result bytes) (now : Z)
    : Reader * Loop * option DataEvent :=
  if no_data res then (r, mkLoop (sequence lp) AtLoopHead, None)
  else
    let seq := AddUint32 (sequence lp) 1 in
    let event := make_event res now seq in
    let r1 := broadcast r event in
    if fatal res then (Stop r1, mkLoop seq Returned, Some event)
    else (r1, mkLoop seq AtLoopHead, Some event).

(** One step of the loop. *)
Definition loop_step (r : Reader) (m : Manager) (lp : Loop) (sel : SelectEnv)
    (drv_read : bytes * option error) (now : Z)
    : Reader * Manager * Loop * option DataEvent :=
  match pc lp with
  | AtLoopHead => (loop_read r m lp sel drv_read now, None)
  | AfterRead res =>
    let '(r', lp', ev) := loop_publish r lp res now in (r', m, lp', ev)
  | Returned => (r, m, lp, None)
  end.

(** *** One run of the read loop among the other tasks *)

(** A reader, the manager it reads from, and the frame of its read loop. *)
Record System : Type := mkSystem {
  sys_reader : Reader;
  sys_manager : Manager;
  sys_loop : Loop
}.

(** What may happen next: the read loop takes a step; a client subscribes,
    unsubscribes or stops the reader; a subscriber takes the next event off
    its channel; some task calls the manager. *)
Inductive action : Type :=
  | ActLoop (sel : SelectEnv) (drv_read : bytes * option error) (now : Z)
  | ActSubscribe
  | ActUnsubscribe (ch : chan_id)
  | ActStop
  | ActReceive (ch : chan_id)
  | ActManager (c : call).

(** What a step shows: an event handed to [broadcast], or an event that
    the subscriber holding [ch] received. *)
Inductive observation : Type :=
  | Broadcast (e : DataEvent)
  | Received (ch : chan_id) (e : DataEvent).

(** [<-ch] by the subscriber holding [ch]: the oldest queued event is
    taken; nothing happens when the receive would block or the channel is
    closed and drained. *)
Definition receive (r : Reader) (ch : chan_id) : Reader * option DataEvent :=
  match subs r !! ch with
  | Some c =>
    match try_recv c with
    | Some (Value e, c') =>
      (mkReader (portName r) (sessionID r) (bufferSize r) (running r)
         (stopClosed r) (subscribers r) (<[ch := c']> (subs r)) (spawned r),
       Some e)
    | _ => (r, None)
    end
  | None => (r, None)
  end.

Definition sys_step (s : System) (a : action) : System * list observation :=
  match a with
  | ActLoop sel drv now =>
    let '(r, m, lp, ev) :=
      loop_step (sys_reader s) (sys_manager s) (sys_loop s) sel drv now in
    (mkSystem r m lp, match ev with Some e => [Broadcast e] | None => [] end)
  | ActSubscribe =>
    (mkSystem (Subscribe (sys_reader s)).1 (sys_manager s) (sys_loop s), [])
  | ActUnsubscribe ch =>
    (mkSystem (Unsubscribe (sys_reader s) ch) (sys_manager s) (sys_loop s), [])
  | ActStop =>
    (mkSystem (Stop (sys_reader s)) (sys_manager s) (sys_loop s), [])
  | ActReceive ch =>
    let '(r, ev) := receive (sys_reader s) ch in
    (mkSystem r (sys_manager s) (sys_loop s),
     match ev with Some e => [Received ch e] | None => [] end)
  | ActManager c =>
    (mkSystem (sys_reader s) (step (sys_manager s) c) (sys_loop s), [])
  end.

(** A schedule run from a state: the final state and everything shown on
    the way, in order. *)
Fixpoint sys_run (s : System) (acts : list action) : System * list observation :=
  match acts with
  | [] => (s, [])
  | a :: rest =>
    let '(s1, o1) := sys_step s a in
    let '(s2, o2) := sys_run s1 rest in
    (s2, o1 ++ o2)
  end.

(** The events handed to [broadcast], and those one subscriber received. *)
Definition broadcasts (obs : list observation) : list DataEvent :=
  omap (fun o => match o with Broadcast e => Some e | _ => None end) obs.
Definition received_on (ch : chan_id) (obs : list observation) : list DataEvent :=
  omap (fun o => match o with
                 | Received ch' e => if decide (ch' = ch) then Some e else None
                 | _ => None
                 end) obs.

(** The state in which [Start] leaves a new reader and its fresh loop. *)
Definition started (r : Reader) (m : Manager) : System :=
  mkSystem (Start r m).1 m loop_start.

(** The sequence numbers 1, 2, ..., [n] as a [uint32] counter produces
    them from [from]. *)
Definition seq_from (from : Z) (n : nat) : list Z :=
  (fun i => AddUint32 from (Z.of_nat i)) <$> seq 1 n.

(** The events waiting in the channel [ch] (none when no such channel
    exists). *)
Definition queued (r : Reader) (ch : chan_id) : list DataEvent :=
  match subs r !! ch with
  | Some c => ch_buf c
  | None => []
  end.

(** What holds of every reader: no channel is listed twice as a
    subscriber, every listed channel exists, and a listed channel is
    open. *)
Definition reader_wf (r : Reader) : Prop :=
  NoDup (subscribers r) /\
  (forall ch, ch ∈ subscribers r ->
     exists c, subs r !! ch = Some c /\ ch_closed c = false).

End Reader.
Export Reader.

(** ** Reads with a timeout ([internal/serial/types.go]) *)

Module TimedRead.

(** [time.Duration] is an [int64] count of nanoseconds. *)
Definition int64 (x : Z) : Z := (x + 2 ^ 63) mod 2 ^ 64 - 2 ^ 63.
Definition Millisecond : Z := 1000000.
Definition Duration_mul (a b : Z) : Z := int64 (a * b).

(** How the race of [ReadWithTimeout] goes: after how many nanoseconds the
    task running [m.Read] puts its result on [resultChan] ([None]: it
    never does), and which case the [select] takes should the result and
    the timer become ready together. *)
Record RaceEnv : Type := mkRaceEnv {
  read_done_after : option Z;
  tie_takes_result : bool
}.

(** [ReadWithTimeout]: the result of [m.Read] when it arrives before the
    timer [time.After(timeout)] fires, [ErrReadTimeout] otherwise.  A read
    that returns late still has its effect on the manager. *)
Definition ReadWithTimeout (m : Manager) (portName sessionID : string)
    (maxBytes : Z) (timeout : Z) (drv_read : bytes * option error) (now : Z)
    (race : RaceEnv) : Manager * result bytes :=
  match read_done_after race with
  | None => (m, Err ErrReadTimeout)
  | Some t =>
    let '(m', res) := Read m portName sessionID maxBytes drv_read now in
    if (t <? timeout) || ((t =? timeout) && tie_takes_result race)
    then (m', res)
    else (m', Err ErrReadTimeout)
  end.

End TimedRead.
Export TimedRead.

(** ** The service facade ([api/server.go]) *)

Module Api.

(** gRPC status codes used by the handlers. *)
Inductive code : Type :=
  | InvalidArgument
  | NotFound
  | Internal.

(** A handler returns a response message or a status error
    ([status.Errorf(code, format, err)]). *)
Inductive rpc (A : Type) : Type :=
  | Reply (a : A)
  | Status (c : code) (format : string) (cause : option error).
Arguments Reply {A} a.
Arguments Status {A} c format cause.

(** [err.Error()] for the sentinels of [errors.go]; a wrapped error shows
    its format with [%w] still to be filled in by the text of the cause,
    and a driver error its own text. *)
Fixpoint Error_text (e : error) : list string :=
  match e with
  | ErrNotOpen => ["serial port is not open"]
  | ErrPortNotFound => ["port not found"]
  | ErrPortAlreadyOpen => ["port is already open"]
  | ErrPortNotOpen => ["port is not open"]
  | ErrPortLocked => ["port is locked by another client"]
  | ErrInvalidSession => ["invalid session ID"]
  | ErrInvalidConfig => ["invalid port configuration"]
  | ErrWriteTimeout => ["write timeout"]
  | ErrReadTimeout => ["read timeout"]
  | ErrPortClosed => ["port has been closed"]
  | DriverError msg => [msg]
  | Wrap format cause => format :: Error_text cause
  end.

(** [SerialServer]: the manager and the table of active readers by port
    name. *)
Record SerialServer : Type := mkServer {
  manager : Manager;
  srv_readers : gmap string Reader
}.

(** [pb.ReadRequest]; [MaxBytes] and [TimeoutMs] are [uint32]. *)
Record ReadRequest : Type := mkReadRequest {
  rd_PortName : string;
  rd_SessionId : string;
  rd_MaxBytes : Z;
  rd_TimeoutMs : Z
}.

(** [pb.ReadResponse] *)
Record ReadResponse : Type := mkReadResponse {
  rd_Success : bool;
  rd_Data : bytes;
  rd_BytesRead : Z;
  rd_Message : list string
}.

(** The duration that [SerialServer.Read] hands to [ReadWithTimeout]:
    [time.Duration(req.TimeoutMs) * time.Millisecond]. *)
Definition read_timer (timeoutMs : Z) : Z := Duration_mul timeoutMs Millisecond.

(** The response that [SerialServer.Read] builds from the outcome of the
    read. *)
Definition read_reply (res : result bytes) : rpc ReadResponse :=
  match res with
  | Err err => Reply (mkReadResponse false [] 0 (Error_text err))
  | Ok data =>
    Reply (mkReadResponse true data (Z.of_nat (length data) mod 2 ^ 32)
             ["data read successfully"])
  end.

(** [SerialServer.Read] *)
Definition Read (s : SerialServer) (req : ReadRequest)
    (drv_read : bytes * option error) (now : Z) (race : RaceEnv)
    : SerialServer * rpc ReadResponse :=
  if String.eqb (rd_PortName req) "" then
    (s, Status InvalidArgument "port_name is required" None)
  else if String.eqb (rd_SessionId req) "" then
    (s, Status InvalidArgument "session_id is required" None)
  else
    let maxBytes := if rd_MaxBytes req <=? 0 then 1024 else rd_MaxBytes req in
    let '(m', res) :=
      if 0 <? rd_TimeoutMs req then
        ReadWithTimeout (manager s) (rd_PortName req) (rd_SessionId req) maxBytes
          (read_timer (rd_TimeoutMs req)) drv_read now race
      else
        Manager.Read (manager s) (rd_PortName req) (rd_SessionId req) maxBytes
          drv_read now in
    (mkServer m' (srv_readers s), read_reply res).

(** [pb.ClosePortRequest] and [pb.ClosePortResponse] *)
Record ClosePortRequest : Type := mkCloseRequest {
  cl_PortName : string;
  cl_SessionId : string
}.
Record ClosePortResponse : Type := mkCloseResponse {
  cl_Success : bool;
  cl_Message : string
}.

(** [SerialServer.ClosePort]: any reader registered for the port is
    stopped and dropped from the table before the manager is asked to
    close.  (The stopped reader lives on only in the task that streams
    from it; the table is all that the facade keeps.) *)
Definition ClosePort (s : SerialServer) (req : ClosePortRequest)
    (drv_close : option error) : SerialServer * rpc ClosePortResponse :=
  if String.eqb (cl_PortName req) "" then
    (s, Status InvalidArgument "port_name is required" None)
  else if String.eqb (cl_SessionId req) "" then
    (s, Status InvalidArgument "session_id is required" None)
  else
    let rs := match srv_readers s !! cl_PortName req with
              | Some reader => delete (cl_PortName req) (srv_readers s)
              | None => srv_readers s
              end in
    let '(m', err) :=
      Manager.ClosePort (manager s) (cl_PortName req) (cl_SessionId req) drv_close in
    let s' := mkServer m' rs in
    match err with
    | Some e =>
      if decide (e = ErrInvalidSession)
      then (s', Reply (mkCloseResponse false "invalid session ID"))
      else (s', Status Internal "failed to close port: %v" (Some e))
    | None => (s', Reply (mkCloseResponse true "port closed successfully"))
    end.

End Api.

(** ** The command-line client ([cmd/read.go]) *)

Module Cmd.

(** The deadline that [runRead] puts on its request:
    [time.Duration(timeout+2000)*time.Millisecond], the sum being taken in
    [uint32]. *)
Definition read_deadline (timeout : Z) : Z :=
  Duration_mul (AddUint32 timeout 2000) Millisecond.

End Cmd.

(** ** Invariants of the manager *)

Module Invariants.

(** The states that calls can produce from a new manager. *)
Definition reachable (m : Manager) : Prop :=
  exists (allow : bool) (cfg : PortConfig) (cs : list call),
    m = run (NewManager allow cfg) cs.

(** Every pointer in an index is allocated, the session under a port name
    carries that name, the session under an id carries that id, every
    subscriber channel of a session exists, and every session holds a
    driver handle. *)
Definition wf (m : Manager) : Prop :=
  (forall (name : string) (l : loc), sessions m !! name = Some l ->
     exists s, heap m !! l = Some s /\ PortName s = name) /\
  (forall (id : string) (l : loc), sessionsByID m !! id = Some l ->
     exists s, heap m !! l = Some s /\ ID s = id) /\
  (forall (l : loc) (s : Session) (ch : chan_id),
     heap m !! l = Some s -> ch ∈ readers s -> is_Some (chans m !! ch)) /\
  (forall (l : loc) (s : Session), heap m !! l = Some s -> is_Some (port s)).

(** The two indexes agree: an id is a key of [sessionsByID] exactly when
    the entry of [sessions] for that session's port name is the same
    object, and the other way round. *)
Definition indexes_agree (m : Manager) : Prop :=
  (forall (id : string) (l : loc), sessionsByID m !! id = Some l ->
     ID (load m l) = id /\ sessions m !! PortName (load m l) = Some l) /\
  (forall (name : string) (l : loc), sessions m !! name = Some l ->
     PortName (load m l) = name /\ sessionsByID m !! ID (load m l) = Some l).

(** The counter [Statistics.BytesSent] and [Statistics.Errors] of the
    session object at [l] (0 before the object exists). *)
Definition sent (m : Manager) (l : loc) : Z := BytesSent (Statistics (load m l)).
Definition errs (m : Manager) (l : loc) : Z := Errors (Statistics (load m l)).

(** The byte count of a call, when the call is a [Write] that passes the
    session check for the session object [l] and whose driver write
    returns no error. *)
Definition write_count (l : loc) (m : Manager) (c : call) : option Z :=
  match c with
  | CallWrite name id _ (n, None) _ =>
    match ValidateSession m name id with
    | Ok l' => if decide (l' = l) then Some n else None
    | Err _ => None
    end
  | _ => None
  end.

(** The byte counts of the successful writes to [l] in a sequence of
    calls that starts in [m], in order. *)
Fixpoint write_counts (l : loc) (m : Manager) (cs : list call) : list Z :=
  match cs with
  | [] => []
  | c :: rest =>
    match write_count l m c with
    | Some n => n :: write_counts l (step m c) rest
    | None => write_counts l (step m c) rest
    end
  end.

Definition sum (ns : list Z) : Z := foldr Z.add 0 ns.

(** Every [OpenPort] of the sequence draws an id that is not a key of
    [sessionsByID] at that moment (what [uuid.New] provides). *)
Fixpoint fresh_ids (m : Manager) (cs : list call) : Prop :=
  match cs with
  | [] => True
  | c :: rest =>
    match c with
    | CallOpenPort _ _ _ _ env => sessionsByID m !! new_uuid env = None
    | _ => True
    end /\ fresh_ids (step m c) rest
  end.

End Invariants.
Export Invariants.

(** ** Inputs of the worked examples *)

Module Scenario.

(** Two clients open COM3 without asking for exclusive access on a manager
    that allows shared access; the driver opens the port both times. *)
Definition env_a : OpenEnv := mkOpenEnv (Ok 1%nat) None "SA" 0.
Definition env_b : OpenEnv := mkOpenEnv (Ok 2%nat) None "SB" 5.
Definition m0 : Manager := NewManager true DefaultConfig.
Definition m1 : Manager := (OpenPort m0 "COM3" DefaultConfig "a" false env_a).1.
Definition m2 : Manager := (OpenPort m1 "COM3" DefaultConfig "b" false env_b).1.
(** What the driver answers when asked to close a handle whose device is
    gone. *)
Definition device_removed : error := DriverError "device removed".
Definition shared_calls : list call :=
  [ CallOpenPort "COM3" DefaultConfig "a" false env_a;
    CallOpenPort "COM3" DefaultConfig "b" false env_b ].

(** One client opens COM3 and writes one byte 2^64 - 1 times; the driver
    accepts the byte every time. *)
Definition one_byte_write : call :=
  CallWrite "COM3" "SA" [x00] (1, None) 0.
Definition open_and_fill : list call :=
  CallOpenPort "COM3" DefaultConfig "a" false env_a
    :: repeat one_byte_write (Z.to_nat (2 ^ 64 - 1)).

(** A reader for the session "SA" on COM3, started and then stopped. *)
Definition reader0 : Reader := NewReader "COM3" "SA" 0.
Definition reader_started : Reader := (Start reader0 m1).1.
Definition reader_stopped : Reader := Stop reader_started.

(** A short schedule of a run: a client subscribes, the loop reads "HI"
    and publishes it, the loop reads "!" and publishes it, and the client
    takes two events. *)
Definition select_idle : SelectEnv := mkSelectEnv false false.
Definition short_schedule : list action :=
  [ ActSubscribe;
    ActLoop select_idle ([x48; x49], None) 10;
    ActLoop select_idle ([], None) 11;
    ActLoop select_idle ([x21], None) 12;
    ActLoop select_idle ([], None) 13;
    ActReceive 0%nat;
    ActReceive 0%nat ].

(** A schedule with a slow subscriber: a client subscribes; the loop
    reads and publishes one byte 101 times while the client takes
    nothing, so that the 101st event finds the channel full; the client
    takes one event; the loop publishes a 102nd event; the client takes
    the remaining 100 events. *)
Definition read_and_publish : list action :=
  [ ActLoop select_idle ([x41], None) 0; ActLoop select_idle ([], None) 0 ].
Definition slow_subscriber_schedule : list action :=
  [ActSubscribe]
    ++ concat (repeat read_and_publish 101)
    ++ [ActReceive 0%nat]
    ++ read_and_publish
    ++ repeat (ActReceive 0%nat) 100.

(** A read of COM3 with a timeout of 500 ms on a server whose manager
    holds the session "SA"; the driver delivers "HI", and the read
    returns after 600 ms. *)
Definition server1 : Api.SerialServer := Api.mkServer m1 ∅.
Definition read_500ms : Api.ReadRequest := Api.mkReadRequest "COM3" "SA" 16 500.
Definition driver_HI : bytes * option error := ([x48; x49], None).
Definition done_after_600ms : RaceEnv := mkRaceEnv (Some (600 * Millisecond)) false.

(** The four ports of the classification examples. *)
Definition port_COM7_usb : PortDetails :=
  mkPortDetails "COM7" true "2341" "0043" "" "".
Definition port_rfcomm0 : PortDetails :=
  mkPortDetails "/dev/rfcomm0" false "" "" "" "".
Definition port_pts3 : PortDetails :=
  mkPortDetails "/dev/pts/3" false "" "" "" "".
Definition port_ttyS0 : PortDetails :=
  mkPortDetails "/dev/ttyS0" false "" "" "" "".

(** A configuration that the specification's domain excludes (a negative
    read timeout). *)
Definition negative_timeout_config : PortConfig :=
  mkPortConfig 9600 8 StopBits1 ParityNone FlowControlNone (-1) 1000.

End Scenario.

(** ** Invariants of the read subscriptions *)

Module Subscriptions.

(** What holds of the reader channels of the sessions: a session lists no
    channel twice; a listed channel exists and is open; no channel is
    listed by two session objects; and every channel was made with
    capacity 100 and holds no more than that. *)
Definition readers_ok (m : Manager) : Prop :=
  (forall (l : loc) (s : Session), heap m !! l = Some s -> NoDup (readers s)) /\
  (forall (l : loc) (s : Session) (ch : chan_id),
     heap m !! l = Some s -> ch ∈ readers s ->
     exists c, chans m !! ch = Some c /\ ch_closed c = false) /\
  (forall (l1 l2 : loc) (s1 s2 : Session) (ch : chan_id),
     heap m !! l1 = Some s1 -> heap m !! l2 = Some s2 ->
     ch ∈ readers s1 -> ch ∈ readers s2 -> l1 = l2) /\
  (forall (ch : chan_id) (c : Chan bytes), chans m !! ch = Some c ->
     ch_cap c = 100%nat /\ (length (ch_buf c) <= 100)%nat).

(** A session that the port index holds has not been closed. *)
Definition indexed_open (m : Manager) : Prop :=
  forall (name : string) (l : loc),
    sessions m !! name = Some l -> closed (load m l) = false.

(** [ValidateSession] without its test of the closed flag. *)
Definition ValidateSession_index (m : Manager) (portName sessionID : string)
    : result loc :=
  match sessions m !! portName with
  | None => Err ErrPortNotOpen
  | Some l => if decide (ID (load m l) = sessionID) then Ok l else Err ErrInvalidSession
  end.

(** What a closed session looks like from outside: the object is marked
    closed and lists no reader, its id is not registered, and the given
    channels are closed. *)
Definition closed_out (m : Manager) (l : loc) (id : string) (chs : list chan_id)
    : Prop :=
  closed (load m l) = true /\ readers (load m l) = [] /\
  sessionsByID m !! id = None /\
  forall ch, ch ∈ chs -> exists c, chans m !! ch = Some c /\ ch_closed c = true.

End Subscriptions.
Export Subscriptions.

Module ScenarioSubscribed.

(** COM3 is opened by "a" and one subscription is taken on it. *)
Definition subscribed_calls : list call :=
  [ CallOpenPort "COM3" DefaultConfig "a" false Scenario.env_a;
    CallSubscribeToReads "COM3" "SA" ].
Definition m_subscribed : Manager := run Scenario.m0 subscribed_calls.

End ScenarioSubscribed.

(** ** Invariants of the streaming reader *)

Module Backlog.

(** Every subscriber channel of a reader was made with capacity 100 and
    holds no more than that. *)
Definition chans_bounded (r : Reader) : Prop :=
  forall (ch : chan_id) (c : Chan DataEvent), subs r !! ch = Some c ->
    ch_cap c = 100%nat /\ (length (ch_buf c) <= 100)%nat.

(** One turn of the read loop: from the loop condition through
    [manager.Read], and from there through [broadcast] back to the loop
    condition. *)
Definition loop_round (sel : SelectEnv) (drv_read : bytes * option error)
    (now : Z) : list action :=
  [ActLoop sel drv_read now; ActLoop sel drv_read now].

(** The event that the loop publishes when [manager.Read] fails with
    [err]. *)
Definition error_event (err : error) (now seq : Z) : DataEvent :=
  mkDataEvent [] now seq (Some err).

End Backlog.
Export Backlog.

Module ScenarioReader.

(** COM3 is closed while the reader started for the session "SA" is
    still running. *)
Definition m_closed : Manager := (ClosePort Scenario.m1 "COM3" "SA" None).1.

(** The reader of COM3 with one subscriber that has two events waiting. *)
Definition reader_two_queued : Reader :=
  broadcast
    (broadcast (Subscribe Scenario.reader_started).1
       (mkDataEvent [x48] 1 1 None))
    (mkDataEvent [x49] 2 2 None).

End ScenarioReader.

(** ** Lines and timed writes ([internal/serial/reader.go]) *)

Module Lines.

(** [LineReader].  The field [reader] of the source is read by no
    method and is left out. *)
Record LineReader : Type := mkLineReader {
  delimiter : byte;
  buffer : bytes;
  maxLine : Z
}.

(** [NewLineReader] *)
Definition NewLineReader (delimiter : byte) (maxLineSize : Z) : LineReader :=
  mkLineReader delimiter [] (if maxLineSize <=? 0 then 4096 else maxLineSize).

(** The scan [for i, b := range lr.buffer] of [ReadLine]: the bytes
    before the first delimiter and the bytes after it. *)
Fixpoint split_line (delimiter : byte) (buffer : bytes) : option (bytes * bytes) :=
  match buffer with
  | [] => None
  | b :: rest =>
    if Byte.eqb b delimiter then Some ([], rest)
    else match split_line delimiter rest with
         | Some (line, rest') => Some (b :: line, rest')
         | None => None
         end
  end.

(** How a call of [ReadLine] stands: it has returned a line, it has
    returned an error, or it waits at [<-dataChan] for an event. *)
Inductive line_result : Type :=
  | Line (line : bytes)
  | Failed (err : error)
  | Waiting.

(** The loop of [ReadLine] over the events that the channel holds;
    [closed] tells whether the channel has been closed.  The result
    comes with the buffer and the events left. *)
Fixpoint ReadLine_loop (delimiter : byte) (maxLine : Z) (buffer : bytes)
    (queue : list DataEvent) (closed : bool)
    : bytes * list DataEvent * line_result :=
  match split_line delimiter buffer with
  | Some (line, rest) => (rest, queue, Line line)
  | None =>
    match queue with
    | [] =>
      if closed then
        if 0 <? Z.of_nat (length buffer) then ([], [], Line buffer)
        else (buffer, [], Failed ErrPortClosed)
      else (buffer, [], Waiting)
    | event :: queue' =>
      match Error event with
      | Some err => (buffer, queue', Failed err)
      | None =>
        let buffer' := buffer ++ Data event in
        if Z.of_nat (length buffer') >? maxLine then ([], queue', Line buffer')
        else ReadLine_loop delimiter maxLine buffer' queue' closed
      end
    end
  end.

(** [LineReader.ReadLine] *)
Definition ReadLine (lr : LineReader) (dataChan : Chan DataEvent)
    : LineReader * Chan DataEvent * line_result :=
  let '(b, q, res) :=
    ReadLine_loop (delimiter lr) (maxLine lr) (buffer lr)
      (ch_buf dataChan) (ch_closed dataChan) in
  (mkLineReader (delimiter lr) b (maxLine lr),
   mkChan q (ch_cap dataChan) (ch_closed dataChan), res).

(** [LineReader.Reset] *)
Definition Reset (lr : LineReader) : LineReader :=
  mkLineReader (delimiter lr) [] (maxLine lr).

(** The bytes that a channel still has to deliver. *)
Definition pending (dataChan : Chan DataEvent) : bytes :=
  concat (Data <$> ch_buf dataChan).

(** How the race of [WriteWithTimeout] goes: after how many nanoseconds
    the task running [manager.Write] puts its result on [resultChan]
    ([None]: it never does), and which case the [select] takes should
    the result and the deadline become ready together. *)
Record WriteRace : Type := mkWriteRace {
  write_done_after : option Z;
  tie_takes_write : bool
}.

(** [WriteWithTimeout]: the context expires [timeout] nanoseconds after
    the call, at once when [timeout] is not positive.  A write that
    returns late still has its effect on the manager. *)
Definition WriteWithTimeout (m : Manager) (portName sessionID : string)
    (data : bytes) (timeout : Z) (drv_write : Z * option error) (now : Z)
    (race : WriteRace) : Manager * (Z * option error) :=
  match write_done_after race with
  | None => (m, (0, Some ErrWriteTimeout))
  | Some t =>
    let '(m', res) := Write m portName sessionID data drv_write now in
    if (t <? Z.max 0 timeout) || ((t =? Z.max 0 timeout) && tie_takes_write race)
    then (m', res)
    else (m', (0, Some ErrWriteTimeout))
  end.

End Lines.
Export Lines.

Module ScenarioLines.

(** A line reader for line feeds with room for 16 bytes, holding "A",
    and a channel that holds the chunks "B", "C\nD" and "E". *)
Definition lr_A : LineReader := mkLineReader x0a [x41] 16.
Definition chunks_B_CnD_E : Chan DataEvent :=
  mkChan [ mkDataEvent [x42] 1 1 None;
           mkDataEvent [x43; x0a; x44] 2 2 None;
           mkDataEvent [x45] 3 3 None ] 100 false.

(** A write to COM3 that the driver completes after 600 ms. *)
Definition late_write : WriteRace := mkWriteRace (Some (600 * Millisecond)) false.

End ScenarioLines.

(** ** Names of the settings and the driver's mode ([internal/serial/types.go]) *)

Module Settings.

(** [Parity.String], [StopBits.String], [FlowControl.String] *)
Definition Parity_String (p : Z) : string :=
  if p =? ParityNone then "none"
  else if p =? ParityOdd then "odd"
  else if p =? ParityEven then "even"
  else if p =? ParityMark then "mark"
  else if p =? ParitySpace then "space"
  else "unknown".

Definition StopBits_String (s : Z) : string :=
  if s =? StopBits1 then "1"
  else if s =? StopBits1Half then "1.5"
  else if s =? StopBits2 then "2"
  else "unknown".

Definition FlowControl_String (f : Z) : string :=
  if f =? FlowControlNone then "none"
  else if f =? FlowControlHardware then "hardware"
  else if f =? FlowControlSoftware then "software"
  else "unknown".

(** [strings.ToLower] on a string of ASCII characters: the letters A to Z
    become a to z.  (On other strings Go maps whole code points; the
    case labels below are ASCII, and a string that this function maps to
    one of them is ASCII itself.) *)
Definition ToLower (s : string) : string :=
  string_of_list_ascii (lower <$> list_ascii_of_string s).

(** [ParseParity] *)
Definition ParseParity (value : string) : Z * option error :=
  let v := ToLower value in
  if String.eqb v "" || String.eqb v "none" then (ParityNone, None)
  else if String.eqb v "odd" then (ParityOdd, None)
  else if String.eqb v "even" then (ParityEven, None)
  else if String.eqb v "mark" then (ParityMark, None)
  else if String.eqb v "space" then (ParitySpace, None)
  else (ParityNone, Some (Wrap "%w: invalid parity %q" ErrInvalidConfig)).

(** [ParseFlowControl] *)
Definition ParseFlowControl (value : string) : Z * option error :=
  let v := ToLower value in
  if String.eqb v "" || String.eqb v "none" then (FlowControlNone, None)
  else if String.eqb v "hardware" || String.eqb v "hw" || String.eqb v "rts/cts"
  then (FlowControlHardware, None)
  else if String.eqb v "software" || String.eqb v "sw" || String.eqb v "xon/xoff"
  then (FlowControlSoftware, None)
  else (FlowControlNone, Some (Wrap "%w: invalid flow control %q" ErrInvalidConfig)).

(** [ParseStopBits] *)
Definition ParseStopBits (value : Z) : Z * option error :=
  if value =? 1 then (StopBits1, None)
  else if value =? 2 then (StopBits2, None)
  else (StopBits1, Some (Wrap "%w: invalid stop bits %d" ErrInvalidConfig)).

(** The constants of the driver library that [ToSerialMode] assigns. *)
Inductive drv_StopBits : Type :=
  | OneStopBit
  | OnePointFiveStopBits
  | TwoStopBits.

Inductive drv_Parity : Type :=
  | NoParity
  | OddParity
  | EvenParity
  | MarkParity
  | SpaceParity.

(** [serial.Mode] of the driver library, as far as [ToSerialMode] fills
    it in.  [None] in a field is the zero value that the constructor
    leaves there when no case of the [switch] assigns it. *)
Record Mode : Type := mkMode {
  mode_BaudRate : Z;
  mode_DataBits : Z;
  mode_StopBits : option drv_StopBits;
  mode_Parity : option drv_Parity
}.

(** [PortConfig.ToSerialMode] *)
Definition ToSerialMode (c : PortConfig) : Mode :=
  mkMode (BaudRate c) (DataBits c)
    (if StopBits c =? StopBits1 then Some OneStopBit
     else if StopBits c =? StopBits1Half then Some OnePointFiveStopBits
     else if StopBits c =? StopBits2 then Some TwoStopBits
     else None)
    (if Parity c =? ParityNone then Some NoParity
     else if Parity c =? ParityOdd then Some OddParity
     else if Parity c =? ParityEven then Some EvenParity
     else if Parity c =? ParityMark then Some MarkParity
     else if Parity c =? ParitySpace then Some SpaceParity
     else None).

End Settings.
Export Settings.

(** ** The agent's configuration ([config/config.go]) *)

Module Config.

(** [SerialDefaults] *)
Record SerialDefaults : Type := mkSerialDefaults {
  BaudRate : Z;
  DataBits : Z;
  StopBits : Z;
  Parity : string;
  FlowControl : string;
  ReadTimeoutMs : Z;
  WriteTimeoutMs : Z
}.

(** The parts of [Config] that [Validate] and the service facade read. *)
Record ServerConfig : Type := mkServerConfig {
  GRPCAddress : string;
  MaxConnections : Z
}.

Record TLSConfig : Type := mkTLSConfig {
  Enabled : bool;
  CertFile : string;
  KeyFile : string
}.

Record SerialConfig : Type := mkSerialConfig {
  Defaults : SerialDefaults;
  ScanInterval : Z;
  AllowSharedAccess : bool
}.

Record LoggingConfig : Type := mkLoggingConfig {
  Level : string
}.

Record Config : Type := mkConfig {
  Server : ServerConfig;
  TLS : TLSConfig;
  Serial : SerialConfig;
  Logging : LoggingConfig
}.

(** [DefaultConfig] *)
Definition DefaultConfig : Config :=
  mkConfig (mkServerConfig "0.0.0.0:50051" 100)
    (mkTLSConfig false "" "")
    (mkSerialConfig (mkSerialDefaults 9600 8 1 "none" "none" 1000 1000) 5 false)
    (mkLoggingConfig "info").

(** [SerialDefaults.ToPortConfig] *)
Definition ToPortConfig (d : SerialDefaults) : result PortConfig :=
  match ParseParity (Parity d) with
  | (_, Some err) => Err err
  | (parity, None) =>
    match ParseFlowControl (FlowControl d) with
    | (_, Some err) => Err err
    | (flowControl, None) =>
      match ParseStopBits (StopBits d) with
      | (_, Some err) => Err err
      | (stopBits, None) =>
        Ok (mkPortConfig (BaudRate d) (DataBits d) stopBits parity flowControl
              (ReadTimeoutMs d) (WriteTimeoutMs d))
      end
    end
  end.

(** An error made by [fmt.Errorf]: the format and, for [%w], the error
    wrapped. *)
Inductive config_error : Type :=
  | Errorf (format : string) (cause : option error).

(** The map literal of [Validate]. *)
Definition validLogLevels : gmap string bool :=
  list_to_map [("debug", true); ("info", true); ("warn", true); ("error", true)].

(** [Config.Validate] *)
Definition Validate (c : Config) : option config_error :=
  if String.eqb (GRPCAddress (Server c)) "" then
    Some (Errorf "grpc_address is required" None)
  else if MaxConnections (Server c) <? 1 then
    Some (Errorf "max_connections must be at least 1" None)
  else if Enabled (TLS c)
          && (String.eqb (CertFile (TLS c)) "" || String.eqb (KeyFile (TLS c)) "") then
    Some (Errorf "TLS cert_file and key_file are required when TLS is enabled" None)
  else if BaudRate (Defaults (Serial c)) <? 1 then
    Some (Errorf "baud_rate must be positive" None)
  else if (DataBits (Defaults (Serial c)) <? 5) || (DataBits (Defaults (Serial c)) >? 8) then
    Some (Errorf "data_bits must be between 5 and 8" None)
  else if negb (default false (validLogLevels !! ToLower (Level (Logging c)))) then
    Some (Errorf "invalid log level: %s" None)
  else
    match ToPortConfig (Defaults (Serial c)) with
    | Err err => Some (Errorf "invalid serial defaults: %w" (Some err))
    | Ok _ => None
    end.

End Config.

(** ** Messages and conversions of the service facade ([api/server.go]) *)

Module Pb.

(** The enumerations [pb.StopBits], [pb.Parity] and [pb.FlowControl] of
    the protocol.  A value of such a type is a number; the constructors
    are the values that the facade names and [_other] stands for every
    other number. *)
Inductive enum_StopBits : Type :=
  | StopBits_STOP_BITS_1
  | StopBits_STOP_BITS_1_5
  | StopBits_STOP_BITS_2
  | StopBits_other.

Inductive enum_Parity : Type :=
  | Parity_PARITY_NONE
  | Parity_PARITY_ODD
  | Parity_PARITY_EVEN
  | Parity_PARITY_MARK
  | Parity_PARITY_SPACE
  | Parity_other.

Inductive enum_FlowControl : Type :=
  | FlowControl_FLOW_CONTROL_NONE
  | FlowControl_FLOW_CONTROL_HARDWARE
  | FlowControl_FLOW_CONTROL_SOFTWARE
  | FlowControl_other.

(** [pb.PortConfig].  [BaudRate] and the timeouts are [uint32];
    [DataBits] is an enumeration that the facade converts to and from
    [int] by its number ([int32]). *)
Record PortConfig : Type := mkPortConfig {
  BaudRate : Z;
  DataBits : Z;
  StopBits : enum_StopBits;
  Parity : enum_Parity;
  FlowControl : enum_FlowControl;
  ReadTimeoutMs : Z;
  WriteTimeoutMs : Z
}.

End Pb.

Module Convert.

(** [uint32(n)] and [int32(n)] for an [int]. *)
Definition uint32 (n : Z) : Z := n mod 2 ^ 32.
Definition int32 (n : Z) : Z := (n + 2 ^ 31) mod 2 ^ 32 - 2 ^ 31.

Definition convertStopBits (sb : Pb.enum_StopBits) : Z :=
  match sb with
  | Pb.StopBits_STOP_BITS_1 => StopBits1
  | Pb.StopBits_STOP_BITS_1_5 => StopBits1Half
  | Pb.StopBits_STOP_BITS_2 => StopBits2
  | Pb.StopBits_other => StopBits1
  end.

Definition convertStopBitsBack (sb : Z) : Pb.enum_StopBits :=
  if sb =? StopBits1 then Pb.StopBits_STOP_BITS_1
  else if sb =? StopBits1Half then Pb.StopBits_STOP_BITS_1_5
  else if sb =? StopBits2 then Pb.StopBits_STOP_BITS_2
  else Pb.StopBits_STOP_BITS_1.

Definition convertParity (p : Pb.enum_Parity) : Z :=
  match p with
  | Pb.Parity_PARITY_NONE => ParityNone
  | Pb.Parity_PARITY_ODD => ParityOdd
  | Pb.Parity_PARITY_EVEN => ParityEven
  | Pb.Parity_PARITY_MARK => ParityMark
  | Pb.Parity_PARITY_SPACE => ParitySpace
  | Pb.Parity_other => ParityNone
  end.

Definition convertParityBack (p : Z) : Pb.enum_Parity :=
  if p =? ParityNone then Pb.Parity_PARITY_NONE
  else if p =? ParityOdd then Pb.Parity_PARITY_ODD
  else if p =? ParityEven then Pb.Parity_PARITY_EVEN
  else if p =? ParityMark then Pb.Parity_PARITY_MARK
  else if p =? ParitySpace then Pb.Parity_PARITY_SPACE
  else Pb.Parity_PARITY_NONE.

Definition convertFlowControl (fc : Pb.enum_FlowControl) : Z :=
  match fc with
  | Pb.FlowControl_FLOW_CONTROL_NONE => FlowControlNone
  | Pb.FlowControl_FLOW_CONTROL_HARDWARE => FlowControlHardware
  | Pb.FlowControl_FLOW_CONTROL_SOFTWARE => FlowControlSoftware
  | Pb.FlowControl_other => FlowControlNone
  end.

Definition convertFlowControlBack (fc : Z) : Pb.enum_FlowControl :=
  if fc =? FlowControlNone then Pb.FlowControl_FLOW_CONTROL_NONE
  else if fc =? FlowControlHardware then Pb.FlowControl_FLOW_CONTROL_HARDWARE
  else if fc =? FlowControlSoftware then Pb.FlowControl_FLOW_CONTROL_SOFTWARE
  else Pb.FlowControl_FLOW_CONTROL_NONE.

(** [SerialServer.convertToSerialConfig]; [config] is the server's
    configuration, fixed when the server is made, and [None] the nil
    message. *)
Definition convertToSerialConfig (config : Config.Config) (cfg : option Pb.PortConfig)
    : PortConfig :=
  match cfg with
  | None =>
    let d := Config.Defaults (Config.Serial config) in
    mkPortConfig (Config.BaudRate d) (Config.DataBits d) (Config.StopBits d)
      ParityNone FlowControlNone (Config.ReadTimeoutMs d) (Config.WriteTimeoutMs d)
  | Some cfg =>
    mkPortConfig (Pb.BaudRate cfg) (Pb.DataBits cfg)
      (convertStopBits (Pb.StopBits cfg)) (convertParity (Pb.Parity cfg))
      (convertFlowControl (Pb.FlowControl cfg))
      (Pb.ReadTimeoutMs cfg) (Pb.WriteTimeoutMs cfg)
  end.

(** [SerialServer.convertFromSerialConfig] *)
Definition convertFromSerialConfig (cfg : PortConfig) : Pb.PortConfig :=
  Pb.mkPortConfig (uint32 (BaudRate cfg)) (int32 (DataBits cfg))
    (convertStopBitsBack (StopBits cfg)) (convertParityBack (Parity cfg))
    (convertFlowControlBack (FlowControl cfg))
    (uint32 (ReadTimeoutMs cfg)) (uint32 (WriteTimeoutMs cfg)).

End Convert.
Export Convert.

Module ScenarioConfig.


End ScenarioConfig.

(** ** Scanning and watching ([internal/serial/scanner.go]) *)

Module Scan.

(** [PortInfo] *)
Record PortInfo : Type := mkPortInfo {
  Name : string;
  Description : string;
  HardwareID : string;
  Manufacturer : string;
  Product : string;
  SerialNumber : string;
  VID : string;
  PID : string;
  PortType : Scanner.PortType;
  IsOpen : bool;
  LockedBy : string
}.

(** [Scanner]: the compiled exclude patterns and the cached ports (a
    nil slice and an empty one are both []).  The manager that the
    scanner points to, if any, is an argument of [Scan]. *)
Record Scanner : Type := mkScanner {
  excludePatterns : list re;
  cachedPorts : list PortInfo
}.

(** [NewScanner]; [compiled] holds what [regexp.Compile] makes of each
    pattern ([None]: the pattern does not compile), and [None] as result
    is the error return. *)
Definition NewScanner (compiled : list (option re)) : option Scanner :=
  foldl (fun acc pattern =>
           match acc, pattern with
           | Some s, Some r => Some (mkScanner (excludePatterns s ++ [r]) [])
           | _, _ => None
           end)
        (Some (mkScanner [] [])) compiled.

(** [Scanner.isExcluded] *)
Definition isExcluded (s : Scanner) (name : string) : bool :=
  existsb (fun pattern => MatchString pattern name) (excludePatterns s).

(** The body of the loop of [Scan]: the entry made for one enumerated
    port.  [manager] is the state of the manager that the scanner points
    to ([None]: a nil pointer). *)
Definition port_info (GOOS : string) (manager : option Manager)
    (port : PortDetails) : PortInfo :=
  let session :=
    match manager with
    | Some m => match GetSession m (Scanner.Name port) with
                | Some l => Some (load m l)
                | None => None
                end
    | None => None
    end in
  mkPortInfo (Scanner.Name port) (buildDescription port)
    (if negb (String.eqb (Scanner.VID port) "") && negb (String.eqb (Scanner.PID port) "")
     then String.append "USB\VID_"
            (String.append (Scanner.VID port)
               (String.append "&PID_" (Scanner.PID port)))
     else "")
    "" (Scanner.Product port) (Scanner.SerialNumber port)
    (Scanner.VID port) (Scanner.PID port)
    (detectPortType GOOS port)
    (match session with Some _ => true | None => false end)
    (match session with Some sess => ClientID sess | None => "" end).

(** The order that [sort.Slice] is asked for: [less] is [<] on the
    names, which Go compares byte by byte, so in a sorted slice each
    name is at most the next. *)
Definition name_le (a b : PortInfo) : Prop :=
  Is_true (String.leb (Name a) (Name b)).

#[global] Instance name_le_dec (a b : PortInfo) : Decision (name_le a b).
Proof. unfold name_le. apply _. Defined.

(** [Scanner.Scan]; [enumerated] is what
    [enumerator.GetDetailedPortsList] returns.  ([sort.Slice] leaves the
    order among entries of the same name open; a merge sort stands for
    it, and nothing below depends on that order.) *)
Definition Scan (s : Scanner) (GOOS : string) (manager : option Manager)
    (enumerated : result (list PortDetails)) : Scanner * result (list PortInfo) :=
  match enumerated with
  | Err err => (s, Err err)
  | Ok ports =>
    let result :=
      merge_sort name_le
        (port_info GOOS manager
           <$> List.filter (fun port => negb (isExcluded s (Scanner.Name port))) ports) in
    (mkScanner (excludePatterns s) result, Ok result)
  end.

(** [Scanner.GetCached] *)
Definition GetCached (s : Scanner) : list PortInfo := cachedPorts s.

(** [Scanner.GetPort] *)
Definition GetPort (s : Scanner) (GOOS : string) (manager : option Manager)
    (enumerated : result (list PortDetails)) (name : string)
    : Scanner * result PortInfo :=
  match Scan s GOOS manager enumerated with
  | (s', Err err) => (s', Err err)
  | (s', Ok ports) =>
    (s', match List.find (fun port => String.eqb (Name port) name) ports with
         | Some port => Ok port
         | None => Err ErrPortNotFound
         end)
  end.

(** The period of [WatchPorts], in seconds. *)
Definition watch_interval (intervalSeconds : Z) : Z :=
  if intervalSeconds <=? 0 then 5 else intervalSeconds.

(** The arguments of one call of a [PortChangeCallback]. *)
Record PortChange : Type := mkPortChange {
  added : list PortInfo;
  removed : list PortInfo;
  current : list PortInfo
}.

(** The loop [for _, p := range ports { currentPorts[p.Name] = p }]. *)
Definition ports_by_name (ports : list PortInfo) : gmap string PortInfo :=
  foldl (fun acc p => <[Name p := p]> acc) ∅ ports.

(** One tick of the task that [WatchPorts] starts: from the ports of the
    last tick and the outcome of [Scan] to the ports remembered for the
    next tick and the call of the callback, if one is made.  (Go leaves
    the order of a map range open, and with it the order within [added]
    and [removed].) *)
Definition watch_tick (lastPorts : gmap string PortInfo)
    (scanned : result (list PortInfo))
    : gmap string PortInfo * option PortChange :=
  match scanned with
  | Err _ => (lastPorts, None)
  | Ok ports =>
    let currentPorts := ports_by_name ports in
    let added :=
      (map_to_list (filter (fun kv => lastPorts !! kv.1 = None) currentPorts)).*2 in
    let removed :=
      (map_to_list (filter (fun kv => currentPorts !! kv.1 = None) lastPorts)).*2 in
    (currentPorts,
     if (0 <? Z.of_nat (length added)) || (0 <? Z.of_nat (length removed))
     then Some (mkPortChange added removed ports)
     else None)
  end.

End Scan.

(** ** Further handlers of the service facade ([api/server.go]) *)

Module Rpc.

(** [pb.OpenPortRequest] ([None] is a nil configuration) and
    [pb.OpenPortResponse] *)
Record OpenPortRequest : Type := mkOpenPortRequest {
  op_PortName : string;
  op_ClientId : string;
  op_Exclusive : bool;
  op_Config : option Pb.PortConfig
}.
Record OpenPortResponse : Type := mkOpenPortResponse {
  op_Success : bool;
  op_Message : string;
  op_SessionId : string
}.

(** [SerialServer.OpenPort]; [config] is the server's configuration,
    fixed when the server is made. *)
Definition OpenPort (config : Config.Config) (s : Api.SerialServer)
    (req : OpenPortRequest) (env : OpenEnv)
    : Api.SerialServer * Api.rpc OpenPortResponse :=
  if String.eqb (op_PortName req) "" then
    (s, Api.Status Api.InvalidArgument "port_name is required" None)
  else
    let clientID :=
      if String.eqb (op_ClientId req) "" then "default-client" else op_ClientId req in
    let cfg := convertToSerialConfig config (op_Config req) in
    let '(m', res) :=
      Manager.OpenPort (Api.manager s) (op_PortName req) cfg clientID
        (op_Exclusive req) env in
    let s' := Api.mkServer m' (Api.srv_readers s) in
    match res with
    | Err err =>
      if decide (err = ErrPortLocked)
      then (s', Api.Reply (mkOpenPortResponse false
                             "port is locked by another client" ""))
      else (s', Api.Status Api.Internal "failed to open port: %v" (Some err))
    | Ok l =>
      (s', Api.Reply (mkOpenPortResponse true "port opened successfully"
                        (ID (load m' l))))
    end.




(** [pb.DataChunk] and [pb.StreamWriteResponse] *)
Record DataChunk : Type := mkDataChunk {
  ck_PortName : string;
  ck_Data : bytes;
  ck_Timestamp : Z;
  ck_Sequence : Z
}.
Record StreamWriteResponse : Type := mkStreamWriteResponse {
  sw_Success : bool;
  sw_TotalBytesWritten : Z;
  sw_ChunksProcessed : Z;
  sw_Message : string
}.

(** What one [stream.Recv()] of [StreamWrite] yields: a chunk (given
    with what the driver and the clock answer during the write that it
    causes), the end of the stream, or an error. *)
Inductive received_chunk : Type :=
  | RecvChunk (chunk : DataChunk) (drv_write : Z * option error) (now : Z)
  | RecvEOF
  | RecvError (err : error).

(** The loop of [SerialServer.StreamWrite] over what the stream
    delivers: the manager afterwards and how the handler ends ([None]:
    it waits in [stream.Recv()]; a reply is the response that it hands
    to [stream.SendAndClose]). *)
Fixpoint StreamWrite_loop (m : Manager) (totalBytes chunksProcessed : Z)
    (stream : list received_chunk)
    : Manager * option (Api.rpc StreamWriteResponse) :=
  match stream with
  | [] => (m, None)
  | RecvEOF :: _ =>
    (m, Some (Api.Reply (mkStreamWriteResponse true totalBytes chunksProcessed
                           "stream completed successfully")))
  | RecvError err :: _ =>
    (m, Some (Api.Status Api.Internal "receive error: %v" (Some err)))
  | RecvChunk chunk drv_write now :: rest =>
    match GetSession m (ck_PortName chunk) with
    | None => (m, Some (Api.Status Api.NotFound "port not open" None))
    | Some l =>
      let '(m', (n, err)) :=
        Manager.Write m (ck_PortName chunk) (ID (load m l)) (ck_Data chunk)
          drv_write now in
      match err with
      | Some e => (m', Some (Api.Status Api.Internal "write failed: %v" (Some e)))
      | None =>
        StreamWrite_loop m' (AddUint64 totalBytes (uint64 n))
          (AddUint32 chunksProcessed 1) rest
      end
    end
  end.

(** [SerialServer.StreamWrite] *)
Definition StreamWrite (s : Api.SerialServer) (stream : list received_chunk)
    : Api.SerialServer * option (Api.rpc StreamWriteResponse) :=
  let '(m', r) := StreamWrite_loop (Api.manager s) 0 0 stream in
  (Api.mkServer m' (Api.srv_readers s), r).

(** What one [select] of [handleBiDirectionalReads] takes: the context
    is done, the writing side reports its end ([None]: a nil error), the
    subscription delivers an event (given with what [stream.Send]
    answers should the event be sent on), or the subscription is
    closed. *)
Inductive bidi_select : Type :=
  | BidiCtxDone
  | BidiWriterDone (err : option error)
  | BidiEvent (event : DataEvent) (send : option error)
  | BidiClosed.

(** The loop of [SerialServer.handleBiDirectionalReads]: the chunks
    handed to [stream.Send], in order, and the handler's return
    ([None]: the handler waits in the [select]; [Some None]: it
    returned nil).  The time stamp of a chunk is [UnixNano] of the
    event's, which is the reading of the clock itself. *)
Fixpoint handleBiDirectionalReads_loop (portName : string) (sequence : Z)
    (selects : list bidi_select) : list DataChunk * option (option error) :=
  match selects with
  | [] => ([], None)
  | BidiCtxDone :: _ => ([], Some None)
  | BidiWriterDone err :: _ => ([], Some err)
  | BidiClosed :: _ => ([], Some None)
  | BidiEvent event send :: rest =>
    match Error event with
    | Some _ => handleBiDirectionalReads_loop portName sequence rest
    | None =>
      let sequence' := AddUint32 sequence 1 in
      let chunk := mkDataChunk portName (Data event) (Timestamp event) sequence' in
      match send with
      | Some err => ([chunk], Some (Some err))
      | None =>
        let '(chunks, ret) := handleBiDirectionalReads_loop portName sequence' rest in
        (chunk :: chunks, ret)
      end
    end
  end.

(** [SerialServer.handleBiDirectionalReads] *)
Definition handleBiDirectionalReads (portName : string)
    (selects : list bidi_select) : list DataChunk * option (option error) :=
  handleBiDirectionalReads_loop portName 0 selects.

(** A stream of chunks that the driver accepts: each element gives the
    chunk, the number of bytes that the driver reports as written, and
    the clock. *)
Definition accepted (writes : list (DataChunk * Z * Z)) : list received_chunk :=
  (fun w => RecvChunk w.1.1 (w.1.2, None) w.2) <$> writes.

(** [pb.PortType] and [pb.PortInfo] *)
Inductive enum_PortType : Type :=
  | PortType_PORT_TYPE_UNSPECIFIED
  | PortType_PORT_TYPE_USB
  | PortType_PORT_TYPE_NATIVE
  | PortType_PORT_TYPE_BLUETOOTH
  | PortType_PORT_TYPE_VIRTUAL.

Record PortInfoMsg : Type := mkPortInfoMsg {
  pi_Name : string;
  pi_Description : string;
  pi_HardwareId : string;
  pi_Manufacturer : string;
  pi_Product : string;
  pi_SerialNumber : string;
  pi_PortType : enum_PortType;
  pi_IsOpen : bool;
  pi_LockedBy : string
}.

(** [convertPortType] *)
Definition convertPortType (pt : Scanner.PortType) : enum_PortType :=
  match pt with
  | PortTypeUSB => PortType_PORT_TYPE_USB
  | PortTypeNative => PortType_PORT_TYPE_NATIVE
  | PortTypeBluetooth => PortType_PORT_TYPE_BLUETOOTH
  | PortTypeVirtual => PortType_PORT_TYPE_VIRTUAL
  | PortTypeUnknown => PortType_PORT_TYPE_UNSPECIFIED
  end.

(** [SerialServer.convertPortInfo] *)
Definition convertPortInfo (p : Scan.PortInfo) : PortInfoMsg :=
  mkPortInfoMsg (Scan.Name p) (Scan.Description p) (Scan.HardwareID p)
    (Scan.Manufacturer p) (Scan.Product p) (Scan.SerialNumber p)
    (convertPortType (Scan.PortType p)) (Scan.IsOpen p) (Scan.LockedBy p).

(** [SerialServer.ListPorts]; [scanner] is the server's scanner,
    [manager] the state of the manager that it points to, and
    [onlyAvailable] the flag of the request. *)
Definition ListPorts (scanner : Scan.Scanner) (GOOS : string)
    (manager : option Manager) (enumerated : result (list PortDetails))
    (onlyAvailable : bool) : Scan.Scanner * Api.rpc (list PortInfoMsg) :=
  match Scan.Scan scanner GOOS manager enumerated with
  | (scanner', Err err) =>
    (scanner', Api.Status Api.Internal "failed to scan ports: %v" (Some err))
  | (scanner', Ok ports) =>
    (scanner',
     Api.Reply
       (convertPortInfo
          <$> List.filter (fun p => negb (onlyAvailable && Scan.IsOpen p)) ports))
  end.

End Rpc.

Module ScenarioRpc.


End ScenarioRpc.

(** * Properties *)

(** ** Configuration validation *)

Lemma validBaudRates_ge_300 (b : Z) :
  map_index validBaudRates b = true -> 300 <= b.
Proof.
  unfold map_index. intros H.
  destruct (validBaudRates !! b) as [v|] eqn:E; [|discriminate].
  apply elem_of_list_to_map_2 in E.
  repeat (apply elem_of_cons in E as [E|E]; [injection E as -> _; lia|]).
  by apply elem_of_nil in E.
Qed.

Lemma Validate_None_iff (c : PortConfig) :
  Validate c = None <-> checked_fields_ok c.
Proof.
  unfold Validate, checked_fields_ok.
  unfold StopBits1, StopBits2, ParityNone, ParitySpace,
    FlowControlNone, FlowControlSoftware.
  destruct (map_index validBaudRates (BaudRate c)) eqn:Hm.
  - apply validBaudRates_ge_300 in Hm.
    repeat (case_match; try discriminate); simpl in *; split; try done; try lia.
  - repeat (case_match; try discriminate); simpl in *; split; try done; try lia.
Qed.

Lemma Validate_Some_InvalidConfig (c : PortConfig) (e : error) :
  Validate c = Some e -> errors_Is e ErrInvalidConfig = true.
Proof.
  unfold Validate. intros H.
  repeat (case_match; [injection H as <-; reflexivity|]).
  discriminate.
Qed.

(** C5, as stated, fails: [Validate] accepts a configuration whose read
    timeout is negative, which lies outside the domain of the
    specification. *)
Lemma Validate_accepts_negative_timeout :
  Validate Scenario.negative_timeout_config = None /\
  ~ spec_domain Scenario.negative_timeout_config.
Proof.
  split; [reflexivity|].
  unfold spec_domain. simpl. lia.
Qed.

(** C5 (amended): [Validate] succeeds exactly when the baud rate is at
    least 300, the data bits are 5 to 8, and stop bits, parity and flow
    control are values of their enumerations; the two timeouts are not
    looked at; and every failure is an InvalidConfig error. *)
Theorem Validate_checks_all_but_timeouts (c : PortConfig) :
  (Validate c = None <-> checked_fields_ok c) /\
  (forall rt wt : Z,
     Validate (mkPortConfig (BaudRate c) (DataBits c) (StopBits c) (Parity c)
                 (FlowControl c) rt wt) = Validate c) /\
  (~ checked_fields_ok c -> is_InvalidConfig (Validate c)).
Proof.
  split; [apply Validate_None_iff|]. split; [reflexivity|].
  intros Hno. destruct (Validate c) as [e|] eqn:E.
  - exists e. split; [reflexivity|]. by eapply Validate_Some_InvalidConfig.
  - by apply Validate_None_iff in E.
Qed.

(** ** The session manager: basic facts *)

Lemma load_store_eq (m : Manager) (l : loc) (s : Session) :
  load (store l s m) l = s.
Proof. unfold load, store. simpl. by rewrite lookup_insert_eq. Qed.

Lemma load_store_ne (m : Manager) (l l' : loc) (s : Session) :
  l <> l' -> load (store l s m) l' = load m l'.
Proof. intros. unfold load, store. simpl. by rewrite lookup_insert_ne. Qed.

Lemma load_Some (m : Manager) (l : loc) (s : Session) :
  heap m !! l = Some s -> load m l = s.
Proof. unfold load. by intros ->. Qed.

Lemma fresh_loc_unused (m : Manager) : heap m !! fresh (dom (heap m)) = None.
Proof. apply not_elem_of_dom, is_fresh. Qed.

(** *** Well-formedness is kept by every call *)

Lemma wf_NewManager (allow : bool) (cfg : PortConfig) : wf (NewManager allow cfg).
Proof.
  unfold wf, NewManager; simpl.
  repeat split; intros *; rewrite lookup_empty; discriminate.
Qed.

(** Overwriting an allocated session by one with the same identity. *)
Lemma wf_store (m : Manager) (l : loc) (s s' : Session) :
  wf m -> heap m !! l = Some s ->
  ID s' = ID s -> PortName s' = PortName s -> port s' = port s ->
  (forall ch, ch ∈ readers s' -> is_Some (chans m !! ch)) ->
  wf (store l s' m).
Proof.
  intros (Hn & Hi & Hc & Hp) Hl Hid Hnm Hpt Hch. unfold wf, store; simpl.
  repeat split.
  - intros name l' Hs. destruct (Hn _ _ Hs) as (s0 & H0 & <-).
    destruct (decide (l = l')) as [->|Hne].
    + rewrite lookup_insert_eq. exists s'. split; [done|]. congruence.
    + rewrite lookup_insert_ne by done. eauto.
  - intros id l' Hs. destruct (Hi _ _ Hs) as (s0 & H0 & <-).
    destruct (decide (l = l')) as [->|Hne].
    + rewrite lookup_insert_eq. exists s'. split; [done|]. congruence.
    + rewrite lookup_insert_ne by done. eauto.
  - intros l' s0 ch. destruct (decide (l = l')) as [->|Hne].
    + rewrite lookup_insert_eq. intros [= <-]. auto.
    + rewrite lookup_insert_ne by done. eauto.
  - intros l' s0. destruct (decide (l = l')) as [->|Hne].
    + rewrite lookup_insert_eq. intros [= <-]. rewrite Hpt. eauto.
    + rewrite lookup_insert_ne by done. eauto.
Qed.

(** Replacing the channel store by one that keeps every channel. *)
Lemma wf_set_chans (m : Manager) (cs : gmap chan_id (Chan bytes)) :
  wf m -> (forall ch, is_Some (chans m !! ch) -> is_Some (cs !! ch)) ->
  wf (set_chans cs m).
Proof.
  intros (Hn & Hi & Hc & Hp) Hsub. unfold wf, set_chans; simpl.
  repeat split; eauto.
Qed.

Lemma wf_delete_sessions (m : Manager) (name : string) :
  wf m -> wf (set_sessions (delete name (sessions m)) m).
Proof.
  intros (Hn & Hi & Hc & Hp). unfold wf, set_sessions; simpl.
  repeat split; eauto.
  intros n l [_ H]%lookup_delete_Some. eauto.
Qed.

Lemma wf_delete_sessionsByID (m : Manager) (id : string) :
  wf m -> wf (set_sessionsByID (delete id (sessionsByID m)) m).
Proof.
  intros (Hn & Hi & Hc & Hp). unfold wf, set_sessionsByID; simpl.
  repeat split; eauto.
  intros n l [_ H]%lookup_delete_Some. eauto.
Qed.

Lemma close_all_chans_lookup {A : Type} (ids : list chan_id)
    (cs : gmap chan_id (Chan A)) (ch : chan_id) :
  close_all_chans ids cs !! ch =
  (if decide (ch ∈ ids) then close_chan else id) <$> cs !! ch.
Proof.
  unfold close_all_chans. revert cs.
  induction ids as [|x ids IH]; intros cs.
  - destruct (decide (ch ∈ [])) as [Hin|Hin]; [by apply elem_of_nil in Hin|].
    simpl. by destruct (cs !! ch).
  - change (foldl _ cs (x :: ids)) with
      (foldl (fun acc c => alter close_chan c acc) (alter close_chan x cs) ids).
    rewrite IH. destruct (decide (x = ch)) as [->|Hne].
    + rewrite lookup_alter_eq.
      destruct (cs !! ch) as [c|]; [|done].
      rewrite (decide_True (P := ch ∈ ch :: ids)) by left.
      destruct (decide (ch ∈ ids)); by destruct c.
    + rewrite lookup_alter_ne by done.
      destruct (decide (ch ∈ ids)).
      * rewrite decide_True; [done|by right].
      * rewrite decide_False; [done|].
        intros [?|?]%elem_of_cons; congruence.
Qed.

Lemma send_all_is_Some {A : Type} (v : A) (ids : list chan_id)
    (cs : gmap chan_id (Chan A)) (ch : chan_id) :
  is_Some (send_all v ids cs !! ch) <-> is_Some (cs !! ch).
Proof.
  unfold send_all. revert cs. induction ids as [|x ids IH]; intros cs; simpl; [done|].
  rewrite IH. destruct (decide (x = ch)) as [->|Hne].
  - rewrite lookup_alter_eq. by rewrite fmap_is_Some.
  - by rewrite lookup_alter_ne.
Qed.

Lemma ValidateSession_Ok (m : Manager) (name id : string) (l : loc) :
  ValidateSession m name id = Ok l ->
  sessions m !! name = Some l /\ ID (load m l) = id /\ closed (load m l) = false.
Proof.
  unfold ValidateSession. destruct (sessions m !! name) as [l'|]; [|discriminate].
  case_decide; [|discriminate].
  destruct (closed (load m l')) eqn:E; [discriminate|]. by intros [= <-].
Qed.

Lemma wf_lookup (m : Manager) (name : string) (l : loc) :
  wf m -> sessions m !! name = Some l ->
  heap m !! l = Some (load m l) /\ PortName (load m l) = name.
Proof.
  intros (Hn & _) Hs. destruct (Hn _ _ Hs) as (s & Hl & Hname).
  by rewrite (load_Some _ _ _ Hl).
Qed.

Lemma wf_readers (m : Manager) (l : loc) (s : Session) (ch : chan_id) :
  wf m -> heap m !! l = Some s -> ch ∈ readers s -> is_Some (chans m !! ch).
Proof. intros (_ & _ & Hc & _). apply Hc. Qed.

Lemma OpenPort_wf (m : Manager) (name : string) (cfg : PortConfig)
    (client : string) (ex : bool) (env : OpenEnv) :
  wf m -> wf (OpenPort m name cfg client ex env).1.
Proof.
  intros Hwf. unfold OpenPort.
  destruct (Validate cfg); [done|].
  destruct (port_locked m name ex); [done|].
  destruct (drv_open env) as [h|]; [|done].
  destruct (if 0 <? ReadTimeoutMs cfg then _ else _); [done|]. simpl.
  pose proof (fresh_loc_unused m) as Hfresh.
  set (l := fresh (dom (heap m))) in *.
  destruct Hwf as (Hn & Hi & Hc & Hp).
  unfold wf; simpl. repeat split.
  - intros n l' [[<- <-]|[Hne Hs]]%lookup_insert_Some.
    + rewrite lookup_insert_eq. eauto.
    + destruct (Hn _ _ Hs) as (s & Hl & <-).
      rewrite lookup_insert_ne by congruence. eauto.
  - intros i l' [[<- <-]|[Hne Hs]]%lookup_insert_Some.
    + rewrite lookup_insert_eq. eauto.
    + destruct (Hi _ _ Hs) as (s & Hl & <-).
      rewrite lookup_insert_ne by congruence. eauto.
  - intros l' s ch [[<- <-]|[Hne Hs]]%lookup_insert_Some; simpl.
    + by intros ?%elem_of_nil.
    + eauto.
  - intros l' s [[<- <-]|[Hne Hs]]%lookup_insert_Some; simpl; eauto.
Qed.

Lemma closeSessionLocked_wf (m : Manager) (name : string) (l : loc)
    (d : option error) :
  wf m -> sessions m !! name = Some l -> wf (closeSessionLocked m l d).1.
Proof.
  intros Hwf Hs. destruct (wf_lookup _ _ _ Hwf Hs) as [Hl _].
  unfold closeSessionLocked. cbv zeta. cbn [fst].
  apply wf_delete_sessionsByID, wf_delete_sessions.
  assert (wf (store l (set_closed true (load m l)) m)) as Hwf1.
  { eapply wf_store; [done|exact Hl|reflexivity..|].
    simpl. intros ch. eapply wf_readers; eauto. }
  set (m2 := set_chans _ _).
  assert (load m2 l = set_closed true (load m l)) as Hload.
  { unfold m2, load, store. simpl. by rewrite lookup_insert_eq. }
  eapply (wf_store m2 l (set_closed true (load m l))).
  - apply wf_set_chans; [exact Hwf1|].
    intros ch. rewrite close_all_chans_lookup, fmap_is_Some. done.
  - unfold m2, store. simpl. by rewrite lookup_insert_eq.
  - by rewrite Hload.
  - by rewrite Hload.
  - by rewrite Hload.
  - by intros ch ?%elem_of_nil.
Qed.

Lemma ClosePort_wf (m : Manager) (name id : string) (d : option error) :
  wf m -> wf (ClosePort m name id d).1.
Proof.
  intros Hwf. unfold ClosePort.
  destruct (sessions m !! name) as [l|] eqn:Hs; [|done].
  case_decide; [|done]. by eapply closeSessionLocked_wf.
Qed.

Lemma CloseAll_wf (m : Manager) : wf m -> wf (CloseAll m).
Proof.
  unfold CloseAll. generalize (map_to_list (sessions m)). intros kvs. revert m.
  induction kvs as [|kv kvs IH]; intros m Hwf; [done|].
  simpl. apply IH. case_decide as Hk; [|done].
  by apply (closeSessionLocked_wf m kv.1 kv.2 None).
Qed.

(** A validated session is allocated. *)
Lemma ValidateSession_heap (m : Manager) (name id : string) (l : loc) :
  wf m -> ValidateSession m name id = Ok l -> heap m !! l = Some (load m l).
Proof.
  intros Hwf (Hs & _)%ValidateSession_Ok. by destruct (wf_lookup _ _ _ Hwf Hs).
Qed.

Lemma Write_wf (m : Manager) (name id : string) (data : bytes)
    (d : Z * option error) (now : Z) :
  wf m -> wf (Write m name id data d now).1.
Proof.
  intros Hwf. unfold Write.
  destruct (ValidateSession m name id) as [l|] eqn:Hv; [|done].
  pose proof (ValidateSession_heap _ _ _ _ Hwf Hv) as Hl.
  destruct d.2; simpl;
    (eapply wf_store; [done|exact Hl|reflexivity..|]);
    simpl; intros ch; by eapply wf_readers.
Qed.

Lemma Read_wf (m : Manager) (name id : string) (mx : Z)
    (d : bytes * option error) (now : Z) :
  wf m -> wf (Read m name id mx d now).1.
Proof.
  intros Hwf. unfold Read.
  destruct (ValidateSession m name id) as [l|] eqn:Hv; [|done].
  pose proof (ValidateSession_heap _ _ _ _ Hwf Hv) as Hl.
  destruct d.2; cbv zeta; cbn [fst].
  - eapply wf_store; [done|exact Hl|reflexivity..|].
    simpl; intros ch; by eapply wf_readers.
  - match goal with |- wf (if ?b then _ else _) => destruct b end.
    + apply wf_set_chans.
      * eapply wf_store; [done|exact Hl|reflexivity..|].
        simpl; intros ch; by eapply wf_readers.
      * intros ch. by rewrite send_all_is_Some.
    + eapply wf_store; [done|exact Hl|reflexivity..|].
      simpl; intros ch; by eapply wf_readers.
Qed.

Lemma Configure_wf (m : Manager) (name id : string) (cfg : PortConfig)
    (d1 d2 : option error) :
  wf m -> wf (Configure m name id cfg d1 d2).1.
Proof.
  intros Hwf. unfold Configure.
  destruct (ValidateSession m name id) as [l|] eqn:Hv; [|done].
  pose proof (ValidateSession_heap _ _ _ _ Hwf Hv) as Hl.
  destruct (Validate cfg); [done|]. destruct d1; [done|].
  destruct (if 0 <? ReadTimeoutMs cfg then _ else _); [done|]. simpl.
  eapply wf_store; [done|exact Hl|reflexivity..|].
  simpl; intros ch; by eapply wf_readers.
Qed.

Lemma SubscribeToReads_wf (m : Manager) (name id : string) :
  wf m -> wf (SubscribeToReads m name id).1.
Proof.
  intros Hwf. unfold SubscribeToReads.
  destruct (ValidateSession m name id) as [l|] eqn:Hv; [|done].
  pose proof (ValidateSession_heap _ _ _ _ Hwf Hv) as Hl.
  cbv zeta; cbn [fst].
  set (ch := fresh (dom (chans m))).
  set (m1 := set_chans _ m).
  assert (wf m1) as Hwf1.
  { apply wf_set_chans; [done|]. intros c Hc. rewrite lookup_insert_is_Some'. by right. }
  eapply (wf_store m1 l (load m l)); [done|exact Hl|reflexivity..|].
  simpl. intros c [Hc|Hc%list_elem_of_singleton]%elem_of_app.
  - rewrite lookup_insert_is_Some'. right. by eapply wf_readers.
  - subst c. rewrite lookup_insert_eq. eauto.
Qed.

Lemma elem_of_delete_index (i : nat) (l : list chan_id) (x : chan_id) :
  x ∈ delete i l -> x ∈ l.
Proof.
  revert i. induction l as [|y l IH]; intros [|i]; simpl; try done.
  - by right.
  - intros [->|?]%elem_of_cons; [by left|right; eauto].
Qed.

Lemma UnsubscribeFromReads_wf (m : Manager) (name id : string) (ch : chan_id) :
  wf m -> wf (UnsubscribeFromReads m name id ch).1.
Proof.
  intros Hwf. unfold UnsubscribeFromReads.
  destruct (ValidateSession m name id) as [l|] eqn:Hv; [|done].
  pose proof (ValidateSession_heap _ _ _ _ Hwf Hv) as Hl.
  destruct (index_of ch (readers (load m l))) as [i|]; [|done].
  cbv zeta; cbn [fst].
  set (m1 := set_chans _ m).
  assert (wf m1) as Hwf1.
  { apply wf_set_chans; [done|]. intros c Hc. by rewrite lookup_alter_is_Some. }
  eapply (wf_store m1 l (load m l)); [done|exact Hl|reflexivity..|].
  simpl. intros c Hc%elem_of_delete_index.
  rewrite lookup_alter_is_Some. by eapply wf_readers.
Qed.

Lemma step_wf (m : Manager) (c : call) : wf m -> wf (step m c).
Proof.
  destruct c; simpl;
    auto using OpenPort_wf, ClosePort_wf, CloseAll_wf, Write_wf, Read_wf,
      Configure_wf, SubscribeToReads_wf, UnsubscribeFromReads_wf.
Qed.

Lemma run_wf (m : Manager) (cs : list call) : wf m -> wf (run m cs).
Proof.
  unfold run. revert m. induction cs as [|c cs IH]; intros m Hwf; [done|].
  simpl. apply IH. by apply step_wf.
Qed.

Lemma reachable_wf (m : Manager) : reachable m -> wf m.
Proof. intros (allow & cfg & cs & ->). apply run_wf, wf_NewManager. Qed.

(** ** Opening a port that is already open (shared access) *)

(** C1, as stated, fails.  COM3 is held by the non-exclusive session "SA"
    and shared access is allowed; a second non-exclusive [OpenPort] does
    not return that session: it returns a new object whose id is "SB", and
    both indexes change. *)
Lemma shared_open_returns_new_session :
  sessions Scenario.m1 !! "COM3" = Some 0%nat /\
  ID (load Scenario.m1 0%nat) = "SA" /\
  Exclusive (load Scenario.m1 0%nat) = false /\
  allowSharedAccess Scenario.m1 = true /\
  (OpenPort Scenario.m1 "COM3" DefaultConfig "b" false Scenario.env_b).2 = Ok 1%nat /\
  ID (load Scenario.m2 1%nat) = "SB" /\
  sessions Scenario.m2 !! "COM3" = Some 1%nat /\
  sessionsByID Scenario.m1 !! "SB" = None /\
  sessionsByID Scenario.m2 !! "SB" = Some 1%nat.
Proof. vm_compute. repeat split. Qed.

Lemma port_locked_shared (m : Manager) (name : string) (l0 : loc) (s0 : Session) :
  sessions m !! name = Some l0 -> heap m !! l0 = Some s0 ->
  Exclusive s0 = false -> allowSharedAccess m = true ->
  port_locked m name false = false.
Proof.
  intros Hs Hl Hex Hal. unfold port_locked.
  by rewrite Hs, (load_Some _ _ _ Hl), Hex, Hal.
Qed.

(** C1 (amended): when the port is held by a non-exclusive session, the
    call is not exclusive and shared access is allowed, [OpenPort] is not
    refused with PortLocked; it goes on as for a port that is not open.
    If the driver fails to open the port or to set the read timeout, the
    error is returned and the manager is unchanged.  Otherwise a new
    Session object with the newly drawn id is created and returned, the
    entry of [sessions] for the port and the entry of [sessionsByID] for
    the new id point to it, and the existing Session object is left as it
    was. *)
Theorem OpenPort_shared_creates_session (m : Manager) (name : string)
    (config : PortConfig) (client : string) (env : OpenEnv)
    (l0 : loc) (s0 : Session) :
  sessions m !! name = Some l0 -> heap m !! l0 = Some s0 ->
  Exclusive s0 = false -> allowSharedAccess m = true ->
  Validate config = None ->
  (OpenPort m name config client false env).2 <> Err ErrPortLocked /\
  (forall e, drv_open env = Err e ->
     OpenPort m name config client false env =
       (m, Err (Wrap "failed to open port %s: %w" e))) /\
  (forall h e, drv_open env = Ok h -> 0 < ReadTimeoutMs config ->
     drv_set_read_timeout env = Some e ->
     OpenPort m name config client false env =
       (m, Err (Wrap "failed to set read timeout: %w" e))) /\
  (forall h, drv_open env = Ok h ->
     ReadTimeoutMs config <= 0 \/ drv_set_read_timeout env = None ->
     exists l m',
       OpenPort m name config client false env = (m', Ok l) /\
       l <> l0 /\ heap m !! l = None /\
       ID (load m' l) = new_uuid env /\
       PortName (load m' l) = name /\
       ClientID (load m' l) = client /\
       closed (load m' l) = false /\
       sessions m' !! name = Some l /\
       sessionsByID m' !! new_uuid env = Some l /\
       heap m' !! l0 = Some s0).
Proof.
  intros Hs Hl Hex Hal Hval.
  pose proof (port_locked_shared _ _ _ _ Hs Hl Hex Hal) as Hlock.
  unfold OpenPort. rewrite Hval, Hlock.
  split; [|split; [|split]].
  - destruct (drv_open env); [|discriminate].
    destruct (if 0 <? ReadTimeoutMs config then _ else _); discriminate.
  - by intros e ->.
  - intros h e -> Hpos ->. by rewrite (proj2 (Z.ltb_lt _ _) Hpos).
  - intros h -> Hto.
    assert ((if 0 <? ReadTimeoutMs config then drv_set_read_timeout env else None)
            = None) as ->.
    { destruct Hto as [Hle| ->]; [|by destruct (0 <? _)].
      by rewrite (proj2 (Z.ltb_ge _ _) Hle). }
    pose proof (fresh_loc_unused m) as Hfresh.
    set (l := fresh (dom (heap m))) in *.
    eexists l, _. split; [reflexivity|].
    assert (l <> l0) as Hne by congruence.
    unfold load; simpl. rewrite !lookup_insert_eq. simpl.
    rewrite lookup_insert_ne by done. done.
Qed.

(** The amended C1 at the second open of the worked example. *)
Lemma OpenPort_shared_creates_session_witness :
  exists l m',
    OpenPort Scenario.m1 "COM3" DefaultConfig "b" false Scenario.env_b = (m', Ok l) /\
    l <> 0%nat /\ ID (load m' l) = "SB" /\ sessions m' !! "COM3" = Some l.
Proof.
  destruct (OpenPort_shared_creates_session Scenario.m1 "COM3" DefaultConfig "b"
              Scenario.env_b 0%nat (load Scenario.m1 0%nat))
    as (_ & _ & _ & H); [reflexivity..|].
  destruct (H 2%nat) as (l & m' & Ho & Hne & _ & Hid & _ & _ & _ & Hs & _);
    [reflexivity|by right|].
  exists l, m'. repeat split; assumption.
Defined.

(** C2 fails after the second open of the worked example: the two calls
    lead from a new manager to a state in which the id "SA" is still a key
    of [sessionsByID] while the entry of [sessions] for its port, COM3,
    points to the session "SB"; the two indexes do not agree. *)
Lemma shared_reopen_orphans_first_session :
  Scenario.m2 = run Scenario.m0 Scenario.shared_calls /\
  sessionsByID Scenario.m2 !! "SA" = Some 0%nat /\
  PortName (load Scenario.m2 0%nat) = "COM3" /\
  sessions Scenario.m2 !! "COM3" = Some 1%nat /\
  ~ indexes_agree Scenario.m2.
Proof.
  split; [reflexivity|]. split; [reflexivity|]. split; [reflexivity|].
  split; [reflexivity|].
  intros [H _]. destruct (H "SA" 0%nat eq_refl) as [_ Hs].
  vm_compute in Hs. discriminate.
Qed.

(** ** Closing a port *)

(** What [closeSessionLocked] does to an allocated session, in one
    piece. *)
Lemma closeSessionLocked_eq (m : Manager) (l : loc) (s : Session)
    (d : option error) :
  heap m !! l = Some s ->
  closeSessionLocked m l d =
    (mkManager (<[l := set_readers [] (set_closed true s)]> (heap m))
       (close_all_chans (readers s) (chans m))
       (delete (PortName s) (sessions m))
       (delete (ID s) (sessionsByID m))
       (allowSharedAccess m) (defaultConfig m),
     match port s with Some _ => d | None => None end).
Proof.
  intros Hl. unfold closeSessionLocked.
  rewrite (load_Some _ _ _ Hl). cbv zeta.
  unfold store, set_chans, set_heap, set_sessions, set_sessionsByID, load; simpl.
  rewrite lookup_insert_eq; simpl. by rewrite insert_insert_eq.
Qed.

(** C3, as stated, fails in its last part.  COM3 is held by the session
    "SB".  A close with the id "wrong" is refused with InvalidSession and
    leaves the state as it was; the close with the id "SB" that follows
    removes the session from both indexes, but it does not succeed when
    the driver fails to close the handle: it returns the driver's
    error. *)
Lemma ClosePort_returns_driver_error :
  ClosePort Scenario.m2 "COM3" "wrong" None
    = (Scenario.m2, Some ErrInvalidSession) /\
  (ClosePort Scenario.m2 "COM3" "SB" (Some Scenario.device_removed)).2
    = Some Scenario.device_removed /\
  sessions (ClosePort Scenario.m2 "COM3" "SB" (Some Scenario.device_removed)).1
    !! "COM3" = None /\
  sessionsByID (ClosePort Scenario.m2 "COM3" "SB" (Some Scenario.device_removed)).1
    !! "SB" = None.
Proof. vm_compute. repeat split. Qed.

(** C3 (amended): in a state that calls have produced, [ClosePort] answers
    PortNotOpen when no session is registered under the name and
    InvalidSession when the registered session has another id, and hands
    back the manager as it was; after such a refusal, [ClosePort] with the
    id of the registered session is carried out: the session is marked
    closed, every subscriber channel is closed and the subscriber list
    emptied, both index entries are gone, and the call returns what the
    driver's [Close] returned (success when the handle closes without
    error). *)
Theorem ClosePort_refusals_leave_state (m : Manager) :
  reachable m ->
  (forall (name id : string) (d : option error),
     sessions m !! name = None ->
     ClosePort m name id d = (m, Some ErrPortNotOpen)) /\
  (forall (name wrong : string) (l : loc) (d : option error),
     sessions m !! name = Some l -> ID (load m l) <> wrong ->
     ClosePort m name wrong d = (m, Some ErrInvalidSession)) /\
  (forall (name wrong : string) (l : loc) (d d' : option error),
     sessions m !! name = Some l -> ID (load m l) <> wrong ->
     let m1 := (ClosePort m name wrong d).1 in
     let r := ClosePort m1 name (ID (load m l)) d' in
     r.2 = d' /\
     sessions r.1 !! name = None /\
     sessionsByID r.1 !! ID (load m l) = None /\
     closed (load r.1 l) = true /\
     readers (load r.1 l) = [] /\
     (forall ch, ch ∈ readers (load m l) ->
        exists c, chans r.1 !! ch = Some c /\ ch_closed c = true)).
Proof.
  intros Hwf%reachable_wf.
  assert (forall name wrong l d, sessions m !! name = Some l ->
            ID (load m l) <> wrong ->
            ClosePort m name wrong d = (m, Some ErrInvalidSession)) as HB.
  { intros name wrong l d Hs Hne. unfold ClosePort. rewrite Hs.
    by rewrite decide_False. }
  split; [|split; [exact HB|]].
  - intros name id d Hs. unfold ClosePort. by rewrite Hs.
  - intros name wrong l d d' Hs Hne. cbv zeta.
    rewrite (HB _ _ _ d Hs Hne). cbn [fst].
    destruct (wf_lookup _ _ _ Hwf Hs) as [Hl Hname].
    unfold ClosePort at 1 2 3 4 5 6. rewrite Hs, decide_True by done.
    rewrite (closeSessionLocked_eq _ _ _ _ Hl). simpl.
    destruct Hwf as (_ & _ & Hc & Hp).
    destruct (Hp _ _ Hl) as [h ->].
    rewrite Hname, !lookup_delete_eq.
    split_and!; try done.
    + unfold load at 1; simpl. by rewrite lookup_insert_eq.
    + unfold load at 1; simpl. by rewrite lookup_insert_eq.
    + intros ch Hin. rewrite close_all_chans_lookup, decide_True by done.
    destruct (Hc _ _ _ Hl Hin) as [c ->]. by exists (close_chan c).
Qed.

(** The amended C3 at the worked example: COM3 is held by the session
    "SB"; a close with the id "wrong" is refused, and the close with "SB"
    that follows, the driver closing the handle without error, returns
    success. *)
Lemma ClosePort_refusals_leave_state_witness :
  ClosePort Scenario.m2 "COM3" "wrong" None = (Scenario.m2, Some ErrInvalidSession) /\
  ClosePort Scenario.m2 "COM9" "SB" None = (Scenario.m2, Some ErrPortNotOpen) /\
  (ClosePort (ClosePort Scenario.m2 "COM3" "wrong" None).1 "COM3" "SB" None).2 = None.
Proof.
  assert (reachable Scenario.m2) as Hr.
  { exists true, DefaultConfig, Scenario.shared_calls. reflexivity. }
  destruct (ClosePort_refusals_leave_state Scenario.m2 Hr) as (HA & HB & HC).
  split; [|split].
  - apply (HB "COM3" "wrong" 1%nat); [reflexivity|discriminate].
  - apply HA. reflexivity.
  - apply (HC "COM3" "wrong" 1%nat None None); [reflexivity|discriminate].
Defined.

(** ** The counter of bytes sent *)

Lemma load_store (m : Manager) (l l' : loc) (s : Session) :
  load (store l' s m) l = if decide (l' = l) then s else load m l.
Proof.
  case_decide as H; [subst; apply load_store_eq|by apply load_store_ne].
Qed.

Lemma sent_store (m : Manager) (l l' : loc) (s : Session) :
  Statistics s = Statistics (load m l') -> sent (store l' s m) l = sent m l.
Proof.
  intros Hs. unfold sent. rewrite load_store. case_decide; [subst|done].
  by rewrite Hs.
Qed.

Lemma sent_OpenPort (m : Manager) (name : string) (cfg : PortConfig)
    (client : string) (ex : bool) (env : OpenEnv) (l : loc) :
  sent (OpenPort m name cfg client ex env).1 l = sent m l.
Proof.
  unfold OpenPort.
  destruct (Validate cfg); [done|].
  destruct (port_locked m name ex); [done|].
  destruct (drv_open env) as [h|]; [|done].
  destruct (if 0 <? ReadTimeoutMs cfg then _ else _); [done|]. simpl.
  unfold sent, load; simpl.
  destruct (decide (fresh (dom (heap m)) = l)) as [<-|Hne].
  - by rewrite lookup_insert_eq, fresh_loc_unused.
  - by rewrite lookup_insert_ne.
Qed.

Lemma sent_closeSessionLocked (m : Manager) (l' : loc) (d : option error) (l : loc) :
  sent (closeSessionLocked m l' d).1 l = sent m l.
Proof.
  unfold closeSessionLocked. cbv zeta. cbn [fst].
  set (m1 := store l' (set_closed true (load m l')) m).
  set (m2 := set_chans _ m1).
  change (sent (store l' (set_readers [] (load m2 l')) m2) l = sent m l).
  rewrite sent_store by done.
  change (sent m1 l = sent m l). unfold m1. by rewrite sent_store.
Qed.

Lemma sent_ClosePort (m : Manager) (name id : string) (d : option error) (l : loc) :
  sent (ClosePort m name id d).1 l = sent m l.
Proof.
  unfold ClosePort. destruct (sessions m !! name); [|done].
  case_decide; [|done]. apply sent_closeSessionLocked.
Qed.

Lemma sent_CloseAll (m : Manager) (l : loc) : sent (CloseAll m) l = sent m l.
Proof.
  unfold CloseAll. generalize (map_to_list (sessions m)). intros kvs. revert m.
  induction kvs as [|kv kvs IH]; intros m; [done|].
  cbn [foldl]. rewrite IH. case_decide; [|done]. apply sent_closeSessionLocked.
Qed.

Lemma sent_Read (m : Manager) (name id : string) (mx : Z)
    (d : bytes * option error) (now : Z) (l : loc) :
  sent (Read m name id mx d now).1 l = sent m l.
Proof.
  unfold Read. destruct (ValidateSession m name id) as [l'|]; [|done].
  destruct d.2; cbv zeta; cbn [fst].
  - unfold sent. rewrite load_store. by case_decide; subst.
  - match goal with |- sent (if ?b then _ else _) l = _ => destruct b end;
      unfold sent; [change (load (set_chans ?c ?m) l) with (load m l)|];
      rewrite load_store; by case_decide; subst.
Qed.

Lemma sent_Configure (m : Manager) (name id : string) (cfg : PortConfig)
    (d1 d2 : option error) (l : loc) :
  sent (Configure m name id cfg d1 d2).1 l = sent m l.
Proof.
  unfold Configure. destruct (ValidateSession m name id) as [l'|]; [|done].
  destruct (Validate cfg); [done|]. destruct d1; [done|].
  destruct (if 0 <? ReadTimeoutMs cfg then _ else _); [done|]. simpl.
  by apply sent_store.
Qed.

Lemma sent_SubscribeToReads (m : Manager) (name id : string) (l : loc) :
  sent (SubscribeToReads m name id).1 l = sent m l.
Proof.
  unfold SubscribeToReads. destruct (ValidateSession m name id) as [l'|]; [|done].
  cbv zeta; cbn [fst]. by rewrite sent_store.
Qed.

Lemma sent_UnsubscribeFromReads (m : Manager) (name id : string) (ch : chan_id)
    (l : loc) :
  sent (UnsubscribeFromReads m name id ch).1 l = sent m l.
Proof.
  unfold UnsubscribeFromReads. destruct (ValidateSession m name id) as [l'|]; [|done].
  destruct (index_of ch (readers (load m l'))); [|done].
  cbv zeta; cbn [fst]. by rewrite sent_store.
Qed.

(** What a [Write] does to the two counters of every session object. *)
Lemma Write_counters (m : Manager) (name id : string) (data : bytes)
    (n : Z) (e : option error) (now : Z) (l : loc) :
  let m' := (Write m name id data (n, e) now).1 in
  match ValidateSession m name id, e with
  | Ok l', None =>
      sent m' l = (if decide (l' = l) then AddUint64 (sent m l) (uint64 n) else sent m l)
      /\ errs m' l = errs m l
  | Ok l', Some _ =>
      sent m' l = sent m l /\
      errs m' l = (if decide (l' = l) then AddUint64 (errs m l) 1 else errs m l)
  | Err _, _ => m' = m
  end.
Proof.
  unfold Write. destruct (ValidateSession m name id) as [l'|]; [|by destruct e].
  destruct e; cbv zeta; cbn [fst snd]; unfold sent, errs; rewrite load_store;
    case_decide; subst; done.
Qed.

(** One call changes the counter of bytes sent only as a successful write
    to that session does. *)
Lemma sent_step (m : Manager) (c : call) (l : loc) :
  sent (step m c) l =
  match write_count l m c with
  | Some n => AddUint64 (sent m l) (uint64 n)
  | None => sent m l
  end.
Proof.
  destruct c as [? ? ? ? ?|? ? ?| |name id data [n e] now|? ? ? ? ?|? ? ? ? ?
                |? ?|? ? ?|? ? ? ?]; simpl;
    auto using sent_OpenPort, sent_ClosePort, sent_CloseAll, sent_Read,
      sent_Configure, sent_SubscribeToReads, sent_UnsubscribeFromReads.
  pose proof (Write_counters m name id data n e now l) as H.
  cbv zeta in H.
  destruct (ValidateSession m name id) as [l'|].
  - destruct e; destruct H as [H _]; rewrite H; [done|]. by case_decide.
  - rewrite H. by destruct e.
Qed.

Lemma AddUint64_uint64 (x n : Z) : AddUint64 x (uint64 n) = (x + n) mod 2 ^ 64.
Proof. unfold AddUint64, uint64. by rewrite Zplus_mod_idemp_r. Qed.

Lemma run_cons (m : Manager) (c : call) (cs : list call) :
  run m (c :: cs) = run (step m c) cs.
Proof. reflexivity. Qed.

Lemma run_app (m : Manager) (cs1 cs2 : list call) :
  run m (cs1 ++ cs2) = run (run m cs1) cs2.
Proof. unfold run. apply foldl_app. Qed.

Lemma write_counts_app (l : loc) (m : Manager) (cs1 cs2 : list call) :
  write_counts l m (cs1 ++ cs2) =
  write_counts l m cs1 ++ write_counts l (run m cs1) cs2.
Proof.
  revert m. induction cs1 as [|c cs1 IH]; intros m; [done|].
  rewrite <- app_comm_cons. cbn [write_counts]. rewrite run_cons, IH.
  by destruct (write_count l m c).
Qed.

Lemma sum_app (xs ys : list Z) : sum (xs ++ ys) = sum xs + sum ys.
Proof. unfold sum. induction xs as [|x xs IH]; simpl; lia. Qed.

Lemma sum_nonneg (xs : list Z) : Forall (Z.le 0) xs -> 0 <= sum xs.
Proof. unfold sum. induction 1; simpl; lia. Qed.

(** After any calls the counter is the sum of the successful write counts,
    taken modulo 2^64. *)
Lemma sent_run (m : Manager) (cs : list call) (l : loc) :
  0 <= sent m l < 2 ^ 64 ->
  sent (run m cs) l = (sent m l + sum (write_counts l m cs)) mod 2 ^ 64.
Proof.
  revert m. induction cs as [|c cs IH]; intros m Hr.
  - simpl. rewrite Z.add_0_r, Z.mod_small; done.
  - rewrite run_cons. pose proof (sent_step m c l) as Hstep.
    cbn [write_counts]. destruct (write_count l m c) as [n|].
    + rewrite AddUint64_uint64 in Hstep. rewrite IH.
      * rewrite Hstep. cbn [sum foldr]. fold (sum (write_counts l (step m c) cs)).
        rewrite Zplus_mod_idemp_l. f_equal. lia.
      * rewrite Hstep. apply Z.mod_pos_bound. lia.
    + rewrite IH; rewrite Hstep; done.
Qed.

Lemma sent_NewManager (allow : bool) (cfg : PortConfig) (l : loc) :
  sent (NewManager allow cfg) l = 0.
Proof. reflexivity. Qed.

Lemma reachable_sent_range (m : Manager) (l : loc) :
  reachable m -> 0 <= sent m l < 2 ^ 64.
Proof.
  intros (allow & cfg & cs & ->).
  rewrite sent_run by (rewrite sent_NewManager; lia).
  apply Z.mod_pos_bound. lia.
Qed.

(** While the counts are non-negative and their sum stays below 2^64, the
    counter is that sum and never goes down. *)
Lemma sent_monotone (m : Manager) (cs1 cs2 : list call) (l : loc) :
  0 <= sent m l ->
  Forall (Z.le 0) (write_counts l m (cs1 ++ cs2)) ->
  sent m l + sum (write_counts l m (cs1 ++ cs2)) < 2 ^ 64 ->
  sent (run m (cs1 ++ cs2)) l = sent m l + sum (write_counts l m (cs1 ++ cs2)) /\
  sent (run m cs1) l <= sent (run m (cs1 ++ cs2)) l.
Proof.
  intros Hpos Hnn Hlt.
  rewrite write_counts_app in Hnn, Hlt. rewrite write_counts_app.
  apply Forall_app in Hnn as [Hn1%sum_nonneg Hn2%sum_nonneg].
  rewrite sum_app in *.
  rewrite (sent_run m cs1), (sent_run m (cs1 ++ cs2)) by lia.
  rewrite write_counts_app, sum_app.
  rewrite !Z.mod_small by lia. lia.
Qed.

(** Overwriting a session by one with the same id and closed flag leaves
    the outcome of the session check as it was; so does a write. *)
Lemma ValidateSession_store (m : Manager) (l : loc) (s : Session)
    (name id : string) :
  ID s = ID (load m l) -> closed s = closed (load m l) ->
  ValidateSession (store l s m) name id = ValidateSession m name id.
Proof.
  intros Hid Hcl. unfold ValidateSession.
  change (sessions (store l s m)) with (sessions m).
  destruct (sessions m !! name) as [l'|]; [|done].
  rewrite load_store. destruct (decide (l = l')) as [->|Hne]; [|done].
  by rewrite Hid, Hcl.
Qed.

Lemma ValidateSession_Write (m : Manager) (name id : string) (data : bytes)
    (d : Z * option error) (now : Z) (name' id' : string) :
  ValidateSession (Write m name id data d now).1 name' id' =
  ValidateSession m name' id'.
Proof.
  unfold Write. destruct (ValidateSession m name id) as [l|]; [|done].
  destruct d.2; cbv zeta; cbn [fst]; by apply ValidateSession_store.
Qed.

(** The worked example of the full counter: after [k] one-byte writes the
    counter is [k] modulo 2^64 and the session still passes the check. *)
Lemma one_byte_writes (k : nat) :
  let m := run Scenario.m1 (repeat Scenario.one_byte_write k) in
  sent m 0%nat = Z.of_nat k mod 2 ^ 64 /\
  ValidateSession m "COM3" "SA" = Ok 0%nat.
Proof.
  cbv zeta.
  assert (forall m, ValidateSession m "COM3" "SA" = Ok 0%nat ->
            ValidateSession (run m (repeat Scenario.one_byte_write k)) "COM3" "SA"
              = Ok 0%nat /\
            write_counts 0%nat m (repeat Scenario.one_byte_write k)
              = repeat 1 k) as H.
  { induction k as [|k IH]; intros m Hv; [done|].
    cbn [repeat]. rewrite run_cons. cbn [write_counts].
    assert (write_count 0%nat m Scenario.one_byte_write = Some 1) as ->.
    { unfold write_count, Scenario.one_byte_write. by rewrite Hv. }
    destruct (IH (step m Scenario.one_byte_write)) as [Hv' ->].
    { unfold Scenario.one_byte_write, step. by rewrite ValidateSession_Write. }
    done. }
  destruct (H Scenario.m1) as [Hv Hc]; [reflexivity|].
  split; [|exact Hv].
  rewrite sent_run by (by vm_compute). rewrite Hc.
  f_equal. change (sent Scenario.m1 0%nat) with 0.
  clear. unfold sum. induction k as [|k IH]; [done|].
  cbn [repeat foldr]. lia.
Qed.

(** C4, as stated, fails.  A client opens COM3 and writes one byte
    2^64 - 1 times, the driver accepting the byte each time: the counter
    stands at 2^64 - 1.  One more successful one-byte write does not
    raise it by one: the 64-bit counter wraps to 0, so it has gone down
    and no longer equals the sum of the write counts. *)
Lemma BytesSent_wraps_at_2_64 :
  sent (run Scenario.m0 Scenario.open_and_fill) 0%nat = 2 ^ 64 - 1 /\
  write_count 0%nat (run Scenario.m0 Scenario.open_and_fill)
    Scenario.one_byte_write = Some 1 /\
  sent (step (run Scenario.m0 Scenario.open_and_fill) Scenario.one_byte_write) 0%nat
    = 0.
Proof.
  unfold Scenario.open_and_fill. rewrite run_cons.
  change (step Scenario.m0 _) with Scenario.m1.
  remember (Z.to_nat (2 ^ 64 - 1)) as k eqn:Hk.
  assert (Z.of_nat k = 2 ^ 64 - 1) as Hof.
  { rewrite Hk. apply Z2Nat.id. lia. }
  clear Hk.
  destruct (one_byte_writes k) as [Hs Hv].
  cbv zeta in Hs, Hv. rewrite Hof in Hs.
  set (m := run Scenario.m1 _) in *.
  assert (write_count 0%nat m Scenario.one_byte_write = Some 1) as Hw.
  { unfold write_count, Scenario.one_byte_write. by rewrite Hv. }
  split; [by rewrite Hs|]. split; [exact Hw|].
  by rewrite sent_step, Hw, Hs.
Qed.

(** C4 (amended): in a state that calls have produced, the counter
    [BytesSent] of a session object is changed by a call only when the
    call is a [Write] that passes the session check for that session and
    whose driver write returns no error; it then becomes the old value
    plus the reported count modulo 2^64.  A [Write] whose driver write
    fails leaves it unchanged and adds one to [Errors] modulo 2^64.  Hence
    after any calls the counter has grown by the sum of the successful
    write counts modulo 2^64; and as long as the counts are non-negative
    and the total stays below 2^64 it has grown by exactly that sum and
    never goes down. *)
Theorem BytesSent_sums_writes_mod_2_64 (m : Manager) (l : loc) :
  reachable m ->
  (forall c, write_count l m c = None -> sent (step m c) l = sent m l) /\
  (forall c n, write_count l m c = Some n ->
     (exists name id data now,
        c = CallWrite name id data (n, None) now /\
        ValidateSession m name id = Ok l /\
        (Write m name id data (n, None) now).2 = (n, None)) /\
     sent (step m c) l = (sent m l + n) mod 2 ^ 64) /\
  (forall name id data n e now,
     ValidateSession m name id = Ok l ->
     let m' := (Write m name id data (n, Some e) now).1 in
     sent m' l = sent m l /\ errs m' l = (errs m l + 1) mod 2 ^ 64) /\
  (forall cs,
     sent (run m cs) l = (sent m l + sum (write_counts l m cs)) mod 2 ^ 64) /\
  (forall cs1 cs2,
     Forall (Z.le 0) (write_counts l m (cs1 ++ cs2)) ->
     sent m l + sum (write_counts l m (cs1 ++ cs2)) < 2 ^ 64 ->
     sent (run m (cs1 ++ cs2)) l = sent m l + sum (write_counts l m (cs1 ++ cs2)) /\
     sent (run m cs1) l <= sent (run m (cs1 ++ cs2)) l).
Proof.
  intros Hr. pose proof (reachable_sent_range m l Hr) as Hrange.
  split_and!.
  - intros c Hc. by rewrite sent_step, Hc.
  - intros c n Hc. split.
    + destruct c as [? ? ? ? ?|? ? ?| |name id data [n' [e|]] now|? ? ? ? ?
                    |? ? ? ? ?|? ?|? ? ?|? ? ? ?]; try discriminate.
      simpl in Hc. destruct (ValidateSession m name id) as [l'|] eqn:Hv;
        [|discriminate].
      case_decide; [|discriminate]. injection Hc as ->. subst l'.
      exists name, id, data, now. split; [done|]. split; [done|].
      unfold Write. by rewrite Hv.
    + by rewrite sent_step, Hc, AddUint64_uint64.
  - intros name id data n e now Hv. cbv zeta.
    pose proof (Write_counters m name id data n (Some e) now l) as H.
    cbv zeta in H. rewrite Hv in H. destruct H as [-> ->].
    by rewrite decide_True.
  - intros cs. by apply sent_run.
  - intros cs1 cs2. apply sent_monotone. lia.
Qed.

(** The amended C4 at the worked example: after the first open, three
    writes that the driver accepts with 2, 0 and 5 bytes. *)
Lemma BytesSent_sums_writes_mod_2_64_witness :
  sent (run Scenario.m1
          [ CallWrite "COM3" "SA" [x48; x49] (2, None) 1;
            CallWrite "COM3" "SA" [] (0, None) 2;
            CallWrite "COM3" "SA" [x00; x01; x02; x03; x04] (5, None) 3 ]) 0%nat
  = 7.
Proof.
  assert (reachable Scenario.m1) as Hr.
  { exists true, DefaultConfig,
      [CallOpenPort "COM3" DefaultConfig "a" false Scenario.env_a]. reflexivity. }
  destruct (BytesSent_sums_writes_mod_2_64 Scenario.m1 0%nat Hr)
    as (_ & _ & _ & H & _).
  rewrite H. reflexivity.
Defined.

(** ** Regular expressions: the matcher decides the language *)

Lemma nullable_matches (r : re) : nullable r = true <-> matches r [].
Proof.
  induction r as [| |p|r1 IH1 r2 IH2|r1 IH1 r2 IH2|r IH]; simpl.
  - split; [discriminate|]. inversion 1.
  - split; [constructor|done].
  - split; [discriminate|]. inversion 1.
  - rewrite andb_true_iff, IH1, IH2. split.
    + intros [H1 H2]. apply (m_cat _ _ [] [] H1 H2).
    + inversion 1 as [| |? ? u v H1 H2 [E1 E2] E| | | |]; subst.
      apply app_eq_nil in E as [-> ->]. done.
  - rewrite orb_true_iff, IH1, IH2. split.
    + intros [H|H]; [by apply m_alt_l|by apply m_alt_r].
    + inversion 1; subst; auto.
  - split; [constructor|done].
Qed.

Lemma matches_star_cons_inv (r : re) (c : ascii) (s : list ascii) :
  matches (Star r) (c :: s) ->
  exists u v, s = u ++ v /\ matches r (c :: u) /\ matches (Star r) v.
Proof.
  intros H. remember (Star r) as r' eqn:Er. remember (c :: s) as w eqn:Ew.
  revert s Ew.
  induction H as [| | | | | |r0 u v H1 _ H2 IH2]; intros t Ew; try discriminate.
  injection Er as ->. destruct u as [|c' u'].
  - simpl in Ew. by apply IH2.
  - injection Ew as -> <-. eauto.
Qed.

Lemma deriv_matches (c : ascii) (r : re) (s : list ascii) :
  matches (deriv c r) s <-> matches r (c :: s).
Proof.
  revert s. induction r as [| |p|r1 IH1 r2 IH2|r1 IH1 r2 IH2|r IH];
    intros s; simpl.
  - split; inversion 1.
  - split; inversion 1.
  - destruct (p c) eqn:Hp; split; inversion 1; subst.
    + by constructor.
    + constructor.
    + congruence.
  - split.
    + intros H.
      assert (matches (Cat (deriv c r1) r2) s -> matches (Cat r1 r2) (c :: s)) as HL.
      { inversion 1 as [| |? ? u v H1 H2| | | |]; subst.
        apply IH1 in H1. apply (m_cat _ _ (c :: u) v H1 H2). }
      destruct (nullable r1) eqn:Hn; [|by apply HL].
      inversion H; subst; [by apply HL|].
      apply (m_cat _ _ [] (c :: s)); [by apply nullable_matches|by apply IH2].
    + inversion 1 as [| |? ? u v H1 H2 [E1 E2] E| | | |]; subst.
      destruct u as [|c' u'].
      * simpl in E. subst v. apply nullable_matches in H1. rewrite H1.
        apply m_alt_r. by apply IH2.
      * injection E as -> <-.
        assert (matches (Cat (deriv c r1) r2) (u' ++ v)) as HC.
        { constructor; [by apply IH1|done]. }
        destruct (nullable r1); [by apply m_alt_l|done].
  - split.
    + inversion 1; subst; [apply m_alt_l; by apply IH1|apply m_alt_r; by apply IH2].
    + inversion 1; subst; [apply m_alt_l; by apply IH1|apply m_alt_r; by apply IH2].
  - split.
    + inversion 1 as [| |? ? u v H1 H2| | | |]; subst.
      apply IH in H1. apply (m_star_cons _ (c :: u) v H1 H2).
    + intros (u & v & -> & H1 & H2)%matches_star_cons_inv.
      constructor; [by apply IH|done].
Qed.

Lemma accepts_matches (r : re) (s : list ascii) :
  accepts r s = true <-> matches r s.
Proof.
  revert r. induction s as [|c s IH]; intros r; simpl.
  - apply nullable_matches.
  - rewrite IH. apply deriv_matches.
Qed.

Lemma matches_star_any (s : list ascii) : matches (Star any) s.
Proof.
  induction s as [|c s IH]; [constructor|].
  apply (m_star_cons _ [c] s); [by constructor|done].
Qed.

Lemma matches_cat (r1 r2 : re) (s : list ascii) :
  matches (Cat r1 r2) s <->
  exists u v, s = u ++ v /\ matches r1 u /\ matches r2 v.
Proof.
  split.
  - inversion 1; subst; eauto.
  - intros (u & v & -> & H1 & H2). by constructor.
Qed.

Lemma matches_alt (r1 r2 : re) (s : list ascii) :
  matches (Alt r1 r2) s <-> matches r1 s \/ matches r2 s.
Proof.
  split.
  - inversion 1; subst; auto.
  - intros [H|H]; [by apply m_alt_l|by apply m_alt_r].
Qed.

Lemma matches_class (p : ascii -> bool) (s : list ascii) :
  matches (Class p) s <-> exists c, s = [c] /\ p c = true.
Proof.
  split.
  - inversion 1; subst; eauto.
  - intros (c & -> & Hp). by constructor.
Qed.

Lemma matches_eps (s : list ascii) : matches Eps s <-> s = [].
Proof. split; [by inversion 1|intros ->; constructor]. Qed.

Lemma matches_lit (w s : list ascii) : matches (lit w) s <-> s = w.
Proof.
  revert s. induction w as [|c w IH]; intros s; simpl.
  - apply matches_eps.
  - rewrite matches_cat. split.
    + intros (u & v & -> & (c' & -> & Hc)%matches_class & Hv%IH).
      apply Ascii.eqb_eq in Hc. by subst.
    + intros ->. exists [c], w. split; [done|]. split; [|by apply IH].
      apply matches_class. exists c. split; [done|]. apply Ascii.eqb_refl.
Qed.

Lemma matches_lit_i (w s : list ascii) :
  matches (lit_i w) s <-> lower <$> s = lower <$> w.
Proof.
  revert s. induction w as [|c w IH]; intros s; simpl.
  - rewrite matches_eps. split; [by intros ->|]. by destruct s.
  - rewrite matches_cat. split.
    + intros (u & v & -> & (c' & -> & Hc)%matches_class & Hv%IH).
      apply Ascii.eqb_eq in Hc. simpl. by f_equal.
    + destruct s as [|c' s]; [done|]. simpl. intros [= Hc Hs].
      exists [c'], s. split; [done|]. split; [|by apply IH].
      apply matches_class. exists c'. split; [done|]. by apply Ascii.eqb_eq.
Qed.

Lemma matches_star_dot (s : list ascii) :
  matches (Star dot) s <-> "010"%char ∉ s.
Proof.
  split.
  - intros H. remember (Star dot) as r eqn:Er.
    induction H as [| | | | | |r0 u v H1 _ H2 IH2]; try discriminate.
    + apply not_elem_of_nil.
    + injection Er as ->. apply matches_class in H1 as (c & -> & Hc).
      apply negb_true_iff, Ascii.eqb_neq in Hc.
      simpl. apply not_elem_of_cons. split; [congruence|by apply IH2].
  - induction s as [|c s IH]; [constructor|].
    intros [Hc Hs]%not_elem_of_cons.
    apply (m_star_cons _ [c] s); [|by apply IH].
    apply matches_class. exists c. split; [done|].
    apply negb_true_iff, Ascii.eqb_neq. congruence.
Qed.

(** An unanchored search finds the pattern exactly when some part of the
    input is in its language. *)
Lemma MatchString_iff (pattern : re) (s : string) :
  MatchString pattern s = true <->
  exists pre mid post : list ascii,
    chars s = pre ++ mid ++ post /\ matches pattern mid.
Proof.
  unfold MatchString, chars. rewrite accepts_matches, matches_cat. split.
  - intros (pre & v & -> & _ & (mid & post & -> & Hm & _)%matches_cat). eauto.
  - intros (pre & mid & post & -> & Hm).
    exists pre, (mid ++ post). split; [done|]. split; [apply matches_star_any|].
    apply matches_cat. exists mid, post. auto using matches_star_any.
Qed.

Lemma MatchString_str (w s : string) :
  MatchString (str w) s = true <-> occurs (chars w) (chars s).
Proof.
  rewrite MatchString_iff. unfold occurs, str, chars. split.
  - intros (pre & mid & post & -> & ->%matches_lit). eauto.
  - intros (pre & post & ->). exists pre, (list_ascii_of_string w), post.
    split; [done|]. by apply matches_lit.
Qed.

Lemma MatchString_str_i (w s : string) :
  MatchString (str_i w) s = true <-> occurs_i (chars w) (chars s).
Proof.
  rewrite MatchString_iff. unfold occurs_i, str_i, chars. split.
  - intros (pre & mid & post & -> & Hm%matches_lit_i). eauto.
  - intros (pre & mid & post & -> & Hm). exists pre, mid, post.
    split; [done|]. by apply matches_lit_i.
Qed.

Lemma MatchString_Alt (r1 r2 : re) (s : string) :
  MatchString (Alt r1 r2) s = MatchString r1 s || MatchString r2 s.
Proof.
  apply eq_true_iff_eq. rewrite orb_true_iff, !MatchString_iff. split.
  - intros (pre & mid & post & E & [H|H]%matches_alt); [left|right]; eauto.
  - intros [(pre & mid & post & E & H)|(pre & mid & post & E & H)];
      exists pre, mid, post; (split; [done|]); apply matches_alt; auto.
Qed.

(** ** Port type classification *)

Lemma MatchString_windows_bluetooth (name : string) :
  MatchString pat_windows_bluetooth name = true <->
  occurs_i (chars "bluetooth") (chars name) \/ occurs_i (chars "bth") (chars name).
Proof.
  unfold pat_windows_bluetooth.
  by rewrite MatchString_Alt, orb_true_iff, !MatchString_str_i.
Qed.

Lemma MatchString_linux_virtual (name : string) :
  MatchString pat_linux_virtual name = true <->
  occurs (chars "/dev/pts/") (chars name) \/ occurs (chars "/dev/pty") (chars name).
Proof.
  unfold pat_linux_virtual.
  by rewrite MatchString_Alt, orb_true_iff, !MatchString_str.
Qed.

Lemma MatchString_darwin_bluetooth (name : string) :
  MatchString pat_darwin_bluetooth name = true <->
  exists pre mid post : list ascii,
    chars name = pre ++ chars "/dev/" ++ mid ++ chars "Bluetooth" ++ post /\
    "010"%char ∉ mid.
Proof.
  unfold pat_darwin_bluetooth. rewrite MatchString_iff. split.
  - intros (pre & w & post & E & (u & v & -> & ->%matches_lit & Hv)%matches_cat).
    apply matches_cat in Hv as (mid & b & -> & Hmid%matches_star_dot & ->%matches_lit).
    exists pre, mid, post. split; [|done]. rewrite E. by rewrite <- !app_assoc.
  - intros (pre & mid & post & E & Hmid).
    exists pre, (chars "/dev/" ++ mid ++ chars "Bluetooth"), post. split.
    + rewrite E. by rewrite <- !app_assoc.
    + apply matches_cat. exists (chars "/dev/"), (mid ++ chars "Bluetooth").
      split; [done|]. split; [by apply matches_lit|].
      apply matches_cat. exists mid, (chars "Bluetooth").
      split; [done|]. split; [by apply matches_star_dot|by apply matches_lit].
Qed.

(** The Bluetooth test of [detectPortType] holds exactly for the
    Bluetooth names. *)
Lemma bluetooth_test_iff (GOOS name : string) :
  (if String.eqb GOOS "windows" then MatchString pat_windows_bluetooth name
   else if String.eqb GOOS "linux" then MatchString pat_linux_bluetooth name
   else if String.eqb GOOS "darwin" then MatchString pat_darwin_bluetooth name
   else false) = true <-> bluetooth_name GOOS name.
Proof.
  unfold bluetooth_name.
  destruct (String.eqb_spec GOOS "windows") as [->|Hw].
  { rewrite MatchString_windows_bluetooth. split; [auto|].
    intros [[_ H]|[[? _]|[? _]]]; done. }
  destruct (String.eqb_spec GOOS "linux") as [->|Hl].
  { unfold pat_linux_bluetooth. rewrite MatchString_str. split; [auto|].
    intros [[? _]|[[_ H]|[? _]]]; done. }
  destruct (String.eqb_spec GOOS "darwin") as [->|Hd].
  { rewrite MatchString_darwin_bluetooth. split; [auto|].
    intros [[? _]|[[? _]|[_ H]]]; done. }
  split; [done|]. intros [[? _]|[[? _]|[? _]]]; done.
Qed.

Lemma virtual_test_iff (GOOS name : string) :
  String.eqb GOOS "linux" && MatchString pat_linux_virtual name = true <->
  virtual_name GOOS name.
Proof.
  unfold virtual_name.
  by rewrite andb_true_iff, String.eqb_eq, MatchString_linux_virtual.
Qed.

(** For a device path (a name that starts with "/dev/" and has no line
    feed), the macOS pattern asks no more than that "Bluetooth" occurs in
    what follows "/dev/". *)
Lemma darwin_bluetooth_device_path (name : string) (rest : list ascii) :
  chars name = chars "/dev/" ++ rest -> "010"%char ∉ rest ->
  bluetooth_name "darwin" name <-> occurs (chars "Bluetooth") rest.
Proof.
  intros Ename Hnl. unfold bluetooth_name. split.
  - intros [[? _]|[[? _]|[_ (pre & mid & post & E & _)]]]; [done..|].
    rewrite Ename in E.
    set (X := mid ++ chars "Bluetooth" ++ post) in *.
    assert (X `suffix_of` rest) as [k Hk].
    { destruct (suffix_weak_total X rest (chars "/dev/" ++ rest)) as [H|H].
      - rewrite E. exists (pre ++ chars "/dev/"). by rewrite <- app_assoc.
      - by exists (chars "/dev/").
      - done.
      - apply suffix_length_eq in H; [by rewrite H|].
        apply (f_equal length) in E. rewrite !length_app in E.
        change (length (chars "/dev/")) with 5%nat in E. lia. }
    exists (k ++ mid), post. rewrite Hk. unfold X. by rewrite <- app_assoc.
  - intros (p & q & ->). right; right. split; [done|].
    exists [], p, q. split; [by rewrite Ename|].
    intros Hin. apply Hnl. apply elem_of_app. by left.
Qed.

(** C6: a port that the driver marks as USB is USB; any other port is
    BLUETOOTH when its name is a Bluetooth name for the operating system
    (Windows: "bluetooth" or "bth" in any case; Linux: "/dev/rfcomm";
    macOS: "/dev/" followed on the same line by "Bluetooth", which for a
    device path means that "Bluetooth" occurs in it), otherwise VIRTUAL on
    Linux when the name contains "/dev/pts/" or "/dev/pty", otherwise
    NATIVE.  COM7 with the USB flag is USB whatever the system; on Linux
    /dev/rfcomm0 is BLUETOOTH and /dev/pts/3 is VIRTUAL; and /dev/ttyS0 is
    NATIVE whatever the system. *)
Theorem detectPortType_classifies (GOOS : string) (port : PortDetails) :
  (IsUSB port = true -> detectPortType GOOS port = PortTypeUSB) /\
  (IsUSB port = false -> bluetooth_name GOOS (Name port) ->
     detectPortType GOOS port = PortTypeBluetooth) /\
  (IsUSB port = false -> ~ bluetooth_name GOOS (Name port) ->
     virtual_name GOOS (Name port) ->
     detectPortType GOOS port = PortTypeVirtual) /\
  (IsUSB port = false -> ~ bluetooth_name GOOS (Name port) ->
     ~ virtual_name GOOS (Name port) ->
     detectPortType GOOS port = PortTypeNative) /\
  (forall rest : list ascii,
     chars (Name port) = chars "/dev/" ++ rest -> "010"%char ∉ rest ->
     bluetooth_name "darwin" (Name port) <-> occurs (chars "Bluetooth") rest) /\
  detectPortType GOOS Scenario.port_COM7_usb = PortTypeUSB /\
  detectPortType "linux" Scenario.port_rfcomm0 = PortTypeBluetooth /\
  detectPortType "linux" Scenario.port_pts3 = PortTypeVirtual /\
  detectPortType GOOS Scenario.port_ttyS0 = PortTypeNative.
Proof.
  pose proof (bluetooth_test_iff GOOS (Name port)) as Hbt.
  pose proof (virtual_test_iff GOOS (Name port)) as Hvt.
  unfold detectPortType. split_and!.
  - by intros ->.
  - intros -> Hb. apply Hbt in Hb. by rewrite Hb.
  - intros -> Hb Hv. apply Hvt in Hv. rewrite Hv.
    destruct (if String.eqb GOOS "windows" then _ else _); [|done].
    by destruct Hb; apply Hbt.
  - intros -> Hb Hv.
    destruct (if String.eqb GOOS "windows" then _ else _).
    { by destruct Hb; apply Hbt. }
    destruct (String.eqb GOOS "linux" && _); [|done].
    by destruct Hv; apply Hvt.
  - apply darwin_bluetooth_device_path.
  - reflexivity.
  - reflexivity.
  - reflexivity.
  - clear Hbt Hvt.
    change (IsUSB Scenario.port_ttyS0) with false.
    change (Name Scenario.port_ttyS0) with "/dev/ttyS0".
    assert (MatchString pat_windows_bluetooth "/dev/ttyS0" = false) as ->
      by reflexivity.
    assert (MatchString pat_linux_bluetooth "/dev/ttyS0" = false) as ->
      by reflexivity.
    assert (MatchString pat_darwin_bluetooth "/dev/ttyS0" = false) as ->
      by reflexivity.
    assert (MatchString pat_linux_virtual "/dev/ttyS0" = false) as ->
      by reflexivity.
    rewrite andb_false_r.
    by destruct (String.eqb GOOS "windows"), (String.eqb GOOS "linux"),
      (String.eqb GOOS "darwin").
Qed.

(** ** The streaming reader: start, stop and subscribe *)

Lemma Stop_idempotent (r : Reader) : Stop (Stop r) = Stop r.
Proof.
  unfold Stop at 2 3. destruct (running r) eqn:E; simpl.
  - reflexivity.
  - unfold Stop. by rewrite E.
Qed.

Lemma Start_running (r : Reader) (m : Manager) :
  running r = true -> Start r m = (r, None).
Proof. unfold Start. by intros ->. Qed.

Lemma running_Stop (r : Reader) : running (Stop r) = false.
Proof. unfold Stop. by destruct (running r) eqn:E. Qed.

(** C7, as stated, fails in its last part.  A reader is started and
    stopped; [Subscribe] on the stopped reader is not a no-op and does not
    yield a closed channel: the subscriber list grows by the new channel,
    and that channel is open. *)
Lemma Subscribe_after_Stop_opens_channel :
  running Scenario.reader_started = true /\
  running Scenario.reader_stopped = false /\
  subscribers Scenario.reader_stopped = [] /\
  subscribers (Subscribe Scenario.reader_stopped).1
    = [(Subscribe Scenario.reader_stopped).2] /\
  ch_closed <$> subs (Subscribe Scenario.reader_stopped).1
                  !! (Subscribe Scenario.reader_stopped).2 = Some false.
Proof. vm_compute. repeat split. Qed.

(** C7 (amended): [Stop] is idempotent; [Start] on a running reader
    returns success and changes nothing, so no second read loop is
    spawned; and [Subscribe] after [Stop] behaves like any other
    [Subscribe]: it makes a new, open and empty channel of capacity 100,
    appends it to the subscribers and returns it.  The reader stays
    stopped, and a further [Stop] leaves that channel open. *)
Theorem Stop_idempotent_Start_noop_Subscribe_opens (r : Reader) (m : Manager) :
  Stop (Stop r) = Stop r /\
  (running r = true ->
     Start r m = (r, None) /\ spawned (Start r m).1 = spawned r) /\
  (let r' := (Subscribe (Stop r)).1 in
   let ch := (Subscribe (Stop r)).2 in
   subs (Stop r) !! ch = None /\
   subs r' !! ch = Some (mkChan [] 100 false) /\
   subscribers r' = subscribers (Stop r) ++ [ch] /\
   running r' = false /\
   Stop r' = r').
Proof.
  split; [apply Stop_idempotent|]. split.
  - intros Hr. by rewrite Start_running.
  - cbv zeta. unfold Subscribe; cbn [fst snd].
    set (r0 := Stop r). pose proof (running_Stop r) as Hst. fold r0 in Hst.
    split_and!.
    + apply not_elem_of_dom, is_fresh.
    + cbn. apply lookup_insert_eq.
    + reflexivity.
    + exact Hst.
    + unfold Stop at 1. cbn. by rewrite Hst.
Qed.

(** ** The read loop: sequence numbers and order of delivery *)

(** *** Every reader is well formed *)

Lemma reader_wf_NewReader (p i : string) (b : Z) : reader_wf (NewReader p i b).
Proof.
  split; [constructor|]. intros ch Hin. by apply elem_of_nil in Hin.
Qed.

Lemma reader_wf_Start (r : Reader) (m : Manager) :
  reader_wf r -> reader_wf (Start r m).1.
Proof.
  unfold Start. destruct (running r); [done|].
  by destruct (ValidateSession m (portName r) (sessionID r)).
Qed.

Lemma reader_wf_Stop (r : Reader) : reader_wf r -> reader_wf (Stop r).
Proof.
  unfold Stop. destruct (running r); [|done]. intros _. split; [constructor|].
  intros ch Hin. by apply elem_of_nil in Hin.
Qed.

Lemma reader_wf_Subscribe (r : Reader) : reader_wf r -> reader_wf (Subscribe r).1.
Proof.
  intros [Hnd Hsub]. unfold Subscribe; cbn [fst].
  pose proof (is_fresh (dom (subs r))) as Hfresh.
  set (ch := fresh (dom (subs r))) in *.
  assert (ch ∉ subscribers r) as Hnin.
  { intros (c & Hc & _)%Hsub. apply Hfresh, elem_of_dom. eauto. }
  split; cbn.
  - apply NoDup_app. split; [done|]. split; [|apply NoDup_singleton].
    intros x Hx ->%list_elem_of_singleton. done.
  - intros x [Hx| ->%list_elem_of_singleton]%elem_of_app.
    + destruct (Hsub x Hx) as (c & Hc & Hcl). exists c.
      rewrite lookup_insert_ne; [done|]. intros ->. done.
    + rewrite lookup_insert_eq. eauto.
Qed.

Lemma index_of_Some (ch : chan_id) (l : list chan_id) (i : nat) :
  index_of ch l = Some i -> l !! i = Some ch.
Proof.
  revert i. induction l as [|x l IH]; intros i; simpl; [done|].
  case_decide as Hx; [by intros [= <-]; subst|].
  destruct (index_of ch l) as [j|]; [|done]. intros [= <-]. by apply IH.
Qed.

Lemma NoDup_delete_index (l : list chan_id) (i : nat) (x : chan_id) :
  NoDup l -> l !! i = Some x ->
  NoDup (delete i l) /\ x ∉ delete i l.
Proof.
  revert i. induction l as [|y l IH]; intros i Hnd Hi; [done|].
  apply NoDup_cons in Hnd as [Hy Hnd].
  destruct i as [|i]; simpl in *.
  - injection Hi as ->. done.
  - destruct (IH i Hnd Hi) as [H1 H2]. split.
    + apply NoDup_cons. split; [|done]. intros ?%elem_of_delete_index. done.
    + apply not_elem_of_cons. split; [|done].
      intros ->. apply Hy. by eapply list_elem_of_lookup_2.
Qed.

Lemma reader_wf_Unsubscribe (r : Reader) (ch : chan_id) :
  reader_wf r -> reader_wf (Unsubscribe r ch).
Proof.
  intros [Hnd Hsub]. unfold Unsubscribe.
  destruct (index_of ch (subscribers r)) as [i|] eqn:Hi; [|done].
  apply index_of_Some in Hi.
  destruct (NoDup_delete_index _ _ _ Hnd Hi) as [Hnd' Hnin].
  split; cbn; [done|].
  intros x Hx. assert (x <> ch) as Hne by (intros ->; done).
  rewrite lookup_alter_ne by done. apply Hsub. by eapply elem_of_delete_index.
Qed.

Lemma send_all_lookup {A : Type} (v : A) (ids : list chan_id)
    (cs : gmap chan_id (Chan A)) (ch : chan_id) :
  NoDup ids ->
  send_all v ids cs !! ch =
  (if decide (ch ∈ ids) then try_send v else id) <$> cs !! ch.
Proof.
  unfold send_all. revert cs.
  induction ids as [|x ids IH]; intros cs Hnd.
  - destruct (decide (ch ∈ [])) as [Hin|Hin]; [by apply elem_of_nil in Hin|].
    simpl. by destruct (cs !! ch).
  - apply NoDup_cons in Hnd as [Hx Hnd].
    change (foldl _ cs (x :: ids)) with
      (foldl (fun acc c => alter (try_send v) c acc) (alter (try_send v) x cs) ids).
    rewrite IH by done. destruct (decide (x = ch)) as [->|Hne].
    + rewrite lookup_alter_eq.
      rewrite (decide_True (P := ch ∈ ch :: ids)) by left.
      rewrite (decide_False (P := ch ∈ ids)) by done.
      by destruct (cs !! ch).
    + rewrite lookup_alter_ne by done.
      destruct (decide (ch ∈ ids)).
      * rewrite decide_True; [done|by right].
      * rewrite decide_False; [done|].
        intros [?|?]%elem_of_cons; congruence.
Qed.

Lemma try_send_buf {A : Type} (v : A) (c : Chan A) :
  ch_closed (try_send v c) = ch_closed c /\
  (ch_buf (try_send v c) = ch_buf c ++ [v] \/ ch_buf (try_send v c) = ch_buf c).
Proof.
  unfold try_send. destruct (ch_closed c) eqn:Hc; [auto|].
  destruct (length (ch_buf c) <? ch_cap c)%nat; simpl; auto.
Qed.

Lemma reader_wf_broadcast (r : Reader) (e : DataEvent) :
  reader_wf r -> reader_wf (broadcast r e).
Proof.
  intros [Hnd Hsub]. split; cbn; [done|].
  intros ch Hin. destruct (Hsub ch Hin) as (c & Hc & Hcl).
  rewrite send_all_lookup, Hc by done. simpl.
  eexists. split; [done|]. rewrite decide_True by done.
  by rewrite (proj1 (try_send_buf e c)).
Qed.

Lemma queued_broadcast (r : Reader) (e : DataEvent) (ch : chan_id) :
  reader_wf r ->
  queued (broadcast r e) ch = queued r ch ++ [e] \/
  queued (broadcast r e) ch = queued r ch.
Proof.
  intros [Hnd _]. unfold queued, broadcast; cbn.
  rewrite send_all_lookup by done.
  destruct (subs r !! ch) as [c|]; simpl; [|by right].
  case_decide; [|by right]. apply try_send_buf.
Qed.

Lemma queued_Stop (r : Reader) (ch : chan_id) : queued (Stop r) ch = queued r ch.
Proof.
  unfold Stop. destruct (running r); [|done]. unfold queued; cbn.
  rewrite close_all_chans_lookup. destruct (subs r !! ch) as [c|]; simpl; [|done].
  by case_decide.
Qed.

Lemma queued_Subscribe (r : Reader) (ch : chan_id) :
  queued (Subscribe r).1 ch = queued r ch.
Proof.
  unfold Subscribe, queued; cbn.
  destruct (decide (fresh (dom (subs r)) = ch)) as [<-|Hne].
  - rewrite lookup_insert_eq.
    by rewrite (proj1 (not_elem_of_dom _ _) (is_fresh (dom (subs r)))).
  - by rewrite lookup_insert_ne.
Qed.

Lemma queued_Unsubscribe (r : Reader) (ch' ch : chan_id) :
  queued (Unsubscribe r ch') ch = queued r ch.
Proof.
  unfold Unsubscribe. destruct (index_of ch' (subscribers r)); [|done].
  unfold queued; cbn. destruct (decide (ch' = ch)) as [->|Hne].
  - rewrite lookup_alter_eq. by destruct (subs r !! ch).
  - by rewrite lookup_alter_ne.
Qed.

(** A receive takes the oldest queued event off its channel and leaves
    the other channels alone. *)
Lemma receive_queued (r : Reader) (ch' ch : chan_id) :
  match (receive r ch').2 with
  | Some e =>
      queued r ch' = e :: queued (receive r ch').1 ch' /\
      (ch <> ch' -> queued (receive r ch').1 ch = queued r ch)
  | None => (receive r ch').1 = r
  end.
Proof.
  unfold receive, queued, try_recv.
  destruct (subs r !! ch') as [c|] eqn:Hc; [|done].
  destruct (ch_buf c) as [|e rest] eqn:Hb.
  - by destruct (ch_closed c).
  - cbn. rewrite lookup_insert_eq. split; [done|].
    intros Hne. by rewrite lookup_insert_ne.
Qed.

Lemma reader_wf_receive (r : Reader) (ch : chan_id) :
  reader_wf r -> reader_wf (receive r ch).1.
Proof.
  intros [Hnd Hsub]. unfold receive, try_recv.
  destruct (subs r !! ch) as [c|] eqn:Hc; [|done].
  destruct (ch_buf c) as [|e rest] eqn:Hb; [by destruct (ch_closed c)|].
  split; cbn; [done|]. intros x Hx.
  destruct (Hsub x Hx) as (c0 & Hc0 & Hcl).
  destruct (decide (ch = x)) as [->|Hne].
  - rewrite lookup_insert_eq. eexists; split; [done|]. simpl. congruence.
  - rewrite lookup_insert_ne by done. eauto.
Qed.

(** *** One step of the loop *)

Lemma Sequence_make_event (res : result bytes) (now seq : Z) :
  Sequence (make_event res now seq) = seq.
Proof. by destruct res. Qed.

(** A step of the loop either publishes nothing and leaves counter and
    queues alone, or publishes one event that carries the counter plus
    one, stores that number, and appends the event to some queues. *)
Lemma loop_step_cases (r : Reader) (m : Manager) (lp : Loop) (sel : SelectEnv)
    (drv : bytes * option error) (now : Z)
    (r' : Reader) (m' : Manager) (lp' : Loop) (ev : option DataEvent) :
  loop_step r m lp sel drv now = (r', m', lp', ev) ->
  reader_wf r ->
  reader_wf r' /\
  match ev with
  | None =>
      sequence lp' = sequence lp /\ forall ch, queued r' ch = queued r ch
  | Some e =>
      Sequence e = AddUint32 (sequence lp) 1 /\
      sequence lp' = Sequence e /\
      forall ch, queued r' ch = queued r ch ++ [e] \/ queued r' ch = queued r ch
  end.
Proof.
  unfold loop_step. intros Hstep Hwf. destruct (pc lp) as [|res|].
  - unfold loop_read in Hstep.
    destruct (negb (running r)); [by injection Hstep as <- <- <- <-|].
    destruct (ctx_done sel && _).
    { injection Hstep as <- <- <- <-. split; [by apply reader_wf_Stop|].
      split; [done|]. intros ch. apply queued_Stop. }
    destruct (stopClosed r); [by injection Hstep as <- <- <- <-|].
    destruct (Read m _ _ _ _ _) as [m1 res].
    by injection Hstep as <- <- <- <-.
  - unfold loop_publish in Hstep.
    destruct (no_data res); [by injection Hstep as <- <- <- <-|].
    set (e := make_event res now (AddUint32 (sequence lp) 1)) in *.
    assert (Sequence e = AddUint32 (sequence lp) 1) as He
      by apply Sequence_make_event.
    pose proof (reader_wf_broadcast r e Hwf) as Hwf1.
    destruct (fatal res); injection Hstep as <- <- <- <-.
    + split; [by apply reader_wf_Stop|]. split; [done|]. split; [done|].
      intros ch. rewrite queued_Stop. by apply queued_broadcast.
    + split; [done|]. split; [done|]. split; [done|].
      intros ch. by apply queued_broadcast.
  - by injection Hstep as <- <- <- <-.
Qed.

(** *** One step of the system *)

Lemma sys_step_wf (s : System) (a : action) :
  reader_wf (sys_reader s) -> reader_wf (sys_reader (sys_step s a).1).
Proof.
  intros Hwf. destruct a as [sel drv now| |ch| |ch|c]; simpl.
  - destruct (loop_step _ _ _ _ _ _) as [[[r' m'] lp'] ev] eqn:E.
    by destruct (loop_step_cases _ _ _ _ _ _ _ _ _ _ E Hwf).
  - by apply reader_wf_Subscribe.
  - by apply reader_wf_Unsubscribe.
  - by apply reader_wf_Stop.
  - pose proof (reader_wf_receive _ ch Hwf).
    by destruct (receive (sys_reader s) ch).
  - done.
Qed.

(** What a subscriber has received in a step, followed by what is queued
    for it afterwards, is part of what was queued before followed by what
    the step broadcast, in that order. *)
Lemma sys_step_queue (s : System) (a : action) (ch : chan_id) :
  reader_wf (sys_reader s) ->
  received_on ch (sys_step s a).2 ++ queued (sys_reader (sys_step s a).1) ch
    `sublist_of` queued (sys_reader s) ch ++ broadcasts (sys_step s a).2.
Proof.
  intros Hwf. destruct a as [sel drv now| |ch'| |ch'|c].
  - unfold sys_step.
    destruct (loop_step _ _ _ _ _ _) as [[[r' m'] lp'] ev] eqn:E.
    destruct (loop_step_cases _ _ _ _ _ _ _ _ _ _ E Hwf) as [_ H].
    destruct ev as [e|]; cbn.
    + destruct H as (_ & _ & Hq). destruct (Hq ch) as [-> | ->]; [done|].
      by apply sublist_inserts_r.
    + destruct H as [_ Hq]. by rewrite Hq, app_nil_r.
  - change (queued (Subscribe (sys_reader s)).1 ch
              `sublist_of` queued (sys_reader s) ch ++ []).
    by rewrite queued_Subscribe, app_nil_r.
  - change (queued (Unsubscribe (sys_reader s) ch') ch
              `sublist_of` queued (sys_reader s) ch ++ []).
    by rewrite queued_Unsubscribe, app_nil_r.
  - change (queued (Stop (sys_reader s)) ch
              `sublist_of` queued (sys_reader s) ch ++ []).
    by rewrite queued_Stop, app_nil_r.
  - pose proof (receive_queued (sys_reader s) ch' ch) as H.
    unfold sys_step.
    destruct (receive (sys_reader s) ch') as [r' [e|]]; cbn in *.
    + destruct H as [Hq Hne]. rewrite app_nil_r. case_decide as Hc.
      * subst ch'. by rewrite Hq.
      * cbn. rewrite Hne; [done|congruence].
    + subst r'. by rewrite app_nil_r.
  - cbn. by rewrite app_nil_r.
Qed.

(** The counter after a step, and the numbers of the events it
    broadcast. *)
Lemma sys_step_sequence (s : System) (a : action) :
  reader_wf (sys_reader s) ->
  match broadcasts (sys_step s a).2 with
  | [] => sequence (sys_loop (sys_step s a).1) = sequence (sys_loop s)
  | [e] =>
      Sequence e = AddUint32 (sequence (sys_loop s)) 1 /\
      sequence (sys_loop (sys_step s a).1) = Sequence e
  | _ => False
  end.
Proof.
  intros Hwf. destruct a as [sel drv now| |ch'| |ch'|c]; simpl; try done.
  - destruct (loop_step _ _ _ _ _ _) as [[[r' m'] lp'] ev] eqn:E.
    destruct (loop_step_cases _ _ _ _ _ _ _ _ _ _ E Hwf) as [_ H].
    destruct ev as [e|]; simpl; tauto.
  - by destruct (receive (sys_reader s) ch') as [r' [e|]].
Qed.

(** *** A whole run *)

Lemma sys_run_cons (s : System) (a : action) (rest : list action) :
  sys_run s (a :: rest) =
  ((sys_run (sys_step s a).1 rest).1,
   (sys_step s a).2 ++ (sys_run (sys_step s a).1 rest).2).
Proof.
  cbn [sys_run]. destruct (sys_step s a) as [s1 o1]. cbn [fst snd].
  by destruct (sys_run s1 rest) as [s2 o2].
Qed.

Lemma broadcasts_app (o1 o2 : list observation) :
  broadcasts (o1 ++ o2) = broadcasts o1 ++ broadcasts o2.
Proof. apply omap_app. Qed.

Lemma received_on_app (ch : chan_id) (o1 o2 : list observation) :
  received_on ch (o1 ++ o2) = received_on ch o1 ++ received_on ch o2.
Proof. apply omap_app. Qed.

(** What a subscriber receives in a run is part of what was queued for it
    at the start followed by the events broadcast in the run, in that
    order. *)
Lemma sys_run_delivery (s : System) (acts : list action) (ch : chan_id) :
  reader_wf (sys_reader s) ->
  received_on ch (sys_run s acts).2
    `sublist_of` queued (sys_reader s) ch ++ broadcasts (sys_run s acts).2.
Proof.
  revert s. induction acts as [|a rest IH]; intros s Hwf.
  - simpl. apply sublist_nil_l.
  - rewrite sys_run_cons. cbn [snd].
    rewrite received_on_app, broadcasts_app, app_assoc.
    etrans; [|apply sublist_app; [by apply sys_step_queue|reflexivity]].
    rewrite <- app_assoc. apply sublist_app; [reflexivity|].
    apply IH. by apply sys_step_wf.
Qed.

Lemma seq_from_S (from : Z) (n : nat) :
  seq_from from (S n) = AddUint32 from 1 :: seq_from (AddUint32 from 1) n.
Proof.
  unfold seq_from. cbn [seq fmap list_fmap]. f_equal.
  rewrite <- fmap_S_seq, <- list_fmap_compose.
  apply list_fmap_ext. intros _ i _. simpl. unfold AddUint32.
  rewrite Zplus_mod_idemp_l. f_equal. lia.
Qed.

(** The events broadcast in a run carry the numbers that follow the
    counter at its start, one by one, modulo 2^32. *)
Lemma sys_run_sequences (s : System) (acts : list action) :
  reader_wf (sys_reader s) ->
  Sequence <$> broadcasts (sys_run s acts).2 =
  seq_from (sequence (sys_loop s)) (length (broadcasts (sys_run s acts).2)).
Proof.
  revert s. induction acts as [|a rest IH]; intros s Hwf; [done|].
  rewrite sys_run_cons. cbn [snd]. rewrite broadcasts_app.
  pose proof (sys_step_sequence s a Hwf) as Hstep.
  pose proof (sys_step_wf s a Hwf) as Hwf1.
  specialize (IH _ Hwf1).
  destruct (broadcasts (sys_step s a).2) as [|e [|e' l]]; [| |done].
  - simpl. by rewrite IH, Hstep.
  - destruct Hstep as [He Hs]. cbn [app length fmap list_fmap].
    rewrite seq_from_S, IH, Hs, He. done.
Qed.

Lemma seq_from_lookup (from : Z) (n i : nat) (x : Z) :
  seq_from from n !! i = Some x -> x = AddUint32 from (Z.of_nat (S i)).
Proof.
  unfold seq_from. rewrite list_lookup_fmap.
  destruct (seq 1 n !! i) as [j|] eqn:Hj; [|done].
  apply lookup_seq in Hj as [-> _]. by intros [= <-].
Qed.

(** C8: take a run of the read loop from its start (counter 0) among any
    steps of the other tasks, and a subscriber channel with nothing queued
    at that point.  The events handed to [broadcast] are numbered
    1, 2, 3, ... modulo 2^32: the first carries 1 and each next one the
    number of its predecessor plus one, modulo 2^32.  What the subscriber
    receives is a subsequence of the broadcast events in broadcast order,
    so the numbers it sees are a subsequence of 1, 2, 3, ... (mod 2^32): an
    event dropped on a full channel leaves a gap and nothing arrives out
    of order. *)
Theorem readLoop_numbers_in_order (s : System) (acts : list action) (ch : chan_id) :
  reader_wf (sys_reader s) ->
  sys_loop s = loop_start ->
  queued (sys_reader s) ch = [] ->
  let obs := (sys_run s acts).2 in
  (forall e, head (broadcasts obs) = Some e -> Sequence e = 1) /\
  (forall i e1 e2,
     broadcasts obs !! i = Some e1 -> broadcasts obs !! S i = Some e2 ->
     Sequence e2 = (Sequence e1 + 1) mod 2 ^ 32) /\
  Sequence <$> broadcasts obs = seq_from 0 (length (broadcasts obs)) /\
  received_on ch obs `sublist_of` broadcasts obs /\
  Sequence <$> received_on ch obs `sublist_of` seq_from 0 (length (broadcasts obs)).
Proof.
  intros Hwf Hlp Hq. cbv zeta.
  pose proof (sys_run_sequences s acts Hwf) as Hseq.
  pose proof (sys_run_delivery s acts ch Hwf) as Hdel.
  rewrite Hlp in Hseq. change (sequence loop_start) with 0 in Hseq.
  rewrite Hq in Hdel. simpl in Hdel.
  set (bs := broadcasts (sys_run s acts).2) in *.
  assert (forall i e, bs !! i = Some e ->
            Sequence e = AddUint32 0 (Z.of_nat (S i))) as Hnth.
  { intros i e Hi. apply (seq_from_lookup 0 (length bs) i).
    by rewrite <- Hseq, list_lookup_fmap, Hi. }
  split_and!.
  - intros e He. rewrite head_lookup in He. by rewrite (Hnth _ _ He).
  - intros i e1 e2 H1 H2. rewrite (Hnth _ _ H1), (Hnth _ _ H2).
    unfold AddUint32. rewrite Zplus_mod_idemp_l. f_equal. lia.
  - exact Hseq.
  - exact Hdel.
  - rewrite <- Hseq. by apply fmap_sublist.
Qed.

(** C8 at the schedule with the slow subscriber: 102 events are
    broadcast, numbered 1 to 102; the subscriber, whose channel was full
    when event 101 came, receives 1 to 100 and then 102. *)
Lemma readLoop_numbers_in_order_witness :
  let s := started Scenario.reader0 Scenario.m1 in
  let obs := (sys_run s Scenario.slow_subscriber_schedule).2 in
  Sequence <$> broadcasts obs = Z.of_nat <$> seq 1 102 /\
  Sequence <$> received_on 0%nat obs = (Z.of_nat <$> seq 1 100) ++ [102] /\
  Sequence <$> received_on 0%nat obs `sublist_of` Sequence <$> broadcasts obs.
Proof.
  cbv zeta.
  pose proof (readLoop_numbers_in_order (started Scenario.reader0 Scenario.m1)
                Scenario.slow_subscriber_schedule 0%nat) as H.
  cbv zeta in H.
  destruct H as (_ & _ & Hseq & _ & Hsub).
  - split; [constructor|]. intros c Hc. vm_compute in Hc. by inversion Hc.
  - reflexivity.
  - reflexivity.
  - split; [by vm_compute|]. split; [by vm_compute|].
    by rewrite Hseq.
Defined.

(** ** Reads with a timeout *)

Lemma int64_small (x : Z) : - 2 ^ 63 <= x < 2 ^ 63 -> int64 x = x.
Proof. intros H. unfold int64. rewrite Z.mod_small; lia. Qed.

Lemma read_timer_eq (t : Z) :
  0 <= t < 2 ^ 32 -> Api.read_timer t = t * 1000000.
Proof.
  intros H. unfold Api.read_timer, Duration_mul, Millisecond.
  apply int64_small. lia.
Qed.

Lemma read_deadline_eq (t : Z) :
  Cmd.read_deadline t = ((t + 2000) mod 2 ^ 32) * 1000000.
Proof.
  unfold Cmd.read_deadline, Duration_mul, Millisecond, AddUint32.
  apply int64_small.
  pose proof (Z.mod_pos_bound (t + 2000) (2 ^ 32)). lia.
Qed.

(** C9, as stated, fails.  A read is requested with a timeout of 500 ms
    and returns "HI" after 600 ms.  The timer of the facade is 500 ms, not
    500 + 2000 ms, and the facade answers "read timeout"; against a timer
    of 2500 ms the same read would have delivered its data. *)
Lemma facade_timer_has_no_grace :
  Api.read_timer 500 = 500 * Millisecond /\
  (Api.Read Scenario.server1 Scenario.read_500ms Scenario.driver_HI 0
     Scenario.done_after_600ms).2
    = Api.Reply (Api.mkReadResponse false [] 0 ["read timeout"]) /\
  (ReadWithTimeout Scenario.m1 "COM3" "SA" 16 ((500 + 2000) * Millisecond)
     Scenario.driver_HI 0 Scenario.done_after_600ms).2
    = Ok [x48; x49].
Proof. vm_compute. repeat split. Qed.

(** C9 (amended): for a read request with [timeout_ms > 0] the facade
    races the manager's read against a timer of exactly [timeout_ms]
    milliseconds, with no grace added, and answers "read timeout" when the
    read has not returned by then; for [timeout_ms = 0] it calls the
    manager's read directly, with no timer.  The 2000 ms of grace are
    added by the command-line client to the deadline of its own request,
    which is [(timeout_ms + 2000) mod 2^32] milliseconds. *)
Theorem Read_timer_is_requested_timeout (s : Api.SerialServer)
    (req : Api.ReadRequest) (drv : bytes * option error) (now : Z)
    (race : RaceEnv) :
  Api.rd_PortName req <> "" -> Api.rd_SessionId req <> "" ->
  0 <= Api.rd_MaxBytes req < 2 ^ 32 ->
  0 <= Api.rd_TimeoutMs req < 2 ^ 32 ->
  let maxBytes :=
    if Api.rd_MaxBytes req =? 0 then 1024 else Api.rd_MaxBytes req in
  (0 < Api.rd_TimeoutMs req ->
     let out :=
       ReadWithTimeout (Api.manager s) (Api.rd_PortName req) (Api.rd_SessionId req)
         maxBytes (Api.rd_TimeoutMs req * 1000000) drv now race in
     Api.Read s req drv now race
       = (Api.mkServer out.1 (Api.srv_readers s), Api.read_reply out.2) /\
     (forall t, read_done_after race = Some t ->
        Api.rd_TimeoutMs req * 1000000 < t ->
        (Api.Read s req drv now race).2
          = Api.Reply (Api.mkReadResponse false [] 0 ["read timeout"])) /\
     (read_done_after race = None ->
        Api.Read s req drv now race
          = (s, Api.Reply (Api.mkReadResponse false [] 0 ["read timeout"])))) /\
  (Api.rd_TimeoutMs req = 0 ->
     let out :=
       Manager.Read (Api.manager s) (Api.rd_PortName req) (Api.rd_SessionId req)
         maxBytes drv now in
     Api.Read s req drv now race
       = (Api.mkServer out.1 (Api.srv_readers s), Api.read_reply out.2)) /\
  Cmd.read_deadline (Api.rd_TimeoutMs req)
    = ((Api.rd_TimeoutMs req + 2000) mod 2 ^ 32) * 1000000.
Proof.
  intros Hp Hs Hmx Hto. cbv zeta.
  assert (forall x, x <> "" -> String.eqb x "" = false) as Hne.
  { intros x Hx. by apply String.eqb_neq. }
  assert ((if Api.rd_MaxBytes req <=? 0 then 1024 else Api.rd_MaxBytes req)
          = (if Api.rd_MaxBytes req =? 0 then 1024 else Api.rd_MaxBytes req)) as Hmax.
  { destruct (Z.leb_spec (Api.rd_MaxBytes req) 0), (Z.eqb_spec (Api.rd_MaxBytes req) 0);
      lia. }
  assert (0 < Api.rd_TimeoutMs req ->
          Api.Read s req drv now race =
          ((Api.mkServer
              (ReadWithTimeout (Api.manager s) (Api.rd_PortName req)
                 (Api.rd_SessionId req)
                 (if Api.rd_MaxBytes req =? 0 then 1024 else Api.rd_MaxBytes req)
                 (Api.rd_TimeoutMs req * 1000000) drv now race).1
              (Api.srv_readers s)),
           Api.read_reply
             (ReadWithTimeout (Api.manager s) (Api.rd_PortName req)
                (Api.rd_SessionId req)
                (if Api.rd_MaxBytes req =? 0 then 1024 else Api.rd_MaxBytes req)
                (Api.rd_TimeoutMs req * 1000000) drv now race).2)) as Hread.
  { intros Hpos. unfold Api.Read.
    rewrite (Hne _ Hp), (Hne _ Hs), Hmax, (proj2 (Z.ltb_lt _ _) Hpos).
    rewrite read_timer_eq by done.
    by destruct (ReadWithTimeout _ _ _ _ _ _ _ _). }
  split_and!.
  - intros Hpos. split_and!.
    + by apply Hread.
    + intros t Ht Hlate. rewrite (Hread Hpos). cbn [snd].
      unfold ReadWithTimeout. rewrite Ht.
      destruct (Manager.Read _ _ _ _ _ _) as [m' res].
      rewrite (proj2 (Z.ltb_ge _ _)) by lia.
      rewrite (proj2 (Z.eqb_neq _ _)) by lia. done.
    + intros Hnever. rewrite (Hread Hpos).
      unfold ReadWithTimeout. rewrite Hnever. by destruct s.
  - intros Hzero. unfold Api.Read.
    rewrite (Hne _ Hp), (Hne _ Hs), Hmax, Hzero. cbn.
    by destruct (Manager.Read _ _ _ _ _ _).
  - apply read_deadline_eq.
Qed.

(** The amended C9 at the worked example: the facade answers "read
    timeout" to the read that takes 600 ms under a timeout of 500 ms. *)
Lemma Read_timer_is_requested_timeout_witness :
  (Api.Read Scenario.server1 Scenario.read_500ms Scenario.driver_HI 0
     Scenario.done_after_600ms).2
    = Api.Reply (Api.mkReadResponse false [] 0 ["read timeout"]) /\
  Cmd.read_deadline 500 = 2500 * 1000000.
Proof.
  destruct (Read_timer_is_requested_timeout Scenario.server1 Scenario.read_500ms
              Scenario.driver_HI 0 Scenario.done_after_600ms)
    as (H1 & _ & H3); [discriminate|discriminate|simpl; lia|simpl; lia|].
  split.
  - destruct H1 as (_ & Hlate & _); [simpl; lia|].
    apply (Hlate (600 * Millisecond)); [reflexivity|]. simpl. unfold Millisecond. lia.
  - exact H3.
Defined.

(** ** The two indexes without shared re-opening *)

Lemma indexes_agree_NewManager (allow : bool) (cfg : PortConfig) :
  indexes_agree (NewManager allow cfg).
Proof. split; intros ? ?; simpl; by rewrite lookup_empty. Qed.

(** Overwriting a session by one with the same id and port name keeps the
    indexes in agreement. *)
Lemma indexes_agree_store (m : Manager) (l : loc) (s : Session) :
  ID s = ID (load m l) -> PortName s = PortName (load m l) ->
  indexes_agree m -> indexes_agree (store l s m).
Proof.
  intros Hid Hname [H1 H2].
  assert (forall l', ID (load (store l s m) l') = ID (load m l') /\
                     PortName (load (store l s m) l') = PortName (load m l')) as Hsame.
  { intros l'. rewrite load_store. case_decide; by subst. }
  split; intros k l' Hk; simpl in Hk;
    destruct (Hsame l') as [-> ->]; [by apply H1|by apply H2].
Qed.

Lemma indexes_agree_set_chans (m : Manager) (cs : gmap chan_id (Chan bytes)) :
  indexes_agree m -> indexes_agree (set_chans cs m).
Proof. done. Qed.

Lemma indexes_agree_closeSessionLocked (m : Manager) (name : string) (l : loc)
    (d : option error) :
  wf m -> indexes_agree m -> sessions m !! name = Some l ->
  indexes_agree (closeSessionLocked m l d).1.
Proof.
  intros Hwf [H1 H2] Hs. destruct (wf_lookup _ _ _ Hwf Hs) as [Hl Hname].
  rewrite (closeSessionLocked_eq _ _ _ _ Hl). cbn [fst].
  set (s := load m l) in *.
  destruct (H2 _ _ Hs) as [_ Hid].
  assert (forall l', l' <> l ->
            load (mkManager (<[l:=set_readers [] (set_closed true s)]> (heap m))
                    (close_all_chans (readers s) (chans m))
                    (delete (PortName s) (sessions m))
                    (delete (ID s) (sessionsByID m))
                    (allowSharedAccess m) (defaultConfig m)) l' = load m l') as Hload.
  { intros l' Hne. unfold load; simpl. by rewrite lookup_insert_ne. }
  split; simpl.
  - intros id l' [Hne Hk]%lookup_delete_Some. destruct (H1 _ _ Hk) as [Hi Hn].
    assert (l' <> l) as Hl' by (intros ->; fold s in Hi; congruence).
    rewrite Hload by done. split; [done|].
    rewrite lookup_delete_ne; [done|].
    intros E. rewrite <- E, Hname, Hs in Hn. congruence.
  - intros n l' [Hne Hk]%lookup_delete_Some. destruct (H2 _ _ Hk) as [Hn Hi].
    assert (l' <> l) as Hl' by (intros ->; fold s in Hn; congruence).
    rewrite Hload by done. split; [done|].
    rewrite lookup_delete_ne; [done|].
    intros E. unfold s in *. rewrite <- E in Hi. congruence.
Qed.

Lemma indexes_agree_CloseAll (m : Manager) :
  wf m -> indexes_agree m -> indexes_agree (CloseAll m).
Proof.
  unfold CloseAll. generalize (map_to_list (sessions m)). intros kvs. revert m.
  induction kvs as [|kv kvs IH]; intros m Hwf Hag; [done|].
  cbn [foldl]. case_decide as Hk; [|by apply IH].
  apply IH.
  - by apply (closeSessionLocked_wf m kv.1 kv.2 None).
  - by apply (indexes_agree_closeSessionLocked m kv.1).
Qed.

(** A first open of a port with an id that is not in use keeps the
    indexes in agreement. *)
Lemma indexes_agree_OpenPort (m : Manager) (name : string) (cfg : PortConfig)
    (client : string) (ex : bool) (env : OpenEnv) :
  wf m -> indexes_agree m ->
  sessions m !! name = None -> sessionsByID m !! new_uuid env = None ->
  indexes_agree (OpenPort m name cfg client ex env).1.
Proof.
  intros Hwf [H1 H2] Hname Hid. unfold OpenPort.
  destruct (Validate cfg); [done|].
  destruct (port_locked m name ex); [done|].
  destruct (drv_open env) as [h|]; [|done].
  destruct (if 0 <? ReadTimeoutMs cfg then _ else _); [done|]. cbn [fst].
  pose proof (fresh_loc_unused m) as Hfresh.
  set (l := fresh (dom (heap m))) in *.
  destruct Hwf as (Hn & Hi & _).
  split; simpl.
  - intros id l' [[<- <-]|[Hne Hk]]%lookup_insert_Some.
    + unfold load; simpl. rewrite lookup_insert_eq; simpl.
      by rewrite lookup_insert_eq.
    + destruct (Hi _ _ Hk) as (s & Hl & _).
      assert (l <> l') as Hll by congruence.
      unfold load at 1 2; simpl. rewrite lookup_insert_ne by done.
      destruct (H1 _ _ Hk) as [Hi' Hn']. split; [done|].
      rewrite lookup_insert_ne; [done|]. intros E.
      unfold load in Hn'. rewrite <- E, Hname in Hn'. done.
  - intros n l' [[<- <-]|[Hne Hk]]%lookup_insert_Some.
    + unfold load; simpl. rewrite lookup_insert_eq; simpl.
      by rewrite lookup_insert_eq.
    + destruct (Hn _ _ Hk) as (s & Hl & _).
      assert (l <> l') as Hll by congruence.
      unfold load at 1 2; simpl. rewrite lookup_insert_ne by done.
      destruct (H2 _ _ Hk) as [Hn' Hi']. split; [done|].
      rewrite lookup_insert_ne; [done|]. intros E.
      unfold load in Hi'. rewrite <- E, Hid in Hi'. done.
Qed.

(** Without shared access an open that gets through finds the port
    unregistered. *)
Lemma port_locked_unshared (m : Manager) (name : string) (ex : bool) :
  allowSharedAccess m = false -> port_locked m name ex = false ->
  sessions m !! name = None.
Proof.
  unfold port_locked. intros ->. destruct (sessions m !! name); [|done].
  by rewrite orb_true_r.
Qed.

Lemma allowSharedAccess_closeSessionLocked (m : Manager) (l : loc) (d : option error) :
  allowSharedAccess (closeSessionLocked m l d).1 = allowSharedAccess m.
Proof. reflexivity. Qed.

Lemma allowSharedAccess_step (m : Manager) (c : call) :
  allowSharedAccess (step m c) = allowSharedAccess m.
Proof.
  destruct c as [n cfg cl ex env|n i d| |n i data d now|n i mx d now
                |n i cfg d1 d2|n i|n i ch|n i d1 d2]; simpl.
  - unfold OpenPort. destruct (Validate cfg); [done|].
    destruct (port_locked m n ex); [done|].
    destruct (drv_open env); [|done].
    by destruct (if 0 <? ReadTimeoutMs cfg then _ else _).
  - unfold ClosePort. destruct (sessions m !! n); [|done]. by case_decide.
  - unfold CloseAll. generalize (map_to_list (sessions m)). intros kvs.
    revert m. induction kvs as [|kv kvs IH]; intros m; [done|].
    cbn [foldl]. rewrite IH. by case_decide.
  - unfold Write. destruct (ValidateSession m n i); [|done]. by destruct d.2.
  - unfold Read. destruct (ValidateSession m n i); [|done].
    destruct d.2; [done|]. cbv zeta. cbn [fst]. by destruct (0 <? _).
  - unfold Configure. destruct (ValidateSession m n i); [|done].
    destruct (Validate cfg); [done|]. destruct d1; [done|].
    by destruct (if 0 <? ReadTimeoutMs cfg then _ else _).
  - unfold SubscribeToReads. by destruct (ValidateSession m n i).
  - unfold UnsubscribeFromReads. destruct (ValidateSession m n i); [|done].
    by destruct (index_of ch _).
  - done.
Qed.

Lemma indexes_agree_step (m : Manager) (c : call) :
  wf m -> indexes_agree m -> allowSharedAccess m = false -> fresh_ids m [c] ->
  indexes_agree (step m c).
Proof.
  intros Hwf Hag Hsh [Hfresh _].
  destruct c as [n cfg cl ex env|n i d| |n i data d now|n i mx d now
                |n i cfg d1 d2|n i|n i ch|n i d1 d2]; simpl.
  - destruct (port_locked m n ex) eqn:Hlock.
    + unfold OpenPort. destruct (Validate cfg); [done|]. by rewrite Hlock.
    + apply indexes_agree_OpenPort; try done. by eapply port_locked_unshared.
  - unfold ClosePort. destruct (sessions m !! n) as [l|] eqn:Hs; [|done].
    case_decide; [|done]. by eapply indexes_agree_closeSessionLocked.
  - by apply indexes_agree_CloseAll.
  - unfold Write. destruct (ValidateSession m n i) as [l|]; [|done].
    destruct d.2; cbv zeta; cbn [fst]; by apply indexes_agree_store.
  - unfold Read. destruct (ValidateSession m n i) as [l|]; [|done].
    destruct d.2; cbv zeta; cbn [fst]; [by apply indexes_agree_store|].
    destruct (0 <? _); [apply indexes_agree_set_chans|];
      by apply indexes_agree_store.
  - unfold Configure. destruct (ValidateSession m n i) as [l|]; [|done].
    destruct (Validate cfg); [done|]. destruct d1; [done|].
    destruct (if 0 <? ReadTimeoutMs cfg then _ else _); [done|].
    cbn [fst]. by apply indexes_agree_store.
  - unfold SubscribeToReads. destruct (ValidateSession m n i) as [l|]; [|done].
    cbv zeta; cbn [fst]. by apply indexes_agree_store.
  - unfold UnsubscribeFromReads. destruct (ValidateSession m n i) as [l|]; [|done].
    destruct (index_of ch _); [|done].
    cbv zeta; cbn [fst]. by apply indexes_agree_store.
  - done.
Qed.

(** X1: on a manager that does not allow shared access, and with ids that
    are new when drawn, the two indexes agree after every sequence of calls:
    each id in [sessionsByID] belongs to the session registered under its
    port name, and the other way round. *)
Theorem indexes_agree_without_sharing (cfg : PortConfig) (cs : list call) :
  fresh_ids (NewManager false cfg) cs ->
  indexes_agree (run (NewManager false cfg) cs).
Proof.
  assert (forall m, wf m -> indexes_agree m -> allowSharedAccess m = false ->
            fresh_ids m cs -> indexes_agree (run m cs)) as H.
  { induction cs as [|c cs IH]; intros m Hwf Hag Hsh Hfr; [done|].
    rewrite run_cons. destruct Hfr as [Hc Hrest]. apply IH.
    - by apply step_wf.
    - by apply indexes_agree_step.
    - by rewrite allowSharedAccess_step.
    - done. }
  apply H; [apply wf_NewManager|apply indexes_agree_NewManager|done].
Qed.

(** X1 at an open, a write, a refused second open and a close. *)
Lemma indexes_agree_without_sharing_witness :
  indexes_agree
    (run (NewManager false DefaultConfig)
       [ CallOpenPort "COM3" DefaultConfig "a" false Scenario.env_a;
         CallWrite "COM3" "SA" [x48] (1, None) 1;
         CallOpenPort "COM3" DefaultConfig "b" false Scenario.env_b;
         CallClosePort "COM3" "SA" None ]).
Proof.
  apply indexes_agree_without_sharing. cbn [fresh_ids].
  repeat split; vm_compute; reflexivity.
Defined.

(** ** Further properties of the manager and the facade *)



(** X3: after [ClosePort] has closed the session of a port, the session
    check for that port answers PortNotOpen whatever the id, and the
    session object is marked closed. *)
Theorem ValidateSession_after_ClosePort (m : Manager) (name id : string)
    (l : loc) (d : option error) :
  reachable m -> sessions m !! name = Some l -> ID (load m l) = id ->
  let m' := (ClosePort m name id d).1 in
  (forall id', ValidateSession m' name id' = Err ErrPortNotOpen) /\
  closed (load m' l) = true.
Proof.
  intros Hwf%reachable_wf Hs Hid. cbv zeta.
  destruct (wf_lookup _ _ _ Hwf Hs) as [Hl Hname].
  unfold ClosePort. rewrite Hs, decide_True by done.
  rewrite (closeSessionLocked_eq _ _ _ _ Hl). cbn [fst]. split.
  - intros id'. unfold ValidateSession; simpl.
    by rewrite Hname, lookup_delete_eq.
  - unfold load; simpl. by rewrite lookup_insert_eq.
Qed.

(** X3 at the worked example: COM3, held by "SB", is closed. *)
Lemma ValidateSession_after_ClosePort_witness :
  ValidateSession (ClosePort Scenario.m2 "COM3" "SB" None).1 "COM3" "SB"
    = Err ErrPortNotOpen.
Proof.
  apply (ValidateSession_after_ClosePort Scenario.m2 "COM3" "SB" 1%nat None);
    [|reflexivity..].
  exists true, DefaultConfig, Scenario.shared_calls. reflexivity.
Defined.

(** X4: opening a port that is not open, with an id that is not in use,
    and closing it with the returned id restores both indexes. *)
Theorem OpenPort_ClosePort_round_trip (m : Manager) (name : string)
    (cfg : PortConfig) (client : string) (ex : bool) (env : OpenEnv)
    (d : option error) (m1 : Manager) (l : loc) :
  sessions m !! name = None -> sessionsByID m !! new_uuid env = None ->
  OpenPort m name cfg client ex env = (m1, Ok l) ->
  ID (load m1 l) = new_uuid env /\
  (ClosePort m1 name (ID (load m1 l)) d).2 = d /\
  sessions (ClosePort m1 name (ID (load m1 l)) d).1 = sessions m /\
  sessionsByID (ClosePort m1 name (ID (load m1 l)) d).1 = sessionsByID m.
Proof.
  intros Hn Hi. unfold OpenPort.
  destruct (Validate cfg); [done|].
  destruct (port_locked m name ex); [done|].
  destruct (drv_open env) as [h|]; [|done].
  destruct (if 0 <? ReadTimeoutMs cfg then _ else _); [done|].
  intros [= <- <-].
  set (l := fresh (dom (heap m))).
  assert (forall z, load (set_sessionsByID z
            (set_sessions (<[name:=l]> (sessions m))
               (store l (mkSession (new_uuid env) name client ex cfg
                           (mkStats 0 0 0 (clock env) (clock env)) (Some h) false [])
                  m))) l
          = mkSession (new_uuid env) name client ex cfg
              (mkStats 0 0 0 (clock env) (clock env)) (Some h) false []) as Hload.
  { intros z. unfold load; simpl. by rewrite lookup_insert_eq. }
  cbv zeta. rewrite Hload. cbn [ID]. split; [done|].
  unfold ClosePort; cbn [sessions set_sessionsByID set_sessions].
  rewrite lookup_insert_eq, Hload. cbn [ID]. rewrite decide_True by done.
  erewrite closeSessionLocked_eq; [|simpl; apply lookup_insert_eq].
  simpl. split; [done|].
  by rewrite !delete_insert_eq, !delete_id.
Qed.

(** X4 at the worked example: the first open of COM3 and its close. *)
Lemma OpenPort_ClosePort_round_trip_witness :
  sessions (ClosePort Scenario.m1 "COM3" (ID (load Scenario.m1 0%nat)) None).1
    = sessions Scenario.m0.
Proof.
  eapply (OpenPort_ClosePort_round_trip Scenario.m0 "COM3" DefaultConfig "a" false
            Scenario.env_a None Scenario.m1 0%nat); reflexivity.
Defined.

(** X5: a [Configure] that succeeds stores the given configuration in the
    session, which keeps its id and stays registered. *)
Theorem Configure_stores_config (m : Manager) (name id : string)
    (cfg : PortConfig) (d1 d2 : option error) :
  (Configure m name id cfg d1 d2).2 = None ->
  exists l,
    ValidateSession m name id = Ok l /\
    GetStatus (Configure m name id cfg d1 d2).1 name = Ok l /\
    Config (load (Configure m name id cfg d1 d2).1 l) = cfg /\
    ID (load (Configure m name id cfg d1 d2).1 l) = id.
Proof.
  unfold Configure.
  destruct (ValidateSession m name id) as [l|] eqn:Hv; [|done].
  destruct (Validate cfg); [done|]. destruct d1; [done|].
  destruct (if 0 <? ReadTimeoutMs cfg then _ else _); [done|]. intros _.
  apply ValidateSession_Ok in Hv as (Hs & Hid & _).
  exists l. cbn [fst]. split; [done|].
  unfold GetStatus; simpl. rewrite Hs. by rewrite load_store_eq.
Qed.

(** X5 at the worked example: the session "SA" is set to 115200 baud. *)
Lemma Configure_stores_config_witness :
  exists l,
    Config (load (Configure Scenario.m1 "COM3" "SA"
                    (mkPortConfig 115200 8 0 0 0 1000 1000) None None).1 l)
    = mkPortConfig 115200 8 0 0 0 1000 1000.
Proof.
  destruct (Configure_stores_config Scenario.m1 "COM3" "SA"
              (mkPortConfig 115200 8 0 0 0 1000 1000) None None)
    as (l & _ & _ & H & _); [reflexivity|].
  by exists l.
Defined.

(** ** Closing every port *)

Lemma closed_out_closeSessionLocked (m : Manager) (l : loc) (s : Session)
    (d : option error) (l0 : loc) (id : string) (chs : list chan_id) :
  heap m !! l = Some s -> closed_out m l0 id chs ->
  closed_out (closeSessionLocked m l d).1 l0 id chs.
Proof.
  intros Hl (Hc & Hr & Hi & Hch).
  rewrite (closeSessionLocked_eq _ _ _ _ Hl). cbn [fst].
  unfold closed_out, load in *; simpl.
  destruct (decide (l = l0)) as [->|Hne].
  - rewrite lookup_insert_eq. simpl. repeat split; [|].
    + apply lookup_delete_None. by right.
    + intros ch Hin. destruct (Hch ch Hin) as (c & Hcc & Hcl).
      rewrite close_all_chans_lookup, Hcc. simpl. eexists. split; [done|].
      by case_decide.
  - rewrite lookup_insert_ne by done. repeat split; [done..| |].
    + apply lookup_delete_None. by right.
    + intros ch Hin. destruct (Hch ch Hin) as (c & Hcc & Hcl).
      rewrite close_all_chans_lookup, Hcc. simpl. eexists. split; [done|].
      by case_decide.
Qed.

Lemma closeSessionLocked_closed_out (m : Manager) (l : loc) (s : Session)
    (d : option error) :
  wf m -> heap m !! l = Some s ->
  closed_out (closeSessionLocked m l d).1 l (ID s) (readers s).
Proof.
  intros Hwf Hl. rewrite (closeSessionLocked_eq _ _ _ _ Hl). cbn [fst].
  unfold closed_out, load; simpl. rewrite lookup_insert_eq. simpl.
  repeat split.
  - apply lookup_delete_eq.
  - intros ch Hin. rewrite close_all_chans_lookup.
    destruct (wf_readers _ _ _ _ Hwf Hl Hin) as [c Hc]. rewrite Hc. simpl.
    eexists. split; [done|]. by rewrite decide_True.
Qed.

Lemma load_closeSessionLocked_ne (m : Manager) (l l0 : loc) (d : option error) :
  l <> l0 -> load (closeSessionLocked m l d).1 l0 = load m l0.
Proof.
  intros Hne. unfold closeSessionLocked. cbv zeta. cbn [fst].
  set (m1 := store l (set_closed true (load m l)) m).
  set (m2 := set_chans _ m1).
  change (load (store l (set_readers [] (load m2 l)) m2) l0 = load m l0).
  rewrite load_store_ne by done.
  change (load m1 l0 = load m l0). unfold m1. by rewrite load_store_ne.
Qed.

(** The loop of [CloseAll] over a list of entries of the port index. *)
Lemma CloseAll_loop (kvs : list (string * loc)) (m : Manager) :
  wf m -> NoDup kvs.*1 ->
  (forall kv, kv ∈ kvs -> sessions m !! kv.1 = Some kv.2) ->
  let m' := foldl (fun acc (kv : string * loc) =>
                     if decide (sessions acc !! kv.1 = Some kv.2)
                     then (closeSessionLocked acc kv.2 None).1
                     else acc) m kvs in
  (forall k, sessions m !! k = None \/ k ∈ kvs.*1 -> sessions m' !! k = None) /\
  (forall l id chs, closed_out m l id chs -> closed_out m' l id chs) /\
  (forall kv, kv ∈ kvs ->
     closed_out m' kv.2 (ID (load m kv.2)) (readers (load m kv.2))).
Proof.
  revert m. induction kvs as [|kv kvs IH]; intros m Hwf Hnd Hin; cbv zeta.
  - cbn [foldl]. split; [|split].
    + intros k [Hk|Hk]; [done|]. by apply elem_of_nil in Hk.
    + done.
    + intros kv Hkv. by apply elem_of_nil in Hkv.
  - cbn [foldl]. rewrite fmap_cons in Hnd. apply NoDup_cons in Hnd as [Hk Hnd].
    assert (sessions m !! kv.1 = Some kv.2) as Hs by (apply Hin; left).
    rewrite decide_True by done.
    destruct (wf_lookup _ _ _ Hwf Hs) as [Hl Hname].
    set (m1 := (closeSessionLocked m kv.2 None).1).
    assert (wf m1) as Hwf1 by (by apply (closeSessionLocked_wf m kv.1 kv.2 None)).
    assert (sessions m1 = delete kv.1 (sessions m)) as Hs1.
    { unfold m1. rewrite (closeSessionLocked_eq _ _ _ _ Hl). simpl. by rewrite Hname. }
    assert (forall kv', kv' ∈ kvs -> kv'.2 <> kv.2) as Hdiff.
    { intros kv' Hkv' E. apply Hk.
      assert (sessions m !! kv'.1 = Some kv'.2) as Hs' by (apply Hin; by right).
      destruct (wf_lookup _ _ _ Hwf Hs') as [_ Hname'].
      rewrite E, Hname in Hname'. rewrite Hname'.
      apply list_elem_of_fmap. by exists kv'. }
    destruct (IH m1 Hwf1 Hnd) as (IH1 & IH2 & IH3).
    { intros kv' Hkv'. rewrite Hs1, lookup_delete_ne.
      - apply Hin. by right.
      - intros E. apply Hk. rewrite E. apply list_elem_of_fmap. by exists kv'. }
    split; [|split].
    + intros k Hcase. apply IH1.
      destruct (decide (k = kv.1)) as [->|Hne].
      * left. rewrite Hs1. apply lookup_delete_eq.
      * destruct Hcase as [Hnone|Hmem].
        -- left. rewrite Hs1, lookup_delete_ne by done. done.
        -- right. rewrite fmap_cons in Hmem.
           apply elem_of_cons in Hmem as [?|?]; [done|done].
    + intros l id chs Hco. apply IH2.
      by apply (closed_out_closeSessionLocked m kv.2 (load m kv.2)).
    + intros kv' [->|Hkv']%elem_of_cons.
      * apply IH2. by apply closeSessionLocked_closed_out.
      * specialize (IH3 kv' Hkv'). unfold m1 in IH3 at 2 3.
        rewrite load_closeSessionLocked_ne in IH3; [done|].
        intros E. by apply (Hdiff kv' Hkv').
Qed.

(** X6: [CloseAll] leaves no port open: the port index is empty, and
    every session it held is marked closed, lists no reader, has its id
    unregistered and its reader channels closed. *)
Theorem CloseAll_closes_every_session (m : Manager) :
  reachable m ->
  sessions (CloseAll m) = ∅ /\
  ListOpenPorts (CloseAll m) = [] /\
  (forall name l, sessions m !! name = Some l ->
     closed (load (CloseAll m) l) = true /\
     readers (load (CloseAll m) l) = [] /\
     sessionsByID (CloseAll m) !! ID (load m l) = None /\
     forall ch, ch ∈ readers (load m l) ->
       exists c, chans (CloseAll m) !! ch = Some c /\ ch_closed c = true).
Proof.
  intros Hwf%reachable_wf.
  destruct (CloseAll_loop (map_to_list (sessions m)) m Hwf) as (H1 & _ & H3).
  { apply NoDup_fst_map_to_list. }
  { intros [k l] Hkv. by apply elem_of_map_to_list in Hkv. }
  fold (CloseAll m) in H1, H3.
  assert (sessions (CloseAll m) = ∅) as Hempty.
  { apply map_empty. intros k. apply H1.
    destruct (sessions m !! k) as [l|] eqn:E; [right|by left].
    apply list_elem_of_fmap. exists (k, l). split; [done|].
    by apply elem_of_map_to_list. }
  split; [done|]. split.
  - unfold ListOpenPorts. by rewrite Hempty, map_to_list_empty.
  - intros name l Hs. apply (H3 (name, l)). by apply elem_of_map_to_list.
Qed.

(** X6 at the worked example: COM3 has been opened twice (shared); after
    [CloseAll] no port is open. *)
Lemma CloseAll_closes_every_session_witness :
  ListOpenPorts (CloseAll Scenario.m2) = [].
Proof.
  apply CloseAll_closes_every_session.
  exists true, DefaultConfig, Scenario.shared_calls. reflexivity.
Defined.

(** ** The reader channels of the sessions *)

Lemma readers_ok_NewManager (allow : bool) (cfg : PortConfig) :
  readers_ok (NewManager allow cfg).
Proof.
  unfold readers_ok, NewManager; simpl.
  split; [|split; [|split]]; intros *; rewrite lookup_empty; discriminate.
Qed.

(** Overwriting an allocated session by one with the same readers. *)
Lemma readers_ok_store (m : Manager) (l : loc) (s s' : Session) :
  readers_ok m -> heap m !! l = Some s -> readers s' = readers s ->
  readers_ok (store l s' m).
Proof.
  intros (Hnd & Hop & Hdj & Hcap) Hl Hr. unfold readers_ok, store; simpl.
  split; [|split; [|split]].
  - intros l' s0 [[<- <-]|[Hne Hs]]%lookup_insert_Some.
    + rewrite Hr. eauto.
    + eauto.
  - intros l' s0 ch [[<- <-]|[Hne Hs]]%lookup_insert_Some.
    + rewrite Hr. eauto.
    + eauto.
  - intros l1 l2 s1 s2 ch [[<- <-]|[Hne1 Hs1]]%lookup_insert_Some
      [[<- <-]|[Hne2 Hs2]]%lookup_insert_Some; rewrite ?Hr; eauto.
  - done.
Qed.

(** Replacing the channel store by one that keeps every channel, its
    closed flag and the bound on its queue. *)
Lemma readers_ok_set_chans (m : Manager) (cs : gmap chan_id (Chan bytes)) :
  readers_ok m ->
  (forall ch c, chans m !! ch = Some c ->
     exists c', cs !! ch = Some c' /\ ch_closed c' = ch_closed c) ->
  (forall ch c', cs !! ch = Some c' ->
     ch_cap c' = 100%nat /\ (length (ch_buf c') <= 100)%nat) ->
  readers_ok (set_chans cs m).
Proof.
  intros (Hnd & Hop & Hdj & Hcap) Hkeep Hbound. unfold readers_ok, set_chans; simpl.
  split; [|split; [|split]]; [done| |done|done].
  intros l s ch Hl Hin. destruct (Hop _ _ _ Hl Hin) as (c & Hc & Hcl).
  destruct (Hkeep _ _ Hc) as (c' & Hc' & Hcl'). exists c'. split; [done|congruence].
Qed.

Lemma OpenPort_readers_ok (m : Manager) (name : string) (cfg : PortConfig)
    (client : string) (ex : bool) (env : OpenEnv) :
  readers_ok m -> readers_ok (OpenPort m name cfg client ex env).1.
Proof.
  intros Hok. unfold OpenPort.
  destruct (Validate cfg); [done|].
  destruct (port_locked m name ex); [done|].
  destruct (drv_open env) as [h|]; [|done].
  destruct (if 0 <? ReadTimeoutMs cfg then _ else _); [done|]. simpl.
  pose proof (fresh_loc_unused m) as Hfresh.
  set (l := fresh (dom (heap m))) in *.
  destruct Hok as (Hnd & Hop & Hdj & Hcap).
  unfold readers_ok; simpl. split; [|split; [|split]].
  - intros l' s [[<- <-]|[Hne Hs]]%lookup_insert_Some; simpl; [constructor|eauto].
  - intros l' s ch [[<- <-]|[Hne Hs]]%lookup_insert_Some; simpl.
    + by intros ?%elem_of_nil.
    + eauto.
  - intros l1 l2 s1 s2 ch [[<- <-]|[Hne1 Hs1]]%lookup_insert_Some
      [[<- <-]|[Hne2 Hs2]]%lookup_insert_Some; simpl;
      try (by intros ?%elem_of_nil); try (by intros ? ?%elem_of_nil); eauto.
  - done.
Qed.

Lemma closeSessionLocked_readers_ok (m : Manager) (l : loc) (s : Session)
    (d : option error) :
  readers_ok m -> heap m !! l = Some s ->
  readers_ok (closeSessionLocked m l d).1.
Proof.
  intros (Hnd & Hop & Hdj & Hcap) Hl.
  rewrite (closeSessionLocked_eq _ _ _ _ Hl). cbn [fst].
  unfold readers_ok; simpl. split; [|split; [|split]].
  - intros l' s0 [[<- <-]|[Hne Hs]]%lookup_insert_Some; simpl; [constructor|eauto].
  - intros l' s0 ch [[<- <-]|[Hne Hs]]%lookup_insert_Some; simpl.
    + by intros ?%elem_of_nil.
    + intros Hin. destruct (Hop _ _ _ Hs Hin) as (c & Hc & Hcl).
      rewrite close_all_chans_lookup, Hc. simpl. eexists. split; [done|].
      rewrite decide_False; [done|].
      intros Hin'. apply Hne. by eapply Hdj.
  - intros l1 l2 s1 s2 ch [[<- <-]|[Hne1 Hs1]]%lookup_insert_Some
      [[<- <-]|[Hne2 Hs2]]%lookup_insert_Some; simpl;
      try (by intros ?%elem_of_nil); try (by intros ? ?%elem_of_nil); eauto.
  - intros ch c. rewrite close_all_chans_lookup.
    destruct (chans m !! ch) as [c0|] eqn:Hc0; simpl; [|done].
    intros [= <-]. destruct (Hcap _ _ Hc0). by case_decide.
Qed.

Lemma ClosePort_readers_ok (m : Manager) (name id : string) (d : option error) :
  wf m -> readers_ok m -> readers_ok (ClosePort m name id d).1.
Proof.
  intros Hwf Hok. unfold ClosePort.
  destruct (sessions m !! name) as [l|] eqn:Hs; [|done].
  case_decide; [|done]. destruct (wf_lookup _ _ _ Hwf Hs) as [Hl _].
  by eapply closeSessionLocked_readers_ok.
Qed.

Lemma CloseAll_readers_ok (m : Manager) :
  wf m -> readers_ok m -> readers_ok (CloseAll m).
Proof.
  unfold CloseAll. generalize (map_to_list (sessions m)). intros kvs. revert m.
  induction kvs as [|kv kvs IH]; intros m Hwf Hok; [done|].
  cbn [foldl]. case_decide as Hk; [|by apply IH].
  destruct (wf_lookup _ _ _ Hwf Hk) as [Hl _]. apply IH.
  - by apply (closeSessionLocked_wf m kv.1 kv.2 None).
  - by eapply closeSessionLocked_readers_ok.
Qed.

Lemma Write_readers_ok (m : Manager) (name id : string) (data : bytes)
    (d : Z * option error) (now : Z) :
  wf m -> readers_ok m -> readers_ok (Write m name id data d now).1.
Proof.
  intros Hwf Hok. unfold Write.
  destruct (ValidateSession m name id) as [l|] eqn:Hv; [|done].
  pose proof (ValidateSession_heap _ _ _ _ Hwf Hv) as Hl.
  destruct d.2; simpl; by eapply readers_ok_store.
Qed.

Lemma try_send_bound {A : Type} (v : A) (c : Chan A) :
  (length (ch_buf c) <= ch_cap c)%nat ->
  ch_cap (try_send v c) = ch_cap c /\
  (length (ch_buf (try_send v c)) <= ch_cap c)%nat.
Proof.
  intros Hle. unfold try_send. destruct (ch_closed c); [done|].
  destruct (length (ch_buf c) <? ch_cap c)%nat eqn:E; simpl; [|done].
  apply Nat.ltb_lt in E. rewrite length_app. simpl. split; [done|lia].
Qed.

Lemma send_all_keeps {A : Type} (v : A) (ids : list chan_id)
    (cs : gmap chan_id (Chan A)) (ch : chan_id) (c : Chan A) :
  cs !! ch = Some c -> (length (ch_buf c) <= ch_cap c)%nat ->
  exists c', send_all v ids cs !! ch = Some c' /\
    ch_closed c' = ch_closed c /\ ch_cap c' = ch_cap c /\
    (length (ch_buf c') <= ch_cap c)%nat.
Proof.
  unfold send_all. revert cs c. induction ids as [|x ids IH]; intros cs c Hc Hle.
  - simpl. eauto.
  - cbn [foldl]. destruct (decide (x = ch)) as [->|Hne].
    + destruct (try_send_bound v c Hle) as [Hcap Hlen].
      destruct (IH (alter (try_send v) ch cs) (try_send v c)) as (c' & H1 & H2 & H3 & H4).
      { by rewrite lookup_alter_eq, Hc. }
      { by rewrite Hcap. }
      exists c'. split; [done|]. rewrite H2, H3, Hcap in *.
      by rewrite (proj1 (try_send_buf v c)).
    + apply IH; [|done]. by rewrite lookup_alter_ne.
Qed.

Lemma Read_readers_ok (m : Manager) (name id : string) (mx : Z)
    (d : bytes * option error) (now : Z) :
  wf m -> readers_ok m -> readers_ok (Read m name id mx d now).1.
Proof.
  intros Hwf Hok. unfold Read.
  destruct (ValidateSession m name id) as [l|] eqn:Hv; [|done].
  pose proof (ValidateSession_heap _ _ _ _ Hwf Hv) as Hl.
  destruct d.2; cbv zeta; cbn [fst]; [by eapply readers_ok_store|].
  match goal with |- readers_ok (if ?b then _ else _) => destruct b end;
    [|by eapply readers_ok_store].
  assert (readers_ok (store l (set_Statistics
            (mkStats (BytesSent (Statistics (load m l)))
               (AddUint64 (BytesReceived (Statistics (load m l)))
                  (uint64 (Z.of_nat (length (take (Z.to_nat mx) d.1)))))
               (Errors (Statistics (load m l))) (OpenedAt (Statistics (load m l))) now)
            (load m l)) m)) as Hok1 by (by eapply readers_ok_store).
  apply readers_ok_set_chans; [done| |].
  - intros ch c Hc. simpl in Hc. unfold bytes in *.
    destruct Hok as (_ & _ & _ & Hcap). destruct (Hcap _ _ Hc) as [Hc1 Hc2].
    destruct (send_all_keeps (take (Z.to_nat mx) d.1) (readers (load m l))
                (chans m) ch c Hc) as (c' & H1 & H2 & _); [unfold bytes in *; lia|].
    exists c'. done.
  - intros ch c' Hc'. simpl in Hc'.
    assert (is_Some (chans m !! ch)) as [c Hc].
    { apply (proj1 (send_all_is_Some (take (Z.to_nat mx) d.1)
                      (readers (load m l)) (chans m) ch)).
      exact (mk_is_Some _ _ Hc'). }
    destruct Hok as (_ & _ & _ & Hcap). destruct (Hcap _ _ Hc) as [Hc1 Hc2].
    destruct (send_all_keeps (take (Z.to_nat mx) d.1) (readers (load m l))
                (chans m) ch c Hc) as (c'' & H1 & H2 & H3 & H4);
      [unfold bytes in *; lia|].
    pose proof (eq_trans (eq_sym Hc') H1) as [= ->].
    unfold bytes in *. rewrite H3. split; [done|lia].
Qed.

Lemma Configure_readers_ok (m : Manager) (name id : string) (cfg : PortConfig)
    (d1 d2 : option error) :
  wf m -> readers_ok m -> readers_ok (Configure m name id cfg d1 d2).1.
Proof.
  intros Hwf Hok. unfold Configure.
  destruct (ValidateSession m name id) as [l|] eqn:Hv; [|done].
  pose proof (ValidateSession_heap _ _ _ _ Hwf Hv) as Hl.
  destruct (Validate cfg); [done|]. destruct d1; [done|].
  destruct (if 0 <? ReadTimeoutMs cfg then _ else _); [done|]. simpl.
  by eapply readers_ok_store.
Qed.

(** What a [SubscribeToReads] that passes the session check does, in one
    piece. *)
Lemma SubscribeToReads_eq (m : Manager) (name id : string) (l : loc) (s : Session) :
  ValidateSession m name id = Ok l -> heap m !! l = Some s ->
  SubscribeToReads m name id =
    (mkManager (<[l := set_readers (readers s ++ [fresh (dom (chans m))]) s]> (heap m))
       (<[fresh (dom (chans m)) := make_chan 100]> (chans m))
       (sessions m) (sessionsByID m) (allowSharedAccess m) (defaultConfig m),
     Ok (fresh (dom (chans m)))).
Proof.
  intros Hv Hl. unfold SubscribeToReads. rewrite Hv. cbv zeta.
  unfold store, set_chans, set_heap, load; simpl. by rewrite Hl.
Qed.

(** What an [UnsubscribeFromReads] that finds the channel does, in one
    piece. *)
Lemma UnsubscribeFromReads_eq (m : Manager) (name id : string) (ch : chan_id)
    (l : loc) (s : Session) (i : nat) :
  ValidateSession m name id = Ok l -> heap m !! l = Some s ->
  index_of ch (readers s) = Some i ->
  UnsubscribeFromReads m name id ch =
    (mkManager (<[l := set_readers (delete i (readers s)) s]> (heap m))
       (alter close_chan ch (chans m))
       (sessions m) (sessionsByID m) (allowSharedAccess m) (defaultConfig m),
     None).
Proof.
  intros Hv Hl Hi. unfold UnsubscribeFromReads. rewrite Hv.
  rewrite (load_Some _ _ _ Hl), Hi. cbv zeta.
  unfold store, set_chans, set_heap, load; simpl. by rewrite Hl.
Qed.

Lemma fresh_chan_unlisted (m : Manager) (l : loc) (s : Session) :
  readers_ok m -> heap m !! l = Some s -> fresh (dom (chans m)) ∉ readers s.
Proof.
  intros (_ & Hop & _) Hl Hin. destruct (Hop _ _ _ Hl Hin) as (c & Hc & _).
  apply (is_fresh (dom (chans m))), elem_of_dom. eauto.
Qed.

Lemma SubscribeToReads_readers_ok (m : Manager) (name id : string) :
  wf m -> readers_ok m -> readers_ok (SubscribeToReads m name id).1.
Proof.
  intros Hwf Hok.
  destruct (ValidateSession m name id) as [l|] eqn:Hv;
    [|unfold SubscribeToReads; by rewrite Hv].
  pose proof (ValidateSession_heap _ _ _ _ Hwf Hv) as Hl.
  rewrite (SubscribeToReads_eq _ _ _ _ _ Hv Hl). cbn [fst].
  pose proof (fun l s => fresh_chan_unlisted m l s Hok) as Hfresh.
  pose proof (is_fresh (dom (chans m))) as Hdom.
  set (ch := fresh (dom (chans m))) in *.
  destruct Hok as (Hnd & Hop & Hdj & Hcap).
  unfold readers_ok; simpl. split; [|split; [|split]].
  - intros l' s [[<- <-]|[Hne Hs]]%lookup_insert_Some; simpl; [|eauto].
    apply NoDup_app. split; [eauto|]. split; [|apply NoDup_singleton].
    intros x Hx ->%list_elem_of_singleton. by eapply Hfresh.
  - intros l' s x [[<- <-]|[Hne Hs]]%lookup_insert_Some; simpl.
    + intros [Hx| ->%list_elem_of_singleton]%elem_of_app.
      * destruct (Hop _ _ _ Hl Hx) as (c & Hc & Hcl). exists c.
        rewrite lookup_insert_ne; [done|]. intros <-. by eapply Hfresh.
      * rewrite lookup_insert_eq. eauto.
    + intros Hx. destruct (Hop _ _ _ Hs Hx) as (c & Hc & Hcl). exists c.
      rewrite lookup_insert_ne; [done|]. intros <-. by eapply Hfresh.
  - intros l1 l2 s1 s2 x [[<- <-]|[Hne1 Hs1]]%lookup_insert_Some
      [[<- <-]|[Hne2 Hs2]]%lookup_insert_Some; simpl; [done| | |by eauto].
    + intros [Hx| ->%list_elem_of_singleton]%elem_of_app Hx2; [by eauto|].
      by destruct (Hfresh _ _ Hs2).
    + intros Hx1 [Hx| ->%list_elem_of_singleton]%elem_of_app; [by eauto|].
      by destruct (Hfresh _ _ Hs1).
  - intros x c [[<- <-]|[Hne Hc]]%lookup_insert_Some; [|eauto].
    simpl. split; [done|lia].
Qed.

Lemma UnsubscribeFromReads_readers_ok (m : Manager) (name id : string)
    (ch : chan_id) :
  wf m -> readers_ok m -> readers_ok (UnsubscribeFromReads m name id ch).1.
Proof.
  intros Hwf Hok.
  destruct (ValidateSession m name id) as [l|] eqn:Hv;
    [|unfold UnsubscribeFromReads; by rewrite Hv].
  pose proof (ValidateSession_heap _ _ _ _ Hwf Hv) as Hl.
  destruct (index_of ch (readers (load m l))) as [i|] eqn:Hi;
    [|unfold UnsubscribeFromReads; by rewrite Hv, Hi].
  rewrite (UnsubscribeFromReads_eq _ _ _ _ _ _ _ Hv Hl Hi). cbn [fst].
  apply index_of_Some in Hi.
  destruct Hok as (Hnd & Hop & Hdj & Hcap).
  destruct (NoDup_delete_index _ _ _ (Hnd _ _ Hl) Hi) as [Hnd' Hnin].
  assert (ch ∈ readers (load m l)) as Hin by (by eapply list_elem_of_lookup_2).
  unfold readers_ok; simpl. split; [|split; [|split]].
  - intros l' s [[<- <-]|[Hne Hs]]%lookup_insert_Some; simpl; eauto.
  - intros l' s x [[<- <-]|[Hne Hs]]%lookup_insert_Some; simpl.
    + intros Hx. assert (x <> ch) as Hxc by (intros ->; done).
      rewrite lookup_alter_ne by done.
      eapply Hop; [exact Hl|]. by eapply elem_of_delete_index.
    + intros Hx. assert (x <> ch) as Hxc.
      { intros ->. apply Hne. by eapply Hdj. }
      rewrite lookup_alter_ne by done. eauto.
  - intros l1 l2 s1 s2 x [[<- <-]|[Hne1 Hs1]]%lookup_insert_Some
      [[<- <-]|[Hne2 Hs2]]%lookup_insert_Some; simpl; [done| | |by eauto].
    + intros Hx%elem_of_delete_index Hx2. by eauto.
    + intros Hx1 Hx%elem_of_delete_index. by eauto.
  - intros x c. destruct (decide (ch = x)) as [->|Hne].
    + rewrite lookup_alter_eq. destruct (chans m !! x) as [c0|] eqn:Hc0; [|done].
      simpl. intros [= <-]. by destruct (Hcap _ _ Hc0).
    + rewrite lookup_alter_ne by done. eauto.
Qed.

Lemma step_readers_ok (m : Manager) (c : call) :
  wf m -> readers_ok m -> readers_ok (step m c).
Proof.
  destruct c; simpl;
    auto using OpenPort_readers_ok, ClosePort_readers_ok, CloseAll_readers_ok,
      Write_readers_ok, Read_readers_ok, Configure_readers_ok,
      SubscribeToReads_readers_ok, UnsubscribeFromReads_readers_ok.
Qed.

Lemma run_readers_ok (m : Manager) (cs : list call) :
  wf m -> readers_ok m -> readers_ok (run m cs).
Proof.
  unfold run. revert m. induction cs as [|c cs IH]; intros m Hwf Hok; [done|].
  simpl. apply IH; [by apply step_wf|by apply step_readers_ok].
Qed.

Lemma reachable_readers_ok (m : Manager) : reachable m -> readers_ok m.
Proof.
  intros (allow & cfg & cs & ->).
  apply run_readers_ok; [apply wf_NewManager|apply readers_ok_NewManager].
Qed.

(** X7: in every state that calls produce, the reader channels of a
    session are distinct, exist and are open, no channel belongs to two
    sessions, and every channel has capacity 100 and a queue within it.
    So neither the sends of [Read] nor the [close] calls of
    [UnsubscribeFromReads] and [closeSessionLocked] meet a closed
    channel. *)
Theorem reader_channels_open_and_bounded (m : Manager) (l : loc) (s : Session)
    (ch : chan_id) :
  reachable m -> heap m !! l = Some s -> ch ∈ readers s ->
  NoDup (readers s) /\
  (exists c, chans m !! ch = Some c /\ ch_closed c = false /\
     ch_cap c = 100%nat /\ (length (ch_buf c) <= 100)%nat) /\
  (forall l' s', heap m !! l' = Some s' -> ch ∈ readers s' -> l' = l).
Proof.
  intros (Hnd & Hop & Hdj & Hcap)%reachable_readers_ok Hl Hin.
  split; [eauto|]. split.
  - destruct (Hop _ _ _ Hl Hin) as (c & Hc & Hcl). exists c.
    destruct (Hcap _ _ Hc). done.
  - intros l' s' Hl' Hin'. eauto.
Qed.

(** X7 at the worked example: the subscription taken on COM3. *)
Lemma reader_channels_open_and_bounded_witness :
  exists c, chans ScenarioSubscribed.m_subscribed !! 0%nat = Some c /\
    ch_closed c = false /\ ch_cap c = 100%nat /\ (length (ch_buf c) <= 100)%nat.
Proof.
  refine (proj1 (proj2 (reader_channels_open_and_bounded
            ScenarioSubscribed.m_subscribed 0%nat
            (load ScenarioSubscribed.m_subscribed 0%nat) 0%nat _ _ _))).
  - exists true, DefaultConfig, ScenarioSubscribed.subscribed_calls. reflexivity.
  - reflexivity.
  - vm_compute. left.
Defined.

(** ** Reads reach the subscribers *)

(** What a [Read] that passes the session check and whose driver read
    succeeds does, in one piece. *)
Lemma Read_eq (m : Manager) (name id : string) (mx : Z) (data : bytes) (now : Z)
    (l : loc) (s : Session) :
  ValidateSession m name id = Ok l -> heap m !! l = Some s ->
  let chunk := take (Z.to_nat mx) data in
  Read m name id mx (data, None) now =
    (mkManager
       (<[l := set_Statistics
                 (mkStats (BytesSent (Statistics s))
                    (AddUint64 (BytesReceived (Statistics s))
                       (uint64 (Z.of_nat (length chunk))))
                    (Errors (Statistics s)) (OpenedAt (Statistics s)) now) s]>
          (heap m))
       (if 0 <? Z.of_nat (length chunk)
        then send_all chunk (readers s) (chans m) else chans m)
       (sessions m) (sessionsByID m) (allowSharedAccess m) (defaultConfig m),
     Ok chunk).
Proof.
  intros Hv Hl. cbv zeta. unfold Read. rewrite Hv. cbn [snd fst].
  rewrite (load_Some _ _ _ Hl).
  destruct (0 <? Z.of_nat (length (take (Z.to_nat mx) data))); reflexivity.
Qed.

(** X8: a read that the driver answers hands back at most [maxBytes]
    bytes, adds their number to [BytesReceived] modulo 2^64, and queues
    the chunk on every reader channel of the session that has room; a
    reader channel that already holds 100 chunks misses it, and so does
    everyone when the chunk is empty.  Other channels are not touched. *)
Theorem Read_counts_and_broadcasts (m : Manager) (name id : string)
    (maxBytes : Z) (data : bytes) (now : Z) (l : loc) :
  reachable m -> 0 <= maxBytes -> ValidateSession m name id = Ok l ->
  let chunk := take (Z.to_nat maxBytes) data in
  let m' := (Read m name id maxBytes (data, None) now).1 in
  (Read m name id maxBytes (data, None) now).2 = Ok chunk /\
  Z.of_nat (length chunk) <= maxBytes /\
  BytesReceived (Statistics (load m' l)) =
    (BytesReceived (Statistics (load m l)) + Z.of_nat (length chunk)) mod 2 ^ 64 /\
  (forall ch c, chans m !! ch = Some c ->
     chans m' !! ch =
       Some (if bool_decide (ch ∈ readers (load m l))
                && negb (Nat.eqb (length chunk) 0)
                && (length (ch_buf c) <? 100)%nat
             then mkChan (ch_buf c ++ [chunk]) (ch_cap c) (ch_closed c)
             else c)).
Proof.
  intros Hreach Hmx Hv. pose proof (reachable_wf _ Hreach) as Hwf.
  destruct (reachable_readers_ok _ Hreach) as (Hnd & Hop & _ & Hcap).
  pose proof (ValidateSession_heap _ _ _ _ Hwf Hv) as Hl.
  cbv zeta. rewrite (Read_eq _ _ _ _ _ _ _ _ Hv Hl). cbn [fst snd].
  set (chunk := take (Z.to_nat maxBytes) data).
  split; [done|]. split.
  { unfold chunk. rewrite length_take. lia. }
  split.
  { unfold load at 1; simpl. rewrite lookup_insert_eq. simpl.
    apply AddUint64_uint64. }
  intros ch c Hc. simpl. unfold bytes in *.
  destruct (Nat.eqb (length chunk) 0) eqn:Hlen.
  - apply Nat.eqb_eq in Hlen. rewrite Hlen. simpl.
    by rewrite andb_false_r.
  - apply Nat.eqb_neq in Hlen.
    replace (0 <? Z.of_nat (length chunk)) with true by (symmetry; apply Z.ltb_lt; lia).
    destruct (bool_decide_reflect (ch ∈ readers (load m l))) as [Hin|Hnin]; simpl.
    + destruct (Hop _ _ _ Hl Hin) as (c0 & Hc0 & Hcl).
      pose proof (eq_trans (eq_sym Hc) Hc0) as [= <-].
      destruct (Hcap _ _ Hc) as [Hcap1 _].
      rewrite send_all_lookup, Hc by eauto. simpl. rewrite decide_True by done.
      unfold try_send. rewrite Hcl, Hcap1. by destruct (_ <? _)%nat.
    + rewrite send_all_lookup, Hc by eauto. simpl. by rewrite decide_False.
Qed.

(** X8 at the worked example: the subscriber of COM3 gets the chunk
    "HI". *)
Lemma Read_counts_and_broadcasts_witness :
  chans (Read ScenarioSubscribed.m_subscribed "COM3" "SA" 16 ([x48; x49], None) 7).1
    !! 0%nat = Some (mkChan [[x48; x49]] 100 false).
Proof.
  destruct (Read_counts_and_broadcasts ScenarioSubscribed.m_subscribed
              "COM3" "SA" 16 [x48; x49] 7 0%nat) as (_ & _ & _ & H).
  - exists true, DefaultConfig, ScenarioSubscribed.subscribed_calls. reflexivity.
  - lia.
  - reflexivity.
  - exact (H 0%nat (make_chan 100) eq_refl).
Defined.

(** ** Subscribing and unsubscribing *)

Lemma index_of_app_new (ch : chan_id) (l : list chan_id) :
  ch ∉ l -> index_of ch (l ++ [ch]) = Some (length l).
Proof.
  induction l as [|x l IH]; intros Hnin; simpl.
  - by rewrite decide_True.
  - apply not_elem_of_cons in Hnin as [Hne Hnin].
    rewrite decide_False by done. by rewrite IH.
Qed.

Lemma delete_last (l : list chan_id) (ch : chan_id) :
  delete (length l) (l ++ [ch]) = l.
Proof. induction l as [|x l IH]; simpl; [done|]. by rewrite IH. Qed.

Lemma set_readers_same (s : Session) (r : list chan_id) :
  set_readers (readers s) (set_readers r s) = s.
Proof. by destruct s. Qed.

(** The session check looks at the port index and at the id and the
    closed flag of the session found there. *)
Lemma ValidateSession_ext (m m' : Manager) (name id : string) (l : loc) :
  ValidateSession m name id = Ok l ->
  sessions m' = sessions m ->
  ID (load m' l) = ID (load m l) -> closed (load m' l) = closed (load m l) ->
  ValidateSession m' name id = Ok l.
Proof.
  intros (Hs & Hid & Hcl)%ValidateSession_Ok Hs' Hid' Hcl'.
  unfold ValidateSession. rewrite Hs', Hs, Hid', Hcl', Hcl.
  by rewrite decide_True.
Qed.

(** X9: a subscription followed by its cancellation leaves the manager
    as it was, up to the new channel, which stays behind closed and
    empty: [SubscribeToReads] makes a channel that did not exist, of
    capacity 100, and lists it last; [UnsubscribeFromReads] with that
    channel returns no error, closes it and restores the session
    objects and both indexes. *)
Theorem Subscribe_Unsubscribe_round_trip (m : Manager) (name id : string)
    (l : loc) :
  reachable m -> ValidateSession m name id = Ok l ->
  exists (ch : chan_id) (m1 : Manager),
    SubscribeToReads m name id = (m1, Ok ch) /\
    chans m !! ch = None /\
    readers (load m1 l) = readers (load m l) ++ [ch] /\
    chans m1 !! ch = Some (make_chan 100) /\
    (UnsubscribeFromReads m1 name id ch).2 = None /\
    heap (UnsubscribeFromReads m1 name id ch).1 = heap m /\
    sessions (UnsubscribeFromReads m1 name id ch).1 = sessions m /\
    sessionsByID (UnsubscribeFromReads m1 name id ch).1 = sessionsByID m /\
    chans (UnsubscribeFromReads m1 name id ch).1
      = <[ch := close_chan (make_chan 100)]> (chans m).
Proof.
  intros Hreach Hv. pose proof (reachable_wf _ Hreach) as Hwf.
  pose proof (reachable_readers_ok _ Hreach) as Hok.
  pose proof (ValidateSession_heap _ _ _ _ Hwf Hv) as Hl.
  pose proof (fresh_chan_unlisted m l _ Hok Hl) as Hnin.
  rewrite (SubscribeToReads_eq _ _ _ _ _ Hv Hl).
  set (ch := fresh (dom (chans m))) in *.
  set (s := load m l) in *.
  set (m1 := mkManager _ _ _ _ _ _).
  exists ch, m1. split; [done|].
  assert (heap m1 !! l = Some (set_readers (readers s ++ [ch]) s)) as Hl1.
  { unfold m1; simpl. apply lookup_insert_eq. }
  assert (ValidateSession m1 name id = Ok l) as Hv1.
  { apply (ValidateSession_ext m); [done|done|..];
      by rewrite (load_Some _ _ _ Hl1). }
  split; [apply not_elem_of_dom, is_fresh|].
  split; [by rewrite (load_Some _ _ _ Hl1)|].
  split; [unfold m1; simpl; apply lookup_insert_eq|].
  rewrite (UnsubscribeFromReads_eq _ _ _ _ _ _ (length (readers s)) Hv1 Hl1);
    [|simpl; by apply index_of_app_new].
  cbn [fst snd heap sessions sessionsByID chans]. split; [done|].
  split; [|split; [done|split; [done|]]].
  - unfold m1; simpl. rewrite delete_last.
    rewrite insert_insert_eq.
    rewrite set_readers_same. by apply insert_id.
  - unfold m1; simpl. apply alter_insert_eq.
Qed.

(** X9 at the worked example: a subscription on COM3 and back. *)
Lemma Subscribe_Unsubscribe_round_trip_witness :
  exists (ch : chan_id) (m1 : Manager),
    SubscribeToReads Scenario.m1 "COM3" "SA" = (m1, Ok ch) /\
    heap (UnsubscribeFromReads m1 "COM3" "SA" ch).1 = heap Scenario.m1.
Proof.
  destruct (Subscribe_Unsubscribe_round_trip Scenario.m1 "COM3" "SA" 0%nat)
    as (ch & m1 & H1 & _ & _ & _ & _ & H2 & _).
  - exists true, DefaultConfig,
      [CallOpenPort "COM3" DefaultConfig "a" false Scenario.env_a]. reflexivity.
  - reflexivity.
  - by exists ch, m1.
Defined.

(** ** The closed flag of an indexed session *)

Lemma indexed_open_NewManager (allow : bool) (cfg : PortConfig) :
  indexed_open (NewManager allow cfg).
Proof. intros name l. unfold NewManager; simpl. by rewrite lookup_empty. Qed.

(** A call that overwrites one allocated session without touching its
    closed flag or the port index. *)
Lemma indexed_open_update (m m' : Manager) (l : loc) (s s' : Session) :
  heap m !! l = Some s -> heap m' = <[l := s']> (heap m) ->
  sessions m' = sessions m -> closed s' = closed s ->
  indexed_open m -> indexed_open m'.
Proof.
  intros Hl Hh Hs Hc Hio name l' Hn. rewrite Hs in Hn.
  specialize (Hio _ _ Hn). unfold load in *. rewrite Hh.
  destruct (decide (l = l')) as [<-|Hne].
  - rewrite lookup_insert_eq. simpl. rewrite Hl in Hio. simpl in Hio. congruence.
  - by rewrite lookup_insert_ne.
Qed.

Lemma OpenPort_indexed_open (m : Manager) (name : string) (cfg : PortConfig)
    (client : string) (ex : bool) (env : OpenEnv) :
  wf m -> indexed_open m -> indexed_open (OpenPort m name cfg client ex env).1.
Proof.
  intros Hwf Hio. unfold OpenPort.
  destruct (Validate cfg); [done|].
  destruct (port_locked m name ex); [done|].
  destruct (drv_open env) as [h|]; [|done].
  destruct (if 0 <? ReadTimeoutMs cfg then _ else _); [done|]. simpl.
  pose proof (fresh_loc_unused m) as Hfresh.
  set (l := fresh (dom (heap m))) in *.
  intros n l'. unfold load; simpl.
  intros [[<- <-]|[Hne Hs]]%lookup_insert_Some.
  - by rewrite lookup_insert_eq.
  - destruct (wf_lookup _ _ _ Hwf Hs) as [Hl' _].
    rewrite lookup_insert_ne by congruence. by apply (Hio n).
Qed.

Lemma closeSessionLocked_indexed_open (m : Manager) (name : string) (l : loc)
    (d : option error) :
  wf m -> sessions m !! name = Some l -> indexed_open m ->
  indexed_open (closeSessionLocked m l d).1.
Proof.
  intros Hwf Hs Hio. destruct (wf_lookup _ _ _ Hwf Hs) as [Hl Hname].
  rewrite (closeSessionLocked_eq _ _ _ _ Hl). cbn [fst].
  intros n l'. cbn [sessions]. rewrite Hname.
  intros [Hne Hn]%lookup_delete_Some.
  destruct (wf_lookup _ _ _ Hwf Hn) as [_ Hname'].
  unfold load at 1; cbn [heap].
  rewrite lookup_insert_ne by congruence. by apply (Hio n).
Qed.

Lemma CloseAll_indexed_open (m : Manager) :
  wf m -> indexed_open m -> indexed_open (CloseAll m).
Proof.
  unfold CloseAll. generalize (map_to_list (sessions m)). intros kvs. revert m.
  induction kvs as [|kv kvs IH]; intros m Hwf Hio; [done|].
  cbn [foldl]. case_decide as Hk; [|by apply IH]. apply IH.
  - by apply (closeSessionLocked_wf m kv.1 kv.2 None).
  - by apply (closeSessionLocked_indexed_open m kv.1).
Qed.

Lemma step_indexed_open (m : Manager) (c : call) :
  wf m -> indexed_open m -> indexed_open (step m c).
Proof.
  intros Hwf Hio.
  destruct c as [n cfg cl ex env|n i d| |n i data d now|n i mx d now
                |n i cfg d1 d2|n i|n i ch|n i d1 d2]; simpl.
  - by apply OpenPort_indexed_open.
  - unfold ClosePort. destruct (sessions m !! n) as [l|] eqn:Hs; [|done].
    case_decide; [|done]. by apply (closeSessionLocked_indexed_open m n).
  - by apply CloseAll_indexed_open.
  - unfold Write. destruct (ValidateSession m n i) as [l|] eqn:Hv; [|done].
    pose proof (ValidateSession_heap _ _ _ _ Hwf Hv) as Hl.
    destruct d.2; simpl;
      by eapply (indexed_open_update m _ l (load m l)).
  - unfold Read. destruct (ValidateSession m n i) as [l|] eqn:Hv; [|done].
    pose proof (ValidateSession_heap _ _ _ _ Hwf Hv) as Hl.
    destruct d.2; cbv zeta; cbn [fst].
    + by eapply (indexed_open_update m _ l (load m l)).
    + match goal with |- indexed_open (if ?b then _ else _) => destruct b end;
        by eapply (indexed_open_update m _ l (load m l)).
  - unfold Configure. destruct (ValidateSession m n i) as [l|] eqn:Hv; [|done].
    pose proof (ValidateSession_heap _ _ _ _ Hwf Hv) as Hl.
    destruct (Validate cfg); [done|]. destruct d1; [done|].
    destruct (if 0 <? ReadTimeoutMs cfg then _ else _); [done|]. simpl.
    by eapply (indexed_open_update m _ l (load m l)).
  - destruct (ValidateSession m n i) as [l|] eqn:Hv;
      [|unfold SubscribeToReads; by rewrite Hv].
    pose proof (ValidateSession_heap _ _ _ _ Hwf Hv) as Hl.
    rewrite (SubscribeToReads_eq _ _ _ _ _ Hv Hl). cbn [fst].
    by eapply (indexed_open_update m _ l (load m l)).
  - destruct (ValidateSession m n i) as [l|] eqn:Hv;
      [|unfold UnsubscribeFromReads; by rewrite Hv].
    pose proof (ValidateSession_heap _ _ _ _ Hwf Hv) as Hl.
    destruct (index_of ch (readers (load m l))) as [k|] eqn:Hi;
      [|unfold UnsubscribeFromReads; by rewrite Hv, Hi].
    rewrite (UnsubscribeFromReads_eq _ _ _ _ _ _ _ Hv Hl Hi). cbn [fst].
    by eapply (indexed_open_update m _ l (load m l)).
  - done.
Qed.

Lemma reachable_indexed_open (m : Manager) : reachable m -> indexed_open m.
Proof.
  intros (allow & cfg & cs & ->).
  assert (forall m0, wf m0 -> indexed_open m0 -> indexed_open (run m0 cs)) as H.
  { unfold run. induction cs as [|c cs IH]; intros m0 Hwf Hio; [done|].
    simpl. apply IH; [by apply step_wf|by apply step_indexed_open]. }
  apply H; [apply wf_NewManager|apply indexed_open_NewManager].
Qed.

Lemma ValidateSession_reachable (m : Manager) (name id : string) :
  reachable m -> ValidateSession m name id = ValidateSession_index m name id.
Proof.
  intros Hio%reachable_indexed_open. unfold ValidateSession, ValidateSession_index.
  destruct (sessions m !! name) as [l|] eqn:Hs; [|done].
  case_decide; [|done]. by rewrite (Hio _ _ Hs).
Qed.

(** X10: in every state that calls produce, a session that the port
    index holds is not marked closed, so [ValidateSession] never takes
    its PortClosed branch: it answers PortNotOpen, InvalidSession or the
    session.  A [Read] therefore fails with one of the two errors that
    stop a read loop exactly when the port is held under another id; on
    a port that has been closed it fails with PortNotOpen. *)
Theorem ValidateSession_never_PortClosed (m : Manager) (name id : string) :
  reachable m ->
  ValidateSession m name id = ValidateSession_index m name id /\
  (forall l, sessions m !! name = Some l -> closed (load m l) = false) /\
  (forall mx d now,
     fatal (Read m name id mx d now).2 = true <->
     exists l, sessions m !! name = Some l /\ ID (load m l) <> id) /\
  (forall mx d now,
     sessions m !! name = None ->
     Read m name id mx d now = (m, Err ErrPortNotOpen)).
Proof.
  intros Hreach. pose proof (ValidateSession_reachable m name id Hreach) as Hv.
  split; [done|]. split; [intros l; by apply reachable_indexed_open|]. split.
  - intros mx d now. unfold Read. rewrite Hv. unfold ValidateSession_index.
    destruct (sessions m !! name) as [l|] eqn:Hs.
    + case_decide as Hid.
      * split; [|intros (l' & [= <-] & Hne); done].
        destruct d.2; cbv zeta; cbn [snd]; simpl; discriminate.
      * simpl. split; [intros _; eauto|done].
    + simpl. split; [discriminate|]. by intros (l & ? & _).
  - intros mx d now Hs. unfold Read, ValidateSession. by rewrite Hs.
Qed.

(** X10 at the worked example: COM3 is held by "SB"; a read under the
    id "SA" gets a fatal error. *)
Lemma ValidateSession_never_PortClosed_witness :
  fatal (Read Scenario.m2 "COM3" "SA" 16 ([], None) 0).2 = true.
Proof.
  assert (reachable Scenario.m2) as Hreach.
  { exists true, DefaultConfig, Scenario.shared_calls. reflexivity. }
  apply (proj1 (proj2 (proj2 (ValidateSession_never_PortClosed
                                 Scenario.m2 "COM3" "SA" Hreach)))).
  exists 1%nat. split; [reflexivity|discriminate].
Defined.

(** ** The read loop on a port that has been closed *)

Lemma loop_round_closed_port (r : Reader) (m : Manager) (lp : Loop)
    (sel : SelectEnv) (d : bytes * option error) (now : Z) :
  running r = true -> stopClosed r = false -> ctx_done sel = false ->
  sessions m !! portName r = None -> pc lp = AtLoopHead ->
  sys_run (mkSystem r m lp) (loop_round sel d now) =
    (mkSystem (broadcast r (error_event ErrPortNotOpen now (AddUint32 (sequence lp) 1)))
       m (mkLoop (AddUint32 (sequence lp) 1) AtLoopHead),
     [Broadcast (error_event ErrPortNotOpen now (AddUint32 (sequence lp) 1))]).
Proof.
  intros Hrun Hstop Hctx Hs Hpc. unfold loop_round.
  cbn [sys_run sys_step sys_reader sys_manager sys_loop].
  unfold loop_step at 1. rewrite Hpc. unfold loop_read.
  rewrite Hrun, Hstop, Hctx. cbn [negb andb orb].
  unfold Read, ValidateSession. rewrite Hs.
  cbn [sys_reader sys_manager sys_loop].
  unfold loop_step. cbn [pc]. unfold loop_publish.
  cbn [no_data fatal sequence make_event].
  rewrite !bool_decide_eq_false_2 by discriminate. reflexivity.
Qed.

Lemma sys_run_app (s : System) (a1 a2 : list action) :
  sys_run s (a1 ++ a2) =
  ((sys_run (sys_run s a1).1 a2).1, (sys_run s a1).2 ++ (sys_run (sys_run s a1).1 a2).2).
Proof.
  revert s. induction a1 as [|a a1 IH]; intros s.
  - simpl. by destruct (sys_run s a2).
  - rewrite <- app_comm_cons, !sys_run_cons, IH. cbn [fst snd].
    by rewrite app_assoc.
Qed.

(** X11: closing the port does not end the read loop.  While the port
    named by a running reader is not open, every turn of its loop gets
    PortNotOpen from [manager.Read], publishes one error event with the
    next sequence number and no data, and comes back to the loop
    condition with the reader still running; the manager is not
    changed. *)
Theorem readLoop_survives_closed_port (r : Reader) (m : Manager) (lp : Loop)
    (sel : SelectEnv) (d : bytes * option error) (now : Z) (n : nat) :
  running r = true -> stopClosed r = false -> ctx_done sel = false ->
  sessions m !! portName r = None -> pc lp = AtLoopHead ->
  let s' := (sys_run (mkSystem r m lp) (concat (repeat (loop_round sel d now) n))).1 in
  let obs := (sys_run (mkSystem r m lp) (concat (repeat (loop_round sel d now) n))).2 in
  IsRunning (sys_reader s') = true /\
  pc (sys_loop s') = AtLoopHead /\
  sys_manager s' = m /\
  broadcasts obs = error_event ErrPortNotOpen now <$> seq_from (sequence lp) n.
Proof.
  revert r lp. induction n as [|n IH]; intros r lp Hrun Hstop Hctx Hs Hpc; cbv zeta.
  - simpl. done.
  - cbn [repeat concat]. rewrite sys_run_app.
    rewrite (loop_round_closed_port r m lp sel d now) by done.
    cbn [fst snd].
    specialize (IH (broadcast r (error_event ErrPortNotOpen now (AddUint32 (sequence lp) 1)))
                  (mkLoop (AddUint32 (sequence lp) 1) AtLoopHead)).
    cbv zeta in IH. destruct IH as (H1 & H2 & H3 & H4); [done..|].
    split; [done|]. split; [done|]. split; [done|].
    rewrite broadcasts_app, H4, seq_from_S. reflexivity.
Qed.

(** X11 at the worked example: COM3 is closed under a running reader,
    whose loop then takes two turns. *)
Lemma readLoop_survives_closed_port_witness :
  IsRunning (sys_reader
    (sys_run (mkSystem Scenario.reader_started ScenarioReader.m_closed loop_start)
       (concat (repeat (loop_round Scenario.select_idle ([], None) 9) 2))).1) = true.
Proof.
  apply (readLoop_survives_closed_port Scenario.reader_started
           ScenarioReader.m_closed loop_start Scenario.select_idle ([], None) 9 2);
    reflexivity.
Defined.

(** ** Stopping a reader *)

(** Taking every queued event off a channel, one receive after the
    other. *)
Lemma receive_all (r : Reader) (m : Manager) (lp : Loop) (ch : chan_id)
    (c : Chan DataEvent) :
  subs r !! ch = Some c ->
  received_on ch
    (sys_run (mkSystem r m lp) (repeat (ActReceive ch) (length (ch_buf c)))).2
  = ch_buf c /\
  subs (sys_reader
    (sys_run (mkSystem r m lp) (repeat (ActReceive ch) (length (ch_buf c)))).1) !! ch
  = Some (mkChan [] (ch_cap c) (ch_closed c)).
Proof.
  destruct c as [buf cap cl]. cbn [ch_buf ch_cap ch_closed].
  revert r. induction buf as [|e buf IH]; intros r Hc.
  - simpl. done.
  - cbn [length repeat]. rewrite sys_run_cons.
    assert (sys_step (mkSystem r m lp) (ActReceive ch) =
            (mkSystem (mkReader (portName r) (sessionID r) (bufferSize r) (running r)
                         (stopClosed r) (subscribers r)
                         (<[ch := mkChan buf cap cl]> (subs r)) (spawned r)) m lp,
             [Received ch e])) as ->.
    { cbn [sys_step sys_reader sys_manager sys_loop]. unfold receive.
      rewrite Hc. reflexivity. }
    cbn [fst snd].
    edestruct (IH (mkReader (portName r) (sessionID r) (bufferSize r) (running r)
                     (stopClosed r) (subscribers r)
                     (<[ch := mkChan buf cap cl]> (subs r)) (spawned r))) as [H1 H2].
    { cbn. apply lookup_insert_eq. }
    split; [|exact H2].
    rewrite received_on_app, H1. cbn. by rewrite decide_True.
Qed.

(** X12: stopping a running reader leaves it with no subscriber and not
    running, and closes the channel of every subscriber without touching
    what is queued there: the subscriber still receives every queued
    event, in order, and after the last one the channel reports that it
    is closed. *)
Theorem Stop_closes_subscribers_keeps_queue (r : Reader) (m : Manager)
    (lp : Loop) (ch : chan_id) :
  reader_wf r -> running r = true -> ch ∈ subscribers r ->
  SubscriberCount (Stop r) = 0%nat /\
  IsRunning (Stop r) = false /\
  exists c,
    subs r !! ch = Some c /\
    subs (Stop r) !! ch = Some (close_chan c) /\
    let run := sys_run (mkSystem (Stop r) m lp)
                 (repeat (ActReceive ch) (length (queued r ch))) in
    received_on ch run.2 = queued r ch /\
    exists c', subs (sys_reader run.1) !! ch = Some c' /\
      try_recv c' = Some (Closed, c').
Proof.
  intros [Hnd Hsub] Hrun Hin.
  destruct (Hsub ch Hin) as (c & Hc & Hcl).
  assert (subs (Stop r) !! ch = Some (close_chan c)) as Hc'.
  { unfold Stop. rewrite Hrun. cbn.
    rewrite close_all_chans_lookup, Hc. simpl. by rewrite decide_True. }
  split; [unfold Stop; by rewrite Hrun|].
  split; [apply running_Stop|].
  exists c. split; [done|]. split; [done|]. cbv zeta.
  assert (queued r ch = ch_buf (close_chan c)) as Hq.
  { unfold queued. by rewrite Hc. }
  rewrite Hq.
  destruct (receive_all (Stop r) m lp ch (close_chan c) Hc') as [H1 H2].
  split; [done|]. eexists. split; [exact H2|]. reflexivity.
Qed.

(** X12 at the worked example: a subscriber with two events waiting
    receives both after the stop. *)
Lemma Stop_closes_subscribers_keeps_queue_witness :
  received_on 0%nat
    (sys_run (mkSystem (Stop ScenarioReader.reader_two_queued) Scenario.m1 loop_start)
       (repeat (ActReceive 0%nat) 2)).2
  = [mkDataEvent [x48] 1 1 None; mkDataEvent [x49] 2 2 None].
Proof.
  destruct (Stop_closes_subscribers_keeps_queue ScenarioReader.reader_two_queued
              Scenario.m1 loop_start 0%nat) as (_ & _ & c & _ & _ & H & _).
  - split.
    + vm_compute. apply NoDup_singleton.
    + intros ch ->%list_elem_of_singleton. vm_compute. eauto.
  - reflexivity.
  - vm_compute. left.
  - exact H.
Defined.

(** ** Cancelling a subscription to a reader *)

Lemma index_of_None (ch : chan_id) (l : list chan_id) :
  index_of ch l = None <-> ch ∉ l.
Proof.
  induction l as [|x l IH]; simpl.
  - split; [intros _; apply not_elem_of_nil|done].
  - case_decide as Hx.
    + subst. split; [done|]. intros H. destruct H. left.
    + rewrite not_elem_of_cons, <- IH.
      destruct (index_of ch l); simpl.
      * split; [done|by intros [_ ?]].
      * split; [intros _; split; [congruence|done]|done].
Qed.

Lemma length_delete_index (l : list chan_id) (i : nat) (x : chan_id) :
  l !! i = Some x -> length l = S (length (delete i l)).
Proof.
  revert i. induction l as [|y l IH]; intros [|i] Hi; simpl in *; try done.
  f_equal. by apply IH.
Qed.

Lemma elem_of_delete_index_ne (l : list chan_id) (i : nat) (x y : chan_id) :
  l !! i = Some x -> y <> x -> y ∈ l -> y ∈ delete i l.
Proof.
  revert i. induction l as [|z l IH]; intros [|i] Hi Hne Hy; simpl in *; try done.
  - injection Hi as ->. apply elem_of_cons in Hy as [?|?]; done.
  - apply elem_of_cons in Hy as [->|Hy]; [left|right; eauto].
Qed.

(** X13: cancelling the subscription of a listed channel removes that
    channel, and only it, from the subscribers, closes it and leaves the
    other channels alone; what is queued on it stays, and no later
    broadcast reaches it.  Cancelling a channel that is not listed does
    nothing. *)
Theorem Unsubscribe_removes_and_closes (r : Reader) (ch : chan_id) :
  reader_wf r ->
  (ch ∉ subscribers r -> Unsubscribe r ch = r) /\
  (ch ∈ subscribers r ->
     SubscriberCount r = S (SubscriberCount (Unsubscribe r ch)) /\
     (ch ∉ subscribers (Unsubscribe r ch)) /\
     (forall x, x <> ch ->
        (x ∈ subscribers (Unsubscribe r ch) <-> x ∈ subscribers r) /\
        subs (Unsubscribe r ch) !! x = subs r !! x) /\
     (exists c, subs r !! ch = Some c /\ ch_closed c = false /\
        subs (Unsubscribe r ch) !! ch = Some (close_chan c)) /\
     (forall e, queued (broadcast (Unsubscribe r ch) e) ch = queued r ch)).
Proof.
  intros [Hnd Hsub]. split.
  - intros Hnin%index_of_None. unfold Unsubscribe. by rewrite Hnin.
  - intros Hin. destruct (index_of ch (subscribers r)) as [i|] eqn:Hi.
    2: { apply index_of_None in Hi. done. }
    pose proof (index_of_Some _ _ _ Hi) as Hlk.
    destruct (NoDup_delete_index _ _ _ Hnd Hlk) as [Hnd' Hnin].
    destruct (Hsub ch Hin) as (c & Hc & Hcl).
    unfold Unsubscribe, SubscriberCount. rewrite Hi. cbn.
    split; [by eapply length_delete_index|]. split; [done|]. split; [|split].
    + intros x Hne. split.
      * split; [apply elem_of_delete_index|by eapply elem_of_delete_index_ne].
      * by rewrite lookup_alter_ne.
    + exists c. rewrite lookup_alter_eq, Hc. done.
    + intros e. unfold queued, broadcast. cbn [subs subscribers].
      rewrite send_all_lookup by done. rewrite decide_False by done.
      rewrite lookup_alter_eq, Hc. done.
Qed.

(** X13 at the worked example: the one subscriber of the reader of COM3
    cancels. *)
Lemma Unsubscribe_removes_and_closes_witness :
  SubscriberCount ScenarioReader.reader_two_queued
    = S (SubscriberCount (Unsubscribe ScenarioReader.reader_two_queued 0%nat)).
Proof.
  refine (proj1 (proj2 (Unsubscribe_removes_and_closes
                          ScenarioReader.reader_two_queued 0%nat _) _)).
  - split.
    + vm_compute. apply NoDup_singleton.
    + intros ch ->%list_elem_of_singleton. vm_compute. eauto.
  - vm_compute. left.
Defined.

(** ** The backlog of a subscriber *)

Lemma chans_bounded_Stop (r : Reader) : chans_bounded r -> chans_bounded (Stop r).
Proof.
  intros Hb. unfold Stop. destruct (running r); [|done]. intros ch c. cbn.
  rewrite close_all_chans_lookup.
  destruct (subs r !! ch) as [c0|] eqn:Hc0; [|done]. simpl. intros [= <-].
  destruct (Hb _ _ Hc0). by case_decide.
Qed.

Lemma chans_bounded_Subscribe (r : Reader) :
  chans_bounded r -> chans_bounded (Subscribe r).1.
Proof.
  intros Hb ch c. unfold Subscribe; cbn.
  intros [[<- <-]|[Hne Hc]]%lookup_insert_Some; [|eauto].
  simpl. split; [done|lia].
Qed.

Lemma chans_bounded_Unsubscribe (r : Reader) (ch : chan_id) :
  chans_bounded r -> chans_bounded (Unsubscribe r ch).
Proof.
  intros Hb. unfold Unsubscribe. destruct (index_of ch (subscribers r)); [|done].
  intros x c. cbn. destruct (decide (ch = x)) as [->|Hne].
  - rewrite lookup_alter_eq. destruct (subs r !! x) as [c0|] eqn:Hc0; [|done].
    simpl. intros [= <-]. by destruct (Hb _ _ Hc0).
  - rewrite lookup_alter_ne by done. eauto.
Qed.

Lemma chans_bounded_broadcast (r : Reader) (e : DataEvent) :
  chans_bounded r -> chans_bounded (broadcast r e).
Proof.
  intros Hb ch c Hc. unfold broadcast in Hc. cbn [subs] in Hc.
  assert (is_Some (subs r !! ch)) as [c0 Hc0].
  { apply (proj1 (send_all_is_Some e (subscribers r) (subs r) ch)). eauto. }
  destruct (Hb _ _ Hc0) as [Hcap Hlen].
  destruct (send_all_keeps e (subscribers r) (subs r) ch c0 Hc0)
    as (c' & H1 & _ & H3 & H4); [lia|].
  rewrite H1 in Hc. injection Hc as <-. rewrite H3. split; [done|lia].
Qed.

Lemma chans_bounded_receive (r : Reader) (ch : chan_id) :
  chans_bounded r -> chans_bounded (receive r ch).1.
Proof.
  intros Hb. unfold receive, try_recv.
  destruct (subs r !! ch) as [c|] eqn:Hc; [|done].
  destruct (ch_buf c) as [|e rest] eqn:Hbuf; [by destruct (ch_closed c)|].
  intros x c'. cbn. intros [[<- <-]|[Hne Hc']]%lookup_insert_Some; [|eauto].
  destruct (Hb _ _ Hc) as [Hcap Hlen]. rewrite Hbuf in Hlen. simpl in *.
  split; [done|lia].
Qed.

Lemma chans_bounded_loop_step (r : Reader) (m : Manager) (lp : Loop)
    (sel : SelectEnv) (drv : bytes * option error) (now : Z) :
  chans_bounded r -> chans_bounded (loop_step r m lp sel drv now).1.1.1.
Proof.
  intros Hb. unfold loop_step. destruct (pc lp) as [|res|]; [| |done].
  - unfold loop_read. destruct (negb (running r)); [done|].
    destruct (ctx_done sel && _); [by apply chans_bounded_Stop|].
    destruct (stopClosed r); [done|].
    by destruct (Read m _ _ _ _ _).
  - unfold loop_publish. destruct (no_data res); [done|].
    destruct (fatal res); cbn [fst].
    + by apply chans_bounded_Stop, chans_bounded_broadcast.
    + by apply chans_bounded_broadcast.
Qed.

Lemma chans_bounded_sys_step (s : System) (a : action) :
  chans_bounded (sys_reader s) -> chans_bounded (sys_reader (sys_step s a).1).
Proof.
  intros Hb. destruct a as [sel drv now| |ch| |ch|c]; simpl.
  - pose proof (chans_bounded_loop_step (sys_reader s) (sys_manager s) (sys_loop s)
                  sel drv now Hb) as H.
    by destruct (loop_step _ _ _ _ _ _) as [[[r' m'] lp'] ev].
  - by apply chans_bounded_Subscribe.
  - by apply chans_bounded_Unsubscribe.
  - by apply chans_bounded_Stop.
  - pose proof (chans_bounded_receive _ ch Hb).
    by destruct (receive (sys_reader s) ch).
  - done.
Qed.

Lemma chans_bounded_sys_run (s : System) (acts : list action) :
  chans_bounded (sys_reader s) -> chans_bounded (sys_reader (sys_run s acts).1).
Proof.
  revert s. induction acts as [|a acts IH]; intros s Hb; [done|].
  rewrite sys_run_cons. cbn [fst]. by apply IH, chans_bounded_sys_step.
Qed.

(** X14: whatever the read loop, the clients and the subscribers of a
    new reader do, and in whatever order, no subscriber ever has more
    than 100 events waiting: [broadcast] drops an event for a subscriber
    whose channel is full rather than wait or grow the queue. *)
Theorem subscriber_backlog_bounded (p i : string) (b : Z) (m : Manager)
    (acts : list action) (ch : chan_id) :
  (length (queued (sys_reader (sys_run (started (NewReader p i b) m) acts).1) ch)
     <= 100)%nat.
Proof.
  assert (chans_bounded (sys_reader (started (NewReader p i b) m))) as Hb.
  { unfold started, Start, NewReader. cbn.
    destruct (ValidateSession m p i); intros x c; cbn; by rewrite lookup_empty. }
  pose proof (chans_bounded_sys_run _ acts Hb ch) as H.
  unfold queued. destruct (subs _ !! ch) as [c|]; [|simpl; lia].
  by destruct (H c eq_refl).
Qed.

(** ** Reading lines *)

Lemma split_line_Some (d : byte) (s line rest : bytes) :
  split_line d s = Some (line, rest) <-> s = line ++ d :: rest /\ d ∉ line.
Proof.
  revert line. induction s as [|b s IH]; intros line; simpl.
  - split; [done|]. intros [H _]. by destruct line.
  - destruct (Byte.eqb b d) eqn:E.
    + apply byte_dec_bl in E as ->. split.
      * intros [= <- <-]. split; [done|apply not_elem_of_nil].
      * intros [H Hnin]. destruct line as [|x line]; simpl in H.
        -- by injection H as <-.
        -- injection H as <- _. destruct Hnin. left.
    + apply Byte.eqb_false in E.
      destruct (split_line d s) as [[line' rest']|] eqn:Hs.
      * split.
        -- intros [= <- <-]. destruct (proj1 (IH line') eq_refl) as [-> Hnin].
           split; [done|]. by apply not_elem_of_cons.
        -- intros [H Hnin]. destruct line as [|x line]; simpl in H.
           { injection H as -> _. done. }
           injection H as <- H. apply not_elem_of_cons in Hnin as [_ Hnin].
           by pose proof (proj2 (IH line) (conj H Hnin)) as [= -> ->].
      * split; [done|]. intros [H Hnin]. destruct line as [|x line]; simpl in H.
        { injection H as -> _. done. }
        injection H as <- H. apply not_elem_of_cons in Hnin as [_ Hnin].
        by pose proof (proj2 (IH line) (conj H Hnin)).
Qed.

Lemma split_line_None (d : byte) (s : bytes) :
  split_line d s = None <-> d ∉ s.
Proof.
  induction s as [|b s IH]; simpl.
  - split; [intros _; apply not_elem_of_nil|done].
  - destruct (Byte.eqb b d) eqn:E.
    + apply byte_dec_bl in E as ->. split; [done|]. intros H. destruct H. left.
    + apply Byte.eqb_false in E. rewrite not_elem_of_cons, <- IH.
      destruct (split_line d s) as [[line rest]|].
      * split; [done|by intros [_ ?]].
      * split; [intros _; split; [congruence|done]|done].
Qed.

(** The first line of a stream that continues. *)
Lemma split_line_app (d : byte) (s t : bytes) :
  split_line d (s ++ t) =
  match split_line d s with
  | Some (line, rest) => Some (line, rest ++ t)
  | None =>
    match split_line d t with
    | Some (line, rest) => Some (s ++ line, rest)
    | None => None
    end
  end.
Proof.
  induction s as [|b s IH]; simpl.
  - by destruct (split_line d t) as [[? ?]|].
  - destruct (Byte.eqb b d); [done|]. rewrite IH.
    destruct (split_line d s) as [[line rest]|]; [done|].
    by destruct (split_line d t) as [[line rest]|].
Qed.

(** What the loop does on a stream without error events that fits the
    buffer. *)
Lemma ReadLine_loop_stream (d : byte) (mx : Z) (queue : list DataEvent)
    (closed : bool) (buffer : bytes) :
  Forall (fun e => Error e = None) queue ->
  Z.of_nat (length (buffer ++ concat (Data <$> queue))) <= mx ->
  match split_line d (buffer ++ concat (Data <$> queue)) with
  | Some (line, rest) =>
      exists b q, ReadLine_loop d mx buffer queue closed = (b, q, Line line) /\
        b ++ concat (Data <$> q) = rest
  | None =>
      ReadLine_loop d mx buffer queue closed =
        if closed then
          if 0 <? Z.of_nat (length (buffer ++ concat (Data <$> queue)))
          then ([], [], Line (buffer ++ concat (Data <$> queue)))
          else (buffer ++ concat (Data <$> queue), [], Failed ErrPortClosed)
        else (buffer ++ concat (Data <$> queue), [], Waiting)
  end.
Proof.
  revert buffer. induction queue as [|e q IH]; intros buffer Hok Hlen.
  - cbn [fmap list_fmap concat ReadLine_loop]. rewrite app_nil_r.
    destruct (split_line d buffer) as [[line rest]|]; [|done].
    exists rest, []. by rewrite app_nil_r.
  - apply Forall_cons in Hok as [He Hok].
    cbn [fmap list_fmap concat] in *. cbn [ReadLine_loop].
    destruct (split_line d buffer) as [[line rest]|] eqn:Hs.
    + rewrite split_line_app, Hs. exists rest, (e :: q). done.
    + rewrite He. cbv zeta.
      replace (Z.of_nat (length (buffer ++ Data e)) >? mx) with false.
      2: { symmetry. rewrite Z.gtb_ltb. apply Z.ltb_ge.
           rewrite !length_app in *. lia. }
      specialize (IH (buffer ++ Data e) Hok).
      rewrite <- !app_assoc in IH. by apply IH.
Qed.

(** X15: a line reader puts the lines of a stream together again,
    however the stream was cut into chunks.  When no event waiting in
    the channel carries an error and all the bytes at hand (those held
    by the reader followed by those waiting in the channel) fit
    [maxLine]: if these bytes contain the delimiter, [ReadLine] returns
    the bytes before its first occurrence, and the bytes after it stay
    at hand, in order; if they do not, [ReadLine] waits for more on an
    open channel, and on a closed one returns them all as the last line
    (PortClosed when there is none). *)
Theorem ReadLine_returns_first_line (lr : LineReader) (ch : Chan DataEvent) :
  Forall (fun e => Error e = None) (ch_buf ch) ->
  Z.of_nat (length (buffer lr ++ pending ch)) <= maxLine lr ->
  (forall line rest,
     buffer lr ++ pending ch = line ++ delimiter lr :: rest ->
     delimiter lr ∉ line ->
     exists lr' ch',
       ReadLine lr ch = (lr', ch', Line line) /\
       buffer lr' ++ pending ch' = rest /\
       delimiter lr' = delimiter lr /\ maxLine lr' = maxLine lr /\
       ch_closed ch' = ch_closed ch) /\
  (delimiter lr ∉ buffer lr ++ pending ch ->
     ReadLine lr ch =
       (mkLineReader (delimiter lr)
          (if ch_closed ch then [] else buffer lr ++ pending ch) (maxLine lr),
        mkChan [] (ch_cap ch) (ch_closed ch),
        if ch_closed ch then
          if 0 <? Z.of_nat (length (buffer lr ++ pending ch))
          then Line (buffer lr ++ pending ch)
          else Failed ErrPortClosed
        else Waiting)).
Proof.
  intros Hok Hlen. unfold pending in *.
  pose proof (ReadLine_loop_stream (delimiter lr) (maxLine lr) (ch_buf ch)
                (ch_closed ch) (buffer lr) Hok Hlen) as H.
  split.
  - intros line rest Hst Hnin.
    rewrite (proj2 (split_line_Some _ _ _ _) (conj Hst Hnin)) in H.
    destruct H as (b & q & Hrun & Hrest).
    unfold ReadLine. rewrite Hrun. eexists _, _. split; [done|]. by cbn.
  - intros Hnin%split_line_None. rewrite Hnin in H.
    unfold ReadLine. rewrite H.
    destruct (ch_closed ch); [|done].
    destruct (0 <? _) eqn:E; [done|].
    apply Z.ltb_ge in E.
    destruct (buffer lr ++ concat (Data <$> ch_buf ch)); [done|simpl in E; lia].
Qed.

(** X15 at the worked example: "A" is held and the chunks "B", "C\nD"
    and "E" wait; the line is "ABC", and "DE" stays at hand. *)
Lemma ReadLine_returns_first_line_witness :
  exists lr' ch',
    ReadLine ScenarioLines.lr_A ScenarioLines.chunks_B_CnD_E
      = (lr', ch', Line [x41; x42; x43]) /\
    buffer lr' ++ pending ch' = [x44; x45].
Proof.
  destruct (ReadLine_returns_first_line ScenarioLines.lr_A
              ScenarioLines.chunks_B_CnD_E) as [H _].
  - repeat constructor.
  - vm_compute. discriminate.
  - destruct (H [x41; x42; x43] [x44; x45]) as (lr' & ch' & H1 & H2 & _).
    + reflexivity.
    + rewrite !not_elem_of_cons. repeat split; try discriminate.
      apply not_elem_of_nil.
    + by exists lr', ch'.
Defined.

Lemma ReadLine_loop_accounts (d : byte) (mx : Z) (queue : list DataEvent)
    (closed : bool) (buffer b : bytes) (q : list DataEvent) (line : bytes) :
  ReadLine_loop d mx buffer queue closed = (b, q, Line line) ->
  exists consumed,
    queue = consumed ++ q /\ Forall (fun e => Error e = None) consumed /\
    ((buffer ++ concat (Data <$> consumed) = line ++ d :: b /\ d ∉ line) \/
     (buffer ++ concat (Data <$> consumed) = line /\ b = [] /\
      (mx < Z.of_nat (length line) \/
       (closed = true /\ q = [] /\ 0 < Z.of_nat (length line))))).
Proof.
  revert buffer. induction queue as [|e queue IH]; intros buffer; cbn [ReadLine_loop].
  - destruct (split_line d buffer) as [[l r]|] eqn:Hs.
    + intros [= <- <- <-]. exists []. split; [done|]. split; [constructor|].
      left. simpl. rewrite app_nil_r. by apply split_line_Some.
    + destruct closed; [|done]. destruct (0 <? _) eqn:E; [|done].
      intros [= <- <- <-]. exists []. split; [done|]. split; [constructor|].
      right. simpl. rewrite app_nil_r. split; [done|]. split; [done|].
      right. apply Z.ltb_lt in E. done.
  - destruct (split_line d buffer) as [[l r]|] eqn:Hs.
    + intros [= <- <- <-]. exists []. split; [done|]. split; [constructor|].
      left. simpl. rewrite app_nil_r. by apply split_line_Some.
    + destruct (Error e) eqn:He; [done|]. cbv zeta.
      destruct (_ >? mx) eqn:E.
      * intros [= <- <- <-]. exists [e]. split; [done|].
        split; [by repeat constructor|]. right. simpl. rewrite app_nil_r.
        split; [done|]. split; [done|]. left.
        apply Z.gtb_lt in E. done.
      * intros Hrun. destruct (IH _ Hrun) as (consumed & -> & Hok & Hcase).
        exists (e :: consumed). split; [done|].
        split; [by constructor|]. cbn [fmap list_fmap concat].
        by rewrite app_assoc.
Qed.

(** X16: a line that [ReadLine] returns accounts for every byte.  The
    bytes that the reader held, followed by the data of the events it
    took off the channel (none of which carries an error), are the line
    followed by the delimiter and the bytes that the reader holds now,
    the line being free of the delimiter; or else they are the line
    itself, the reader holds nothing, and the line is longer than
    [maxLine] (and may then contain delimiters) or is what was left
    when the channel was found closed and empty. *)
Theorem ReadLine_accounts_for_every_byte (lr lr' : LineReader)
    (ch ch' : Chan DataEvent) (line : bytes) :
  ReadLine lr ch = (lr', ch', Line line) ->
  exists consumed,
    ch_buf ch = consumed ++ ch_buf ch' /\
    Forall (fun e => Error e = None) consumed /\
    ((buffer lr ++ concat (Data <$> consumed)
        = line ++ delimiter lr :: buffer lr' /\ delimiter lr ∉ line) \/
     (buffer lr ++ concat (Data <$> consumed) = line /\ buffer lr' = [] /\
      (maxLine lr < Z.of_nat (length line) \/
       (ch_closed ch = true /\ ch_buf ch' = [] /\ 0 < Z.of_nat (length line))))).
Proof.
  unfold ReadLine.
  destruct (ReadLine_loop _ _ _ _ _) as [[b q] res] eqn:Hrun.
  intros [= <- <- ->]. cbn [buffer ch_buf].
  by apply (ReadLine_loop_accounts _ _ _ _ _ _ _ _ Hrun).
Qed.

(** X16 at the worked example: with room for 4 bytes only, the chunk
    "C\nD" overflows the buffer and "ABC\nD" comes back as one line. *)
Lemma ReadLine_accounts_for_every_byte_witness :
  exists consumed,
    ch_buf ScenarioLines.chunks_B_CnD_E = consumed ++ [mkDataEvent [x45] 3 3 None] /\
    Forall (fun e => Error e = None) consumed.
Proof.
  destruct (ReadLine_accounts_for_every_byte (mkLineReader x0a [x41] 4)
              (mkLineReader x0a [] 4) ScenarioLines.chunks_B_CnD_E
              (mkChan [mkDataEvent [x45] 3 3 None] 100 false)
              [x41; x42; x43; x0a; x44] eq_refl) as (consumed & H1 & H2 & _).
  by exists consumed.
Defined.

(** ** Writes with a timeout *)

(** X17: a write that loses the race against its deadline is reported
    as [(0, ErrWriteTimeout)], yet the write itself goes on: once the
    driver has accepted the bytes the session's [BytesSent] has grown by
    their number.  A write that wins the race returns what
    [Manager.Write] returns. *)
Theorem WriteWithTimeout_late_write_takes_effect (m : Manager)
    (name id : string) (data : bytes) (timeout n now t : Z) (race : WriteRace)
    (l : loc) :
  ValidateSession m name id = Ok l -> write_done_after race = Some t ->
  let out := WriteWithTimeout m name id data timeout (n, None) now race in
  out.1 = (Write m name id data (n, None) now).1 /\
  BytesSent (Statistics (load out.1 l))
    = (BytesSent (Statistics (load m l)) + n) mod 2 ^ 64 /\
  (t < Z.max 0 timeout -> out.2 = (n, None)) /\
  (Z.max 0 timeout < t -> out.2 = (0, Some ErrWriteTimeout)).
Proof.
  intros Hv Ht. cbv zeta. unfold WriteWithTimeout. rewrite Ht.
  pose proof (Write_counters m name id data n None now l) as Hc.
  rewrite Hv in Hc. cbv zeta in Hc. rewrite decide_True in Hc by done.
  destruct Hc as [Hsent _]. unfold sent in Hsent. rewrite AddUint64_uint64 in Hsent.
  assert ((Write m name id data (n, None) now).2 = (n, None)) as Hres.
  { unfold Write. by rewrite Hv. }
  destruct (Write m name id data (n, None) now) as [m' res]. cbn [fst snd] in *.
  split; [by destruct (_ || _)|]. split; [by destruct (_ || _)|]. split.
  - intros Hlt. apply Z.ltb_lt in Hlt. by rewrite Hlt.
  - intros Hgt.
    replace (t <? Z.max 0 timeout) with false by (symmetry; apply Z.ltb_ge; lia).
    replace (t =? Z.max 0 timeout) with false by (symmetry; apply Z.eqb_neq; lia).
    done.
Qed.

(** X17 at the worked example: a one-byte write to COM3 with a timeout
    of 500 ms that the driver completes after 600 ms. *)
Lemma WriteWithTimeout_late_write_takes_effect_witness :
  (WriteWithTimeout Scenario.m1 "COM3" "SA" [x00] (500 * Millisecond) (1, None) 0
     ScenarioLines.late_write).2 = (0, Some ErrWriteTimeout) /\
  BytesSent (Statistics (load
    (WriteWithTimeout Scenario.m1 "COM3" "SA" [x00] (500 * Millisecond) (1, None) 0
       ScenarioLines.late_write).1 0%nat)) = 1.
Proof.
  destruct (WriteWithTimeout_late_write_takes_effect Scenario.m1 "COM3" "SA" [x00]
              (500 * Millisecond) 1 0 (600 * Millisecond) ScenarioLines.late_write
              0%nat eq_refl eq_refl) as (_ & H2 & _ & H4).
  split; [apply H4; vm_compute; reflexivity|exact H2].
Defined.

(** ** Names of the settings *)

(** X18: the parsers read back what [String] prints.  For a parity in
    range, [ParseParity] of its name is that parity, with no error; for
    any other number the name is "unknown", which [ParseParity] refuses
    with InvalidConfig.  The same holds of flow control.
    [ParseStopBits] never yields one and a half stop bits. *)
Theorem Parse_reads_back_String (p f n : Z) :
  ParseParity (Parity_String p) =
    (if (ParityNone <=? p) && (p <=? ParitySpace) then (p, None)
     else (ParityNone, Some (Wrap "%w: invalid parity %q" ErrInvalidConfig))) /\
  ParseFlowControl (FlowControl_String f) =
    (if (FlowControlNone <=? f) && (f <=? FlowControlSoftware) then (f, None)
     else (FlowControlNone,
           Some (Wrap "%w: invalid flow control %q" ErrInvalidConfig))) /\
  ((ParseStopBits n).1 = StopBits1 \/ (ParseStopBits n).1 = StopBits2).
Proof.
  unfold Parity_String, FlowControl_String, ParseStopBits, ParityNone, ParityOdd,
    ParityEven, ParityMark, ParitySpace, FlowControlNone, FlowControlHardware,
    FlowControlSoftware, StopBits1, StopBits2.
  split; [|split].
  - destruct (Z.eqb_spec p 0) as [->|]; [done|].
    destruct (Z.eqb_spec p 1) as [->|]; [done|].
    destruct (Z.eqb_spec p 2) as [->|]; [done|].
    destruct (Z.eqb_spec p 3) as [->|]; [done|].
    destruct (Z.eqb_spec p 4) as [->|]; [done|].
    replace ((0 <=? p) && (p <=? 4)) with false; [done|].
    symmetry. apply andb_false_iff. rewrite Z.leb_gt, Z.leb_gt. lia.
  - destruct (Z.eqb_spec f 0) as [->|]; [done|].
    destruct (Z.eqb_spec f 1) as [->|]; [done|].
    destruct (Z.eqb_spec f 2) as [->|]; [done|].
    replace ((0 <=? f) && (f <=? 2)) with false; [done|].
    symmetry. apply andb_false_iff. rewrite Z.leb_gt, Z.leb_gt. lia.
  - destruct (n =? 1); [by left|]. destruct (n =? 2); [by right|by left].
Qed.





(** ** The agent's configuration and the port configuration *)





(** ** Conversions of the facade *)

Lemma uint32_small (n : Z) : 0 <= n < 2 ^ 32 -> uint32 n = n.
Proof. intros. unfold uint32. by apply Z.mod_small. Qed.

Lemma int32_small (n : Z) : - 2 ^ 31 <= n < 2 ^ 31 -> int32 n = n.
Proof. intros. unfold int32. rewrite Z.mod_small; lia. Qed.

(** X21: a port configuration survives the way to the wire and back.
    For a configuration that [Validate] accepts, whose baud rate fits
    [uint32] and whose timeouts are not negative and fit [uint32],
    [convertToSerialConfig] of [convertFromSerialConfig] is the
    configuration itself. *)
Theorem convert_config_round_trip (config : Config.Config) (c : PortConfig) :
  Validate c = None -> BaudRate c < 2 ^ 32 ->
  0 <= ReadTimeoutMs c < 2 ^ 32 -> 0 <= WriteTimeoutMs c < 2 ^ 32 ->
  convertToSerialConfig config (Some (convertFromSerialConfig c)) = c.
Proof.
  intros (Hb & Hd & Hs & Hp & Hf)%Validate_None_iff Hb' Hr Hw.
  destruct c as [b d s p f r w]. cbn in *.
  unfold StopBits1, StopBits2, ParityNone, ParitySpace, FlowControlNone,
    FlowControlSoftware in *.
  rewrite !uint32_small, int32_small by lia.
  assert (convertStopBits (convertStopBitsBack s) = s) as ->.
  { assert (s = 0 \/ s = 1 \/ s = 2) as [->|[->| ->]] by lia; reflexivity. }
  assert (convertParity (convertParityBack p) = p) as ->.
  { assert (p = 0 \/ p = 1 \/ p = 2 \/ p = 3 \/ p = 4) as [->|[->|[->|[->| ->]]]]
      by lia; reflexivity. }
  assert (convertFlowControl (convertFlowControlBack f) = f) as ->.
  { assert (f = 0 \/ f = 1 \/ f = 2) as [->|[->| ->]] by lia; reflexivity. }
  reflexivity.
Qed.

(** X21 at the worked example: the default port configuration. *)
Lemma convert_config_round_trip_witness :
  convertToSerialConfig Config.DefaultConfig
    (Some (convertFromSerialConfig DefaultConfig)) = DefaultConfig.
Proof.
  apply convert_config_round_trip; [reflexivity|..];
    unfold DefaultConfig; cbn; lia.
Defined.

(** X22: whatever configuration message a request carries, the facade
    hands the manager stop bits, parity and flow control that are in
    range (an unknown wire value becomes 1 stop bit, no parity, no flow
    control), so that [Validate] can refuse the converted configuration
    only for its baud rate or its data bits. *)
Theorem convertToSerialConfig_in_range (config : Config.Config)
    (cfg : Pb.PortConfig) :
  StopBits1 <= StopBits (convertToSerialConfig config (Some cfg)) <= StopBits2 /\
  ParityNone <= Parity (convertToSerialConfig config (Some cfg)) <= ParitySpace /\
  FlowControlNone <= FlowControl (convertToSerialConfig config (Some cfg))
    <= FlowControlSoftware /\
  (Validate (convertToSerialConfig config (Some cfg)) = None <->
     300 <= Pb.BaudRate cfg /\ 5 <= Pb.DataBits cfg <= 8).
Proof.
  assert (StopBits1 <= convertStopBits (Pb.StopBits cfg) <= StopBits2) as Hs
    by (destruct (Pb.StopBits cfg); cbv; split; discriminate).
  assert (ParityNone <= convertParity (Pb.Parity cfg) <= ParitySpace) as Hp
    by (destruct (Pb.Parity cfg); cbv; split; discriminate).
  assert (FlowControlNone <= convertFlowControl (Pb.FlowControl cfg)
            <= FlowControlSoftware) as Hf
    by (destruct (Pb.FlowControl cfg); cbv; split; discriminate).
  cbn. repeat (split; [done|]).
  rewrite Validate_None_iff. unfold checked_fields_ok. cbn. tauto.
Qed.

(** ** The driver's mode *)

(** X23: for configurations that [Validate] accepts, [ToSerialMode]
    sets the stop bits and the parity of the mode, and two
    configurations give the same mode exactly when they agree on baud
    rate, data bits, stop bits and parity: flow control and the
    timeouts leave no trace in the mode handed to the driver. *)
Theorem ToSerialMode_determined_by_four_fields (c c' : PortConfig) :
  Validate c = None -> Validate c' = None ->
  is_Some (mode_StopBits (ToSerialMode c)) /\
  is_Some (mode_Parity (ToSerialMode c)) /\
  (ToSerialMode c = ToSerialMode c' <->
     BaudRate c = BaudRate c' /\ DataBits c = DataBits c' /\
     StopBits c = StopBits c' /\ Parity c = Parity c').
Proof.
  intros (_ & _ & Hs & Hp & _)%Validate_None_iff
    (_ & _ & Hs' & Hp' & _)%Validate_None_iff.
  destruct c as [b d s p f r w], c' as [b' d' s' p' f' r' w']. cbn in *.
  unfold ToSerialMode, StopBits1, StopBits1Half, StopBits2, ParityNone, ParityOdd,
    ParityEven, ParityMark, ParitySpace in *. cbn.
  assert (s = 0 \/ s = 1 \/ s = 2) as Hs1 by lia.
  assert (s' = 0 \/ s' = 1 \/ s' = 2) as Hs1' by lia.
  assert (p = 0 \/ p = 1 \/ p = 2 \/ p = 3 \/ p = 4) as Hp1 by lia.
  assert (p' = 0 \/ p' = 1 \/ p' = 2 \/ p' = 3 \/ p' = 4) as Hp1' by lia.
  split; [|split].
  - destruct Hs1 as [->|[->| ->]]; cbn; eauto.
  - destruct Hp1 as [->|[->|[->|[->| ->]]]]; cbn; eauto.
  - split.
    + intros [= -> -> Hss Hpp]. split; [done|]. split; [done|].
      split.
      * destruct Hs1 as [->|[->| ->]], Hs1' as [->|[->| ->]]; cbn in Hss;
          done.
      * destruct Hp1 as [->|[->|[->|[->| ->]]]],
                 Hp1' as [->|[->|[->|[->| ->]]]]; cbn in Hpp; done.
    + by intros (-> & -> & -> & ->).
Qed.

(** X23 at the worked example: the default configuration with hardware
    flow control gives the mode of the default configuration. *)
Lemma ToSerialMode_determined_by_four_fields_witness :
  ToSerialMode (mkPortConfig 9600 8 StopBits1 ParityNone FlowControlHardware 0 0)
    = ToSerialMode DefaultConfig.
Proof.
  apply (proj2 (proj2 (proj2 (ToSerialMode_determined_by_four_fields
           (mkPortConfig 9600 8 StopBits1 ParityNone FlowControlHardware 0 0)
           DefaultConfig eq_refl eq_refl)))).
  repeat split.
Defined.

(** ** Scanning *)

Lemma name_le_total : Total Scan.name_le.
Proof.
  intros a b. unfold Scan.name_le.
  destruct (String.leb_total (Scan.Name a) (Scan.Name b)) as [H|H];
    rewrite H; [by left|by right].
Qed.

Lemma elem_of_filter_list {A : Type} (f : A -> bool) (l : list A) (x : A) :
  x ∈ List.filter f l <-> x ∈ l /\ f x = true.
Proof. rewrite !list_elem_of_In. apply filter_In. Qed.

(** X24: [Scan] lists the enumerated ports that no exclude pattern
    matches, each as often as it was enumerated and none else, sorted by
    name; an entry says that the port is open exactly when the manager
    holds a session for the port's name, and then names that session's
    client; the list is also what [GetCached] returns afterwards. *)
Theorem Scan_lists_ports_sorted (s : Scan.Scanner) (GOOS : string)
    (manager : option Manager) (ports : list PortDetails) :
  exists infos,
    Scan.Scan s GOOS manager (Ok ports) =
      (Scan.mkScanner (Scan.excludePatterns s) infos, Ok infos) /\
    Scan.GetCached (Scan.Scan s GOOS manager (Ok ports)).1 = infos /\
    Sorted Scan.name_le infos /\
    infos ≡ₚ Scan.port_info GOOS manager
               <$> List.filter (fun port => negb (Scan.isExcluded s (Scanner.Name port))) ports /\
    (forall info, info ∈ infos ->
       Scan.isExcluded s (Scan.Name info) = false /\
       (exists port, port ∈ ports /\ Scanner.Name port = Scan.Name info) /\
       (Scan.IsOpen info = true <->
          exists m l, manager = Some m /\ sessions m !! Scan.Name info = Some l /\
            Scan.LockedBy info = ClientID (load m l))) /\
    (forall port, port ∈ ports -> Scan.isExcluded s (Scanner.Name port) = false ->
       exists info, info ∈ infos /\ Scan.Name info = Scanner.Name port).
Proof.
  eexists. split; [reflexivity|]. split; [reflexivity|].
  split; [apply @Sorted_merge_sort, name_le_total|].
  split; [apply merge_sort_Permutation|]. split.
  - intros info. rewrite merge_sort_Permutation.
    intros (port & -> & [Hin Hex]%elem_of_filter_list)%list_elem_of_fmap.
    apply negb_true_iff in Hex. cbn. split; [done|]. split; [eauto|].
    unfold GetSession. destruct manager as [m|].
    + destruct (sessions m !! Scanner.Name port) as [l|] eqn:Hs.
      * split; [|done]. intros _. by exists m, l.
      * split; [done|]. intros (m' & l & [= <-] & Hl & _). congruence.
    + split; [done|]. by intros (m' & l & ? & _).
  - intros port Hin Hex. exists (Scan.port_info GOOS manager port).
    split; [|done]. rewrite merge_sort_Permutation. apply list_elem_of_fmap.
    exists port. split; [done|]. apply elem_of_filter_list. by rewrite Hex.
Qed.

(** X25: [GetPort] scans afresh and answers with the entry of the scan
    that carries the name asked for; it answers PortNotFound exactly
    when no enumerated port has that name or an exclude pattern matches
    it.  The scan it made is what [GetCached] returns afterwards. *)
Theorem GetPort_finds_listed_port (s : Scan.Scanner) (GOOS : string)
    (manager : option Manager) (ports : list PortDetails) (name : string) :
  match (Scan.GetPort s GOOS manager (Ok ports) name).2 with
  | Ok info =>
      Scan.Name info = name /\ Scan.isExcluded s name = false /\
      exists port, port ∈ ports /\ info = Scan.port_info GOOS manager port
  | Err err =>
      err = ErrPortNotFound /\
      forall port, port ∈ ports -> Scanner.Name port = name ->
        Scan.isExcluded s name = true
  end /\
  Scan.GetCached (Scan.GetPort s GOOS manager (Ok ports) name).1
    = Scan.GetCached (Scan.Scan s GOOS manager (Ok ports)).1.
Proof.
  unfold Scan.GetPort. cbn [Scan.Scan]. cbv zeta.
  set (infos := merge_sort _ _).
  assert (forall info, info ∈ infos <->
            exists port, info = Scan.port_info GOOS manager port /\ port ∈ ports /\
              Scan.isExcluded s (Scanner.Name port) = false) as Hinfos.
  { intros info. unfold infos. rewrite merge_sort_Permutation, list_elem_of_fmap.
    setoid_rewrite elem_of_filter_list. setoid_rewrite negb_true_iff. done. }
  split; [|done]. cbn [snd].
  destruct (List.find _ infos) as [info|] eqn:Hfind.
  - apply List.find_some in Hfind as [Hin Hname].
    apply list_elem_of_In, Hinfos in Hin as (port & -> & Hin & Hex).
    apply String.eqb_eq in Hname. cbn in Hname. subst name.
    split; [done|]. split; [done|]. eauto.
  - split; [done|]. intros port Hin Hname.
    destruct (Scan.isExcluded s name) eqn:Hex; [done|]. exfalso.
    pose proof (List.find_none _ _ Hfind (Scan.port_info GOOS manager port)) as Hn.
    cbn in Hn. rewrite Hname, String.eqb_refl in Hn.
    assert (true = false) as Habs; [|done]. apply Hn.
    apply list_elem_of_In, Hinfos. exists port. by rewrite Hname.
Qed.

(** ** Watching *)

Lemma ports_by_name_lookup (ports : list Scan.PortInfo)
    (acc : gmap string Scan.PortInfo) (name : string) :
  is_Some (foldl (fun acc p => <[Scan.Name p := p]> acc) acc ports !! name) <->
  is_Some (acc !! name) \/ exists p, p ∈ ports /\ Scan.Name p = name.
Proof.
  revert acc. induction ports as [|p ports IH]; intros acc; cbn [foldl].
  - split; [by left|]. intros [?|(p & Hp & _)]; [done|]. by apply elem_of_nil in Hp.
  - rewrite IH, lookup_insert_is_Some. split.
    + intros [[<-|[_ H]]|(q & Hq & Hn)].
      * right. exists p. split; [left|done].
      * by left.
      * right. exists q. split; [by right|done].
    + intros [H|(q & [->|Hq]%elem_of_cons & Hn)].
      * left. destruct (decide (Scan.Name p = name)); [by left|by right].
      * left. by left.
      * right. eauto.
Qed.

Lemma elem_of_filtered_values (P : string * Scan.PortInfo -> Prop)
    `{!forall kv, Decision (P kv)} (m : gmap string Scan.PortInfo)
    (p : Scan.PortInfo) :
  p ∈ (map_to_list (filter P m)).*2 <-> exists name, m !! name = Some p /\ P (name, p).
Proof.
  rewrite list_elem_of_fmap. split.
  - intros ([name q] & -> & Hin). apply elem_of_map_to_list in Hin.
    apply map_lookup_filter_Some in Hin as [? ?]. by exists name.
  - intros (name & Hl & HP). exists (name, p). split; [done|].
    apply elem_of_map_to_list, map_lookup_filter_Some. done.
Qed.

(** X26: one tick of the watcher compares names only.  After a scan
    that succeeds, the ports remembered are those of the scan, by name;
    the callback is not called exactly when the scan and the last tick
    have the same names, even if entries under a name differ (a port
    that was opened or closed in between is not reported); when it is
    called, [added] holds the entries whose name is new, [removed] the
    remembered entries whose name is gone, and [current] the scan.  A
    scan that fails changes nothing and calls nothing. *)
Theorem watch_tick_reports_name_changes (lastPorts : gmap string Scan.PortInfo)
    (ports : list Scan.PortInfo) (err : error) :
  Scan.watch_tick lastPorts (Err err) = (lastPorts, None) /\
  (Scan.watch_tick lastPorts (Ok ports)).1 = Scan.ports_by_name ports /\
  (forall name, is_Some (Scan.ports_by_name ports !! name) <->
     exists p, p ∈ ports /\ Scan.Name p = name) /\
  match (Scan.watch_tick lastPorts (Ok ports)).2 with
  | None =>
      forall name, is_Some (Scan.ports_by_name ports !! name) <->
                   is_Some (lastPorts !! name)
  | Some change =>
      Scan.current change = ports /\
      (Scan.added change <> [] \/ Scan.removed change <> []) /\
      (forall p, p ∈ Scan.added change <->
         exists name, Scan.ports_by_name ports !! name = Some p /\
           lastPorts !! name = None) /\
      (forall p, p ∈ Scan.removed change <->
         exists name, lastPorts !! name = Some p /\
           Scan.ports_by_name ports !! name = None)
  end.
Proof.
  split; [done|]. split; [done|]. split.
  { intros name. unfold Scan.ports_by_name. rewrite ports_by_name_lookup.
    rewrite lookup_empty. split; [intros [[? ?]|?]; done|by right]. }
  unfold Scan.watch_tick. cbv zeta. cbn [snd].
  set (cur := Scan.ports_by_name ports).
  set (added := (map_to_list (filter _ cur)).*2).
  set (removed := (map_to_list (filter _ lastPorts)).*2).
  assert (forall p, p ∈ added <->
            exists name, cur !! name = Some p /\ lastPorts !! name = None) as Hadd.
  { intros p. unfold added. by rewrite elem_of_filtered_values. }
  assert (forall p, p ∈ removed <->
            exists name, lastPorts !! name = Some p /\ cur !! name = None) as Hrem.
  { intros p. unfold removed. by rewrite elem_of_filtered_values. }
  destruct ((0 <? Z.of_nat (length added)) || (0 <? Z.of_nat (length removed))) eqn:E.
  - cbn. split; [done|]. split; [|done].
    apply orb_true_iff in E as [E|E]; apply Z.ltb_lt in E; [left|right];
      intros H; rewrite H in E; simpl in E; lia.
  - apply orb_false_iff in E as [E1 E2]. apply Z.ltb_ge in E1, E2.
    assert (added = []) as Ha by (destruct added; [done|simpl in E1; lia]).
    assert (removed = []) as Hr by (destruct removed; [done|simpl in E2; lia]).
    intros name. split.
    + intros [p Hp]. destruct (lastPorts !! name) as [q|] eqn:Hq; [eauto|].
      exfalso. assert (p ∈ added) as Hin by (apply Hadd; eauto).
      rewrite Ha in Hin. by apply elem_of_nil in Hin.
    + intros [q Hq]. destruct (cur !! name) as [p|] eqn:Hp; [eauto|].
      exfalso. assert (q ∈ removed) as Hin by (apply Hrem; eauto).
      rewrite Hr in Hin. by apply elem_of_nil in Hin.
Qed.

(** ** Opening a port through the facade *)



(** ** Streams *)

(** A write under the id that the port index itself gives. *)
Lemma Write_own_id (m : Manager) (name : string) (l : loc) (data : bytes)
    (n now : Z) :
  sessions m !! name = Some l -> closed (load m l) = false ->
  exists m',
    Write m name (ID (load m l)) data (n, None) now = (m', (n, None)) /\
    sessions m' = sessions m /\ closed (load m' l) = false /\
    sent m' l = AddUint64 (sent m l) (uint64 n).
Proof.
  intros Hs Hcl.
  assert (ValidateSession m name (ID (load m l)) = Ok l) as Hv.
  { unfold ValidateSession. rewrite Hs, decide_True by done. by rewrite Hcl. }
  unfold Write. rewrite Hv. cbn [fst snd]. eexists. split; [reflexivity|].
  split; [done|]. unfold sent. rewrite !load_store_eq. cbn. done.
Qed.

Lemma StreamWrite_loop_accepted (name : string) (l : loc)
    (writes : list (Rpc.DataChunk * Z * Z)) (m : Manager) (total count : Z) :
  Forall (fun w => Rpc.ck_PortName w.1.1 = name) writes ->
  sessions m !! name = Some l -> closed (load m l) = false ->
  0 <= total < 2 ^ 64 -> 0 <= count < 2 ^ 32 -> 0 <= sent m l < 2 ^ 64 ->
  exists m',
    Rpc.StreamWrite_loop m total count (Rpc.accepted writes ++ [Rpc.RecvEOF]) =
      (m', Some (Api.Reply
                   (Rpc.mkStreamWriteResponse true
                      ((total + sum (snd ∘ fst <$> writes)) mod 2 ^ 64)
                      ((count + Z.of_nat (length writes)) mod 2 ^ 32)
                      "stream completed successfully"))) /\
    sent m' l = (sent m l + sum (snd ∘ fst <$> writes)) mod 2 ^ 64.
Proof.
  revert m total count.
  induction writes as [|[[chunk n] now] writes IH];
    intros m total count Hall Hs Hcl Ht Hc Hsent.
  - cbn. exists m. rewrite !Z.add_0_r, !Z.mod_small by lia. done.
  - apply Forall_cons in Hall as [Hname Hall]. cbn in Hname.
    cbn [Rpc.accepted fmap list_fmap app Rpc.StreamWrite_loop fst snd].
    unfold GetSession. rewrite Hname, Hs.
    destruct (Write_own_id m name l (Rpc.ck_Data chunk) n now Hs Hcl)
      as (m1 & Hw & Hs1 & Hcl1 & Hsent1).
    rewrite Hw.
    destruct (IH m1 (AddUint64 total (uint64 n)) (AddUint32 count 1) Hall)
      as (m' & Hrun & Hsent'); try done.
    + by rewrite Hs1.
    + unfold AddUint64. apply Z.mod_pos_bound. lia.
    + unfold AddUint32. apply Z.mod_pos_bound. lia.
    + rewrite Hsent1. unfold AddUint64. apply Z.mod_pos_bound. lia.
    + exists m'. fold (Rpc.accepted writes). rewrite Hrun. split.
      * do 4 f_equal.
        -- rewrite AddUint64_uint64. cbn [fmap list_fmap sum foldr compose fst snd].
           fold (sum (snd ∘ fst <$> writes)).
           rewrite Zplus_mod_idemp_l. f_equal. lia.
        -- unfold AddUint32. rewrite Zplus_mod_idemp_l. f_equal.
           cbn [length]. lia.
      * rewrite Hsent', Hsent1, AddUint64_uint64.
        cbn [fmap list_fmap sum foldr compose fst snd].
        fold (sum (snd ∘ fst <$> writes)).
        rewrite Zplus_mod_idemp_l. f_equal. lia.
Qed.

(** X28: [StreamWrite] asks for no session id: it writes each chunk
    under the id of whatever session holds the chunk's port.  For a
    stream of chunks for one open port, all of which the driver accepts,
    and then the end of the stream, the response reports success, the
    sum of the byte counts modulo 2^64 and the number of chunks modulo
    2^32, and the [BytesSent] of the session that holds the port has
    grown by the same sum. *)
Theorem StreamWrite_totals (s : Api.SerialServer) (name : string) (l : loc)
    (writes : list (Rpc.DataChunk * Z * Z)) :
  reachable (Api.manager s) -> sessions (Api.manager s) !! name = Some l ->
  Forall (fun w => Rpc.ck_PortName w.1.1 = name) writes ->
  (Rpc.StreamWrite s (Rpc.accepted writes ++ [Rpc.RecvEOF])).2 =
    Some (Api.Reply
            (Rpc.mkStreamWriteResponse true
               (sum (snd ∘ fst <$> writes) mod 2 ^ 64)
               (Z.of_nat (length writes) mod 2 ^ 32)
               "stream completed successfully")) /\
  sent (Api.manager (Rpc.StreamWrite s (Rpc.accepted writes ++ [Rpc.RecvEOF])).1) l =
    (sent (Api.manager s) l + sum (snd ∘ fst <$> writes)) mod 2 ^ 64.
Proof.
  intros Hreach Hs Hall.
  destruct (StreamWrite_loop_accepted name l writes (Api.manager s) 0 0 Hall Hs)
    as (m' & Hrun & Hsent); [|lia|lia| |].
  - by apply (reachable_indexed_open _ Hreach name).
  - by apply reachable_sent_range.
  - unfold Rpc.StreamWrite. rewrite Hrun. cbn. by rewrite Hsent.
Qed.

(** X28 at the worked example: two chunks for COM3, of 2 and 3 bytes. *)
Lemma StreamWrite_totals_witness :
  (Rpc.StreamWrite Scenario.server1
     (Rpc.accepted [ (Rpc.mkDataChunk "COM3" [x48; x49] 0 0, 2, 7);
                     (Rpc.mkDataChunk "COM3" [x48; x49; x21] 0 0, 3, 8) ]
        ++ [Rpc.RecvEOF])).2
  = Some (Api.Reply (Rpc.mkStreamWriteResponse true 5 2
                       "stream completed successfully")).
Proof.
  refine (proj1 (StreamWrite_totals Scenario.server1 "COM3" 0%nat
                   [ (Rpc.mkDataChunk "COM3" [x48; x49] 0 0, 2, 7);
                     (Rpc.mkDataChunk "COM3" [x48; x49; x21] 0 0, 3, 8) ] _ _ _)).
  - exists true, DefaultConfig,
      [CallOpenPort "COM3" DefaultConfig "a" false Scenario.env_a]. reflexivity.
  - reflexivity.
  - repeat constructor.
Defined.

Lemma handleBiDirectionalReads_loop_numbers (portName : string)
    (selects : list Rpc.bidi_select) (sequence : Z) :
  let chunks := (Rpc.handleBiDirectionalReads_loop portName sequence selects).1 in
  Rpc.ck_Sequence <$> chunks = seq_from sequence (length chunks) /\
  Forall (fun c => Rpc.ck_PortName c = portName) chunks /\
  exists events,
    events `sublist_of`
      omap (fun sel => match sel with
                       | Rpc.BidiEvent e _ => Some e
                       | _ => None
                       end) selects /\
    Forall (fun e => Error e = None) events /\
    Rpc.ck_Data <$> chunks = Data <$> events /\
    Rpc.ck_Timestamp <$> chunks = Timestamp <$> events.
Proof.
  revert sequence. induction selects as [|sel selects IH]; intros sequence; cbv zeta.
  - cbn. split; [done|]. split; [done|]. exists []. done.
  - destruct sel as [|err|event send|]; cbn [Rpc.handleBiDirectionalReads_loop omap].
    + cbn. split; [done|]. split; [done|]. exists []. split; [apply sublist_nil_l|done].
    + cbn. split; [done|]. split; [done|]. exists []. split; [apply sublist_nil_l|done].
    + destruct (Error event) eqn:He.
      * destruct (IH sequence) as (H1 & H2 & events & H3 & H4 & H5 & H6).
        split; [done|]. split; [done|]. exists events.
        split; [by apply sublist_cons|done].
      * cbv zeta. destruct send as [err|].
        -- cbn [fst fmap list_fmap length Rpc.ck_Sequence].
           split; [by rewrite seq_from_S|]. split; [by repeat constructor|].
           exists [event]. split; [apply sublist_skip, sublist_nil_l|].
           split; [by repeat constructor|]. done.
        -- destruct (IH (AddUint32 sequence 1)) as (H1 & H2 & events & H3 & H4 & H5 & H6).
           destruct (Rpc.handleBiDirectionalReads_loop portName
                       (AddUint32 sequence 1) selects) as [chunks ret].
           cbn [fst] in *. cbn [fmap list_fmap length Rpc.ck_Sequence].
           split; [by rewrite seq_from_S, <- H1|].
           split; [by constructor|].
           exists (event :: events). split; [by apply sublist_skip|].
           split; [by constructor|]. cbn. by rewrite H5, H6.
    + cbn. split; [done|]. split; [done|]. exists []. split; [apply sublist_nil_l|done].
Qed.

(** X29: the read side of a bidirectional stream numbers its chunks
    itself.  Whatever the subscription delivers, the chunks handed to
    [stream.Send] carry the numbers 1, 2, 3, ... (modulo 2^32) without a
    gap, the port name of the stream, and the data and time stamps of
    events that carry no error, in the order received; the sequence
    numbers that the reader gave the events are not passed on, so that
    an event dropped for a full channel leaves no trace. *)
Theorem bidirectional_chunks_renumbered (portName : string)
    (selects : list Rpc.bidi_select) :
  let chunks := (Rpc.handleBiDirectionalReads portName selects).1 in
  Rpc.ck_Sequence <$> chunks = seq_from 0 (length chunks) /\
  Forall (fun c => Rpc.ck_PortName c = portName) chunks /\
  exists events,
    events `sublist_of`
      omap (fun sel => match sel with
                       | Rpc.BidiEvent e _ => Some e
                       | _ => None
                       end) selects /\
    Forall (fun e => Error e = None) events /\
    Rpc.ck_Data <$> chunks = Data <$> events /\
    Rpc.ck_Timestamp <$> chunks = Timestamp <$> events.
Proof. apply handleBiDirectionalReads_loop_numbers. Qed.

(** ** Listing ports through the facade *)

Lemma filter_sublist {A : Type} (f : A -> bool) (l : list A) :
  List.filter f l `sublist_of` l.
Proof.
  induction l as [|x l IH]; simpl; [done|].
  destruct (f x); [by apply sublist_skip|by apply sublist_cons].
Qed.

(** X30: the facade lists what a fresh scan finds, in the order of the
    scan.  A name is listed exactly when a port of that name was
    enumerated, no exclude pattern matches it and, if the request asks
    for available ports only, the manager holds no session for it. *)
Theorem ListPorts_only_available (scanner : Scan.Scanner) (GOOS : string)
    (manager : option Manager) (ports : list PortDetails) (onlyAvailable : bool) :
  exists listed infos,
    Rpc.ListPorts scanner GOOS manager (Ok ports) onlyAvailable
      = (Scan.mkScanner (Scan.excludePatterns scanner) infos,
         Api.Reply (Rpc.convertPortInfo <$> listed)) /\
    (Scan.Scan scanner GOOS manager (Ok ports)).2 = Ok infos /\
    listed `sublist_of` infos /\
    forall name,
      name ∈ Rpc.pi_Name <$> (Rpc.convertPortInfo <$> listed) <->
      (exists port, port ∈ ports /\ Scanner.Name port = name) /\
      Scan.isExcluded scanner name = false /\
      (onlyAvailable = true ->
       forall m, manager = Some m -> sessions m !! name = None).
Proof.
  unfold Rpc.ListPorts. cbn [Scan.Scan]. cbv zeta.
  set (infos := merge_sort _ _).
  exists (List.filter (fun p => negb (onlyAvailable && Scan.IsOpen p)) infos), infos.
  split; [done|]. split; [done|]. split; [apply filter_sublist|].
  assert (forall info, info ∈ infos <->
            exists port, info = Scan.port_info GOOS manager port /\ port ∈ ports /\
              Scan.isExcluded scanner (Scanner.Name port) = false) as Hinfos.
  { intros info. unfold infos. rewrite merge_sort_Permutation, list_elem_of_fmap.
    setoid_rewrite elem_of_filter_list. setoid_rewrite negb_true_iff. done. }
  assert (forall port, Scan.IsOpen (Scan.port_info GOOS manager port) = false <->
            forall m, manager = Some m -> sessions m !! Scanner.Name port = None)
    as Hopen.
  { intros port. cbn. unfold GetSession. destruct manager as [m|].
    - destruct (sessions m !! Scanner.Name port) eqn:Hs.
      + split; [done|]. intros H. specialize (H m eq_refl). congruence.
      + split; [|done]. by intros _ m' [= <-].
    - split; [|done]. by intros _ m' [=]. }
  intros name. rewrite <- list_fmap_compose, list_elem_of_fmap.
  setoid_rewrite elem_of_filter_list. split.
  - intros (info & -> & Hin & Hf). apply Hinfos in Hin as (port & -> & Hin & Hex).
    cbn [compose Rpc.convertPortInfo Rpc.pi_Name Scan.port_info Scan.Name].
    split; [eauto|]. split; [done|]. intros -> m Hm.
    apply negb_true_iff in Hf. cbn [andb] in Hf.
    by apply (proj1 (Hopen port) Hf).
  - intros ((port & Hin & <-) & Hex & Hav).
    exists (Scan.port_info GOOS manager port). split; [done|]. split.
    + apply Hinfos. eauto.
    + apply negb_true_iff. destruct onlyAvailable; [|done]. cbn [andb].
      apply Hopen. by apply Hav.
Qed.
